(** * AIcyObsidian: a shallow embedding of [main.cpp]

    The curling client of this repository has one source file.  This
    development embeds its functions ([SortStones], [IsInHouse],
    [EstimateShotVelocityFCV1], [OnInit], [OnMyTurn], [OnOpponentTurn],
    [OnGameOver], [main] and its lambdas [read_next_line] and
    [check_command]) as Rocq functions and proves what they do.

    - C++ [float] is IEEE binary32, modelled with the Standard Library's
      [spec_float] at precision 24 and maximal exponent 128, so that the
      arithmetic of the source is evaluated bit for bit.
    - The DigitalCurling3 library, the C math library, the JSON library
      and the transport are not part of the repository: they are the
      methods of the classes [Libm], [DigitalCurling3] and [Wire], and the
      record [Net] that [main] runs on.
    - The global variables of the program are the record [Globals], threaded
      through every function that reads or writes them. *)

From Stdlib Require Import ZArith Bool String Ascii Lia Sorted Permutation.
From Stdlib Require Import Floats.SpecFloat.
From stdpp Require Import base option list sorting.

Local Open Scope Z_scope.

(** ** binary32 arithmetic *)

Definition float32 : Type := spec_float.

Module F32.

Definition prec : Z := 24.
Definition emax : Z := 128.

Definition nan : float32 := S754_nan.
Definition zero : float32 := S754_zero false.

Definition add : float32 -> float32 -> float32 := SFadd prec emax.
Definition sub : float32 -> float32 -> float32 := SFsub prec emax.
Definition mul : float32 -> float32 -> float32 := SFmul prec emax.
Definition sqrt : float32 -> float32 := SFsqrt prec emax.
Definition opp : float32 -> float32 := SFopp.

(** The comparison operators of C++: all of them are false on a NaN. *)
Definition ltb : float32 -> float32 -> bool := SFltb.
Definition leb : float32 -> float32 -> bool := SFleb.
Definition gtb (a b : float32) : bool := SFltb b a.
Definition geb (a b : float32) : bool := SFleb b a.

(** [dec neg d k] is the binary32 value nearest to the decimal
    [(-1)^neg * d * 10^(-k)], ties to even: the value of a literal of the
    source.  The quotient is taken with 256 extra bits, and a nonzero
    remainder is passed on as a sticky bit. *)
Definition dec (neg : bool) (d : Z) (k : Z) : float32 :=
  let s := 256 in
  let q := (d * 2 ^ s) / 10 ^ k in
  let r := (d * 2 ^ s) mod 10 ^ k in
  match q with
  | Zpos _ =>
      binary_round_aux prec emax neg q (- s)
        (if r =? 0 then loc_Exact else loc_Inexact Lt)
  | _ => S754_zero neg
  end.

Definition is_nan (a : float32) : bool :=
  match a with S754_nan => true | _ => false end.

End F32.

(** The arithmetic is run by [vm_compute], never unfolded by [simpl]. *)
Arguments F32.dec : simpl never.
Arguments F32.add : simpl never.
Arguments F32.sub : simpl never.
Arguments F32.mul : simpl never.
Arguments F32.sqrt : simpl never.
Arguments F32.ltb : simpl never.
Arguments F32.leb : simpl never.
Arguments F32.gtb : simpl never.
Arguments F32.geb : simpl never.

Declare Scope f32_scope.
Delimit Scope f32_scope with f32.
Infix "+" := F32.add : f32_scope.
Infix "-" := F32.sub : f32_scope.
Infix "*" := F32.mul : f32_scope.
Infix "<?" := F32.ltb : f32_scope.
Infix "<=?" := F32.leb : f32_scope.
Infix ">?" := F32.gtb : f32_scope.
Infix ">=?" := F32.geb : f32_scope.

(** ** Data model *)

(** C++ [double], IEEE binary64: the numbers of a JSON text that are not
    integers. *)
Definition float64 : Type := spec_float.

Module Vector2.
Record t : Type := mk { x : float32; y : float32 }.

Definition sub (a b : t) : t :=
  {| x := (x a - x b)%f32; y := (y a - y b)%f32 |}.

(** [dc::Vector2()] *)
Definition origin : t := {| x := F32.zero; y := F32.zero |}.
End Vector2.

(** [dc::Transform]: where a stone is. *)
Record Transform : Type := {
  position : Vector2.t;
  angle : float32;
}.

(** [dc::Team], with the values of the enumerators. *)
Inductive Team : Type := k0 | k1 | kInvalid.

Definition Team_index (t : Team) : nat :=
  match t with k0 => 0%nat | k1 => 1%nat | kInvalid => 2%nat end.

#[global] Instance Team_eq_dec : EqDecision Team.
Proof. solve_decision. Defined.

(** [dc::GameState::Stones]: the 2 x 8 grid of optional transforms.  The
    array is total on its index range; the model is a function of the two
    indices. *)
Definition Stones : Type := nat -> nat -> option Transform.

Record GameResult : Type := { winner : Team }.

Record GameState : Type := {
  end_ : nat;
  shot : nat;
  hammer : Team;
  stones : Stones;
  game_result : option GameResult;
}.

Inductive Rotation : Type := kCCW | kCW.

#[global] Instance Rotation_eq_dec : EqDecision Rotation.
Proof. solve_decision. Defined.

Record ShotMove : Type := {
  velocity : Vector2.t;
  rotation : Rotation;
}.

(** [dc::Move] is [std::variant<moves::Shot, moves::Concede>]. *)
Inductive Move : Type :=
| Shot (s : ShotMove)
| Concede.

(** Index into [GameState::Stones]. *)
Record StoneIndex : Type := { team : nat; stone : nat }.

#[global] Instance StoneIndex_eq_dec : EqDecision StoneIndex.
Proof. solve_decision. Defined.

Definition stone_at (s : Stones) (i : StoneIndex) : option Transform :=
  s (team i) (stone i).

(** Values for a read outside an array; no read of the program is. *)
#[global] Instance float32_inhabited : Inhabited float32 := populate F32.zero.

#[global] Instance ShotMove_inhabited : Inhabited ShotMove :=
  populate {| velocity := Vector2.origin; rotation := kCCW |}.

#[global] Instance string_inhabited : Inhabited string := populate EmptyString.

(** ** State passing

    The functions that read or write the program's global variables are
    state transformers. *)

Definition State (S A : Type) : Type := S -> A * S.

Definition ret {S A : Type} (a : A) : State S A := fun s => (a, s).

Definition bind {S A B : Type} (c : State S A) (k : A -> State S B)
  : State S B :=
  fun s => let (a, s') := c s in k a s'.

Notation "'let*' x := c 'in' k" := (bind c (fun x => k))
  (at level 10, x name, c at level 100, k at level 200).

(** A monadic left fold: the body of a counted [for] loop run over the
    values of its counter. *)
Fixpoint for_each {S A I : Type} (body : A -> I -> State S A)
  (a : A) (l : list I) : State S A :=
  match l with
  | [] => ret a
  | i :: l' => let* a' := body a i in for_each body a' l'
  end.

(** ** Console and wire *)

(** What can go wrong in [main].  [OutOfFuel] is not a failure of the
    program: it marks a run of the model's update loop that was given too
    few turns, which [main] never does ([main_fuel]). *)
Inductive Failure : Type :=
| UnexpectedCmd (expected actual : string)
| UnexpectedProtocolVersion
| UnexpectedRule
| TransportError
| JsonError
| OutOfFuel.

(** A line written to standard output or to standard error. *)
Inductive Line : Type :=
| Usage
| ExceptionLine (e : Failure)
| WarningUnsupportedSimulator
| InDc
| GameId (game_id : string)
| DateTime (date_time : string)
| OutDcOk (name : string)
| InIsReady
| OutReadyOk (player_order : list nat)
| InNewGame
| InUpdate (end_number shot_number : nat)
| OutMove (m : Move)
| InGameOver
| WonTheGame
| LostTheGame.

(** A JSON value of the wire protocol.  [JNumber] is a number that the
    parser holds as a 64-bit integer, signed or unsigned; [JFloat] is every
    other number, held as a [double]. *)
#[local] Unset Elimination Schemes.
Inductive json : Type :=
| JNull
| JBool (b : bool)
| JNumber (n : Z)
| JFloat (f : float64)
| JString (s : string)
| JArray (l : list json)
| JObject (fields : list (string * json)).
#[local] Set Elimination Schemes.

(** What the process does to the world, in order. *)
Inductive IO : Type :=
| Connect (host port : string)
| ReadLine
| WriteLine (j : json)
| Cout (l : Line)
| Cerr (l : Line).

(** A line of text received: it parses as a JSON value, or it does not. *)
Inductive RawLine : Type :=
| Parses (j : json)
| Malformed.

(** The transport and the console. *)
Record Net : Type := {
  (** does the connection succeed *)
  reachable : bool;
  (** the lines the peer sends; reading past the last one fails *)
  inbound : list RawLine;
  (** how many writes succeed before the transport fails *)
  writes_left : nat;
  (** what the process has done so far, oldest first *)
  io : list IO;
}.

(** A computation of [main]: it fails with an exception or gives a value,
    and changes the transport and the console as it goes. *)
Definition Run (A : Type) : Type := State Net (Failure + A).

Definition ok {A : Type} (a : A) : Run A := ret (inr a).

Definition raise {A : Type} (e : Failure) : Run A := ret (inl e).

Definition and_then {A B : Type} (c : Run A) (k : A -> Run B) : Run B :=
  let* r := c in
  match r with
  | inl e => ret (inl e)
  | inr a => k a
  end.

Notation "'let?' x := c 'in' k" := (and_then c (fun x => k))
  (at level 10, x name, c at level 100, k at level 200).

Definition emit (e : IO) : Run unit :=
  fun n =>
    (inr tt,
     {| reachable := reachable n; inbound := inbound n;
        writes_left := writes_left n; io := io n ++ [e] |}).

(** ** What the program takes from outside *)

(** The float overloads of the C math library used by the estimator. *)
Class Libm : Type := {
  logf : float32 -> float32;
  atan2f : float32 -> float32 -> float32;
  cosf : float32 -> float32;
  sinf : float32 -> float32;
}.


(** A stone inside a simulator. *)
Record StoneState : Type := {
  st_position : Vector2.t;
  st_angle : float32;
  st_linear_velocity : Vector2.t;
  st_angular_velocity : float32;
}.

Class DigitalCurling3 : Type := {
  (** [Vector2::Length] *)
  Length : Vector2.t -> float32;
  (** [coordinate::GetCenterLineX(Id::kShot0)] and
      [coordinate::GetTeeLineY(true, Id::kShot0)] *)
  CenterLineX : float32;
  TeeLineY : float32;

  GameSetting : Type;
  (** the physical state inside an [ISimulator]; an [ISimulatorStorage]
      holds one such state *)
  SimState : Type;
  (** an [IPlayer] with the state of its random engine *)
  Player : Type;
  SimulatorFactory : Type;
  PlayerFactory : Type;

  GetSimulatorId : SimulatorFactory -> string;
  CreateSimulator : SimulatorFactory -> SimState;
  SimulatorFCV1Factory : SimulatorFactory;
  CreatePlayer : PlayerFactory -> Player;
  PlayerNormalDistFactory : PlayerFactory;

  (** [ISimulator::CreateStorage]: the state a new storage holds *)
  CreateStorage : SimState -> SimState;
  SetStones : SimState -> (nat -> option StoneState) -> SimState;
  GetStones : SimState -> nat -> option StoneState;
  AreAllStonesStopped : SimState -> bool;
  Step : SimState -> SimState;
  (** a number of steps after which the stones of a simulator are at rest *)
  steps_to_rest : SimState -> nat;

  (** [dc::ApplyMove]: plays a move to rest; it updates the simulator, the
      player and the game state it is given. *)
  ApplyMove :
    GameSetting -> SimState -> Player -> GameState -> Move ->
    SimState * Player * GameState;

  GetNextTeam : GameState -> Team;
}.

(** The coefficients of the regression, one set per band of the arrival
    speed.  The literals of the source are doubles that initialise [float]
    constants; each value here is the [float] nearest to the literal, which
    for these literals is also what the rounding through a double gives. *)
Module Band1.
Definition kC0 : list float32 :=
  [F32.dec false 5048122574925176 19; F32.dec false 2756242531609261 16].
Definition kC1 : list float32 :=
  [F32.dec false 46669575066030805 20; F32.dec true 29898958358378636 15;
   F32.dec true 14030973174948508 19].
Definition kC2 : list float32 :=
  [F32.dec false 13968687866736632 17; F32.dec false 41120940058777616 17].
End Band1.

Module Band2.
Definition kC0 : list float32 :=
  [F32.dec true 14309170115803444 19; F32.dec false 9858457898438147 16].
Definition kC1 : list float32 :=
  [F32.dec true 8339331735471273 19; F32.dec true 2986751291726946 14;
   F32.dec true 19811799977982522 17].
Definition kC2 : list float32 :=
  [F32.dec false 13967323742978 14; F32.dec false 42816312110477517 17].
End Band2.

Module Band3.
Definition kC0 : list float32 :=
  [F32.dec false 10833113118071224 22; F32.dec true 12132851917870833 20;
   F32.dec false 4578093297561233 18; F32.dec false 9767006869364527 16].
Definition kC1 : list float32 :=
  [F32.dec false 7950648211492622 17; F32.dec true 8228225657195706 15;
   F32.dec true 5601306077702578 17].
Definition kC2 : list float32 :=
  [F32.dec false 14140440186382008 17; F32.dec false 3875782508767419 16].
End Band3.

Section Program.

Context `{libm : Libm} `{dc : DigitalCurling3}.

(** The position of the tee. *)
Definition kTee : Vector2.t := {| Vector2.x := CenterLineX; Vector2.y := TeeLineY |}.

(** [(stone->position - kTee).Length()] *)
Definition tee_distance (s : Transform) : float32 :=
  Length (Vector2.sub (position s) kTee).

(** ** [SortStones] *)

(** The test of the inner loop on [stone_a] and [stone_b]:
    [!stone_a || (stone_b && dist(stone_a) > dist(stone_b))]. *)
Definition out_of_order (stone_a stone_b : option Transform) : bool :=
  match stone_a with
  | None => true
  | Some a =>
      match stone_b with
      | None => false
      | Some b => (tee_distance a >? tee_distance b)%f32
      end
  end.

(** One turn of the inner loop, at index [j > 0]. *)
Definition compare_swap (s : Stones) (j : nat) (result : list StoneIndex)
  : list StoneIndex :=
  match result !! (j - 1)%nat, result !! j with
  | Some ia, Some ib =>
      if out_of_order (stone_at s ia) (stone_at s ib)
      then <[(j - 1)%nat := ib]> (<[j := ia]> result)
      else result
  | _, _ => result
  end.

(** [for (size_t j = i; j > 0; --j)] *)
Fixpoint sink (s : Stones) (j : nat) (result : list StoneIndex)
  : list StoneIndex :=
  match j with
  | O => result
  | S j' => sink s j' (compare_swap s j result)
  end.

(** [for (size_t i = 0; i < 16; ++i)], the initialisation of [result] *)
Definition fill (result : list StoneIndex) : list StoneIndex :=
  foldl (fun r i => <[i := {| team := i / 8; stone := i mod 8 |}]> r)
        result (seq 0 16).

Definition SortStones (result : list StoneIndex) (s : Stones)
  : list StoneIndex :=
  foldl (fun r i => sink s i r) (fill result) (seq 1 15).

(** ** [EstimateShotVelocityFCV1] *)

(** [std::sqrt(c0 * target_speed * target_speed + c1 * target_speed + c2)] *)
Definition launch_speed (c0 c1 c2 target_speed : float32) : float32 :=
  F32.sqrt (c0 * target_speed * target_speed + c1 * target_speed + c2)%f32.


(** The first lambda of the estimator: the magnitude [v0_speed] of the
    launch velocity, from the length [target_r] of [target_position]. *)
Definition v0_speed_of (target_r target_speed : float32) : float32 :=
  if (target_speed <=? F32.dec false 5 2)%f32 then
    let c0 := (Band1.kC0 !!! 0%nat * target_r + Band1.kC0 !!! 1%nat)%f32 in
    let c1 := (F32.opp (Band1.kC1 !!! 0%nat)
               * logf (target_r + Band1.kC1 !!! 1%nat)
               + Band1.kC1 !!! 2%nat)%f32 in
    let c2 := (Band1.kC2 !!! 0%nat * target_r + Band1.kC2 !!! 1%nat)%f32 in
    launch_speed c0 c1 c2 target_speed
  else if (target_speed <=? F32.dec false 1 0)%f32 then
    let c0 := (Band2.kC0 !!! 0%nat * target_r + Band2.kC0 !!! 1%nat)%f32 in
    let c1 := (F32.opp (Band2.kC1 !!! 0%nat)
               * logf (target_r + Band2.kC1 !!! 1%nat)
               + Band2.kC1 !!! 2%nat)%f32 in
    let c2 := (Band2.kC2 !!! 0%nat * target_r + Band2.kC2 !!! 1%nat)%f32 in
    launch_speed c0 c1 c2 target_speed
  else
    let c0 := (Band3.kC0 !!! 0%nat * target_r * target_r * target_r
               + Band3.kC0 !!! 1%nat * target_r * target_r
               + Band3.kC0 !!! 2%nat * target_r
               + Band3.kC0 !!! 3%nat)%f32 in
    let c1 := (F32.opp (Band3.kC1 !!! 0%nat)
               * logf (target_r + Band3.kC1 !!! 1%nat)
               + Band3.kC1 !!! 2%nat)%f32 in
    let c2 := (Band3.kC2 !!! 0%nat * target_r + Band3.kC2 !!! 1%nat)%f32 in
    launch_speed c0 c1 c2 target_speed.

Definition v0_speed (target_position : Vector2.t) (target_speed : float32)
  : float32 :=
  v0_speed_of (Length target_position) target_speed.

(** The three assertions of the estimator.  They stop a debug build and
    are no part of the value computed. *)
Definition assert_speed_domain (target_speed : float32) : bool :=
  (target_speed >=? F32.zero)%f32 && (target_speed <=? F32.dec false 4 0)%f32.



(** The [while] loop of the second lambda: the trial stone is stepped until
    its speed is at most [target_speed], or until the simulator is at rest.
    [fuel] bounds the number of steps. *)
Fixpoint trial_loop (fuel : nat) (target_speed : float32) (s : SimState)
  : Vector2.t * SimState :=
  let here :=
    match GetStones s 0%nat with
    | Some st => st_position st
    | None => Vector2.origin
    end in
  match fuel with
  | O => (here, s)
  | S fuel' =>
      if AreAllStonesStopped s then (here, s)
      else
        match GetStones s 0%nat with
        | Some st =>
            if (Length (st_linear_velocity st) <=? target_speed)%f32
            then (st_position st, s)
            else trial_loop fuel' target_speed (Step s)
        | None => (here, s)
        end
  end.

(** The sixteen stones given to [SetStones]: only stone 0 is on the sheet. *)
Definition init_stones (v0_speed rotation_factor : float32)
  : nat -> option StoneState :=
  fun i =>
    match i with
    | O => Some {| st_position := Vector2.origin;
                   st_angle := F32.zero;
                   st_linear_velocity :=
                     {| Vector2.x := F32.zero; Vector2.y := v0_speed |};
                   st_angular_velocity :=
                     (F32.dec false 157 2 * rotation_factor)%f32 |}
    | _ => None
    end.

(** The second lambda: where the trial stone is when it has slowed down to
    [target_speed].  [s_simulator] is the simulator kept between calls. *)
Definition trial_delta (rot : Rotation) (v0_speed target_speed : float32)
  (s_simulator : option SimState) : Vector2.t * SimState :=
  let rotation_factor :=
    if decide (rot = kCCW) then F32.dec false 1 0 else F32.dec true 1 0 in
  let sim :=
    match s_simulator with
    | Some s => s
    | None => CreateSimulator SimulatorFCV1Factory
    end in
  let sim := SetStones sim (init_stones v0_speed rotation_factor) in
  trial_loop (steps_to_rest sim) target_speed sim.

(** ** The global variables *)

(** A call made on [g_simulator]; [CallApplyMove s] records the state [s]
    the simulator was in when [dc::ApplyMove] received it. *)
Inductive SimCall : Type :=
| CallSave
| CallLoad
| CallApplyMove (s : SimState).

Record Globals : Type := {
  g_team : Team;
  g_game_setting : GameSetting;
  g_simulator : SimState;
  g_simulator_storage : SimState;
  g_players : list Player;
  (** the [thread_local] simulator of [EstimateShotVelocityFCV1] *)
  s_simulator : option SimState;
  (** ghost: the calls made on [g_simulator] so far, oldest first *)
  sim_calls : list SimCall;
}.

Definition EstimateShotVelocityFCV1 (target_position : Vector2.t)
  (target_speed : float32) (rot : Rotation) : State Globals Vector2.t :=
  fun g =>
    let v0 := v0_speed target_position target_speed in
    let (delta, sim) := trial_delta rot v0 target_speed (s_simulator g) in
    let delta_angle := atan2f (Vector2.x delta) (Vector2.y delta) in
    let target_angle :=
      atan2f (Vector2.y target_position) (Vector2.x target_position) in
    let v0_angle := (target_angle + delta_angle)%f32 in
    ({| Vector2.x := (v0 * cosf v0_angle)%f32;
        Vector2.y := (v0 * sinf v0_angle)%f32 |},
     {| g_team := g_team g;
        g_game_setting := g_game_setting g;
        g_simulator := g_simulator g;
        g_simulator_storage := g_simulator_storage g;
        g_players := g_players g;
        s_simulator := Some sim;
        sim_calls := sim_calls g |}).

Definition set_simulator (sim : SimState) (call : SimCall) (g : Globals)
  : Globals :=
  {| g_team := g_team g;
     g_game_setting := g_game_setting g;
     g_simulator := sim;
     g_simulator_storage := g_simulator_storage g;
     g_players := g_players g;
     s_simulator := s_simulator g;
     sim_calls := sim_calls g ++ [call] |}.

(** [g_simulator->Save] into [g_simulator_storage] *)
Definition Save : State Globals unit :=
  fun g =>
    (tt,
     {| g_team := g_team g;
        g_game_setting := g_game_setting g;
        g_simulator := g_simulator g;
        g_simulator_storage := g_simulator g;
        g_players := g_players g;
        s_simulator := s_simulator g;
        sim_calls := sim_calls g ++ [CallSave] |}).

(** [g_simulator->Load] from [g_simulator_storage] *)
Definition Load : State Globals unit :=
  fun g => (tt, set_simulator (g_simulator_storage g) CallLoad g).

#[global] Instance Player_inhabited : Inhabited Player :=
  populate (CreatePlayer PlayerNormalDistFactory).

(** [dc::ApplyMove(g_game_setting, *g_simulator, current_player,
    temp_game_state, temp_move, 0ms)], where [current_player] is
    [*g_players[game_state.shot / 4]]; the value is the game state after
    the move. *)
Definition apply_move (game_state : GameState) (temp_move : Move)
  : State Globals GameState :=
  fun g =>
    let i := (shot game_state / 4)%nat in
    let '(sim, player, temp_game_state) :=
      ApplyMove (g_game_setting g) (g_simulator g) (g_players g !!! i)
                game_state temp_move in
    (temp_game_state,
     {| g_team := g_team g;
        g_game_setting := g_game_setting g;
        g_simulator := sim;
        g_simulator_storage := g_simulator_storage g;
        g_players := <[i := player]> (g_players g);
        s_simulator := s_simulator g;
        sim_calls := sim_calls g ++ [CallApplyMove (g_simulator g)] |}).

(** ** [OnMyTurn] *)

(** [temp_game_state.stones[shot % 2][shot / 2]], with
    [shot = game_state.shot] *)
Definition shot_slot_stone (game_state temp_game_state : GameState)
  : option Transform :=
  stones temp_game_state (shot game_state mod 2)%nat (shot game_state / 2)%nat.

(** The test that ends the speed search. *)
Definition took_out (game_state : GameState) (idx : StoneIndex)
  (temp_game_state : GameState) : bool :=
  bool_decide (is_Some (shot_slot_stone game_state temp_game_state))
  && negb (bool_decide (is_Some (stone_at (stones temp_game_state) idx))).

(** One rollout of the speed search, at [speed]. *)
Definition try_speed (game_state : GameState) (idx : StoneIndex)
  (stone : Transform) (speed : float32) : State Globals bool :=
  let* v := EstimateShotVelocityFCV1 (position stone) speed kCCW in
  let temp_move := Shot {| velocity := v; rotation := kCCW |} in
  let* _ := Load in
  let* temp_game_state := apply_move game_state temp_move in
  ret (took_out game_state idx temp_game_state).

(** [for (; speed < 3.5f; speed += 0.5f)]: the value is [speed] when the
    loop is left.  [fuel] bounds the number of turns. *)
Fixpoint speed_search (fuel : nat) (game_state : GameState)
  (idx : StoneIndex) (stone : Transform) (speed : float32)
  : State Globals float32 :=
  match fuel with
  | O => ret speed
  | S fuel' =>
      if (speed <? F32.dec false 35 1)%f32 then
        let* done := try_speed game_state idx stone speed in
        if done then ret speed
        else speed_search fuel' game_state idx stone
               (speed + F32.dec false 5 1)%f32
      else ret speed
  end.

(** The body of the inner scoring loop, for candidate [j]. *)
Definition score_trial (game_state : GameState) (idx : StoneIndex)
  (candidate_shots : list ShotMove) (points : list Z) (j : nat)
  : State Globals (list Z) :=
  let* _ := Load in
  let temp_move := Shot (candidate_shots !!! j) in
  let* temp_game_state := apply_move game_state temp_move in
  let points :=
    if bool_decide (is_Some (shot_slot_stone game_state temp_game_state))
    then alter (Z.add 1) j points else points in
  let points :=
    if negb (bool_decide (is_Some (stone_at (stones temp_game_state) idx)))
    then alter (Z.add 1) j points else points in
  ret points.

(** [for (int i = 0; i < 3; i++) for (int j = 0; j < 2; j++)] *)
Definition score_candidates (game_state : GameState) (idx : StoneIndex)
  (candidate_shots : list ShotMove) : State Globals (list Z) :=
  for_each
    (fun points (_ : nat) =>
       for_each (score_trial game_state idx candidate_shots) points
                (seq 0 (length candidate_shots)))
    [0; 0] (seq 0 3).

(** The number of turns the speed search is given; [speed_search_first_accepted]
    shows that the loop is over before they are used up. *)
Definition speed_search_fuel : nat := 7.

(** What follows the speed search: the two candidates at [speed], their
    scores over three trials each, and the choice. *)
Definition strike (game_state : GameState) (idx : StoneIndex)
  (stone : Transform) (speed : float32) : State Globals Move :=
  let* ccw := EstimateShotVelocityFCV1 (position stone) speed kCCW in
  let* cw := EstimateShotVelocityFCV1 (position stone) speed kCW in
  let candidate_shots :=
    [ {| velocity := ccw; rotation := kCCW |};
      {| velocity := cw; rotation := kCW |} ] in
  let* points := score_candidates game_state idx candidate_shots in
  if (points !!! 0%nat >? points !!! 1%nat)%Z
  then ret (Shot (candidate_shots !!! 0%nat))
  else ret (Shot (candidate_shots !!! 1%nat)).

(** What [OnMyTurn] does for the opponent stone [stone] at [idx]. *)
Definition hit (game_state : GameState) (idx : StoneIndex) (stone : Transform)
  : State Globals Move :=
  let* speed :=
    speed_search speed_search_fuel game_state idx stone (F32.dec false 5 1) in
  strike game_state idx stone speed.

(** [for (auto const idx : sorted_indices)]: [Some m] when the loop returns
    the move [m], [None] when it ends or is left by [break]. *)
Fixpoint target_loop (game_state : GameState) (sorted_indices : list StoneIndex)
  : State Globals (option Move) :=
  match sorted_indices with
  | [] => ret None
  | idx :: rest =>
      fun g =>
        if decide (team idx = Team_index (g_team g))
        then target_loop game_state rest g
        else
          match stone_at (stones game_state) idx with
          | None => ret None g
          | Some stone =>
              (let* m := hit game_state idx stone in ret (Some m)) g
          end
  end.

Definition OnMyTurn (game_state : GameState) : State Globals Move :=
  let sorted_indices :=
    SortStones (replicate 16 {| team := 0; stone := 0 |}) (stones game_state) in
  let* _ := Save in
  let* found := target_loop game_state sorted_indices in
  match found with
  | Some m => ret m
  | None =>
      let* v0 := EstimateShotVelocityFCV1 kTee F32.zero kCCW in
      ret (Shot {| velocity := v0; rotation := kCCW |})
  end.

(** ** [OnInit] *)

Definition OnInit (team : Team) (game_setting : GameSetting)
  (simulator_factory : option SimulatorFactory)
  (player_factories : list (option PlayerFactory))
  (player_order : list nat) : Globals * list Line :=
  ({| g_team := team;
      g_game_setting := game_setting;
      g_simulator :=
        match simulator_factory with
        | Some f => CreateSimulator f
        | None => CreateSimulator SimulatorFCV1Factory
        end;
      g_simulator_storage :=
        CreateStorage
          match simulator_factory with
          | Some f => CreateSimulator f
          | None => CreateSimulator SimulatorFCV1Factory
          end;
      g_players :=
        map (fun i =>
               match mjoin (player_factories !! (player_order !!! i)) with
               | Some f => CreatePlayer f
               | None => CreatePlayer PlayerNormalDistFactory
               end)
            (seq 0 4);
      s_simulator := None;
      sim_calls := [] |},
   [WarningUnsupportedSimulator]).

End Program.

(** The planner is unfolded by name, never by [simpl]. *)
Arguments SortStones : simpl never.
Arguments OnMyTurn : simpl never.

(** ** [main] *)

(** The conversions between JSON and the types of the library. *)
Class Wire `{DigitalCurling3} : Type := {
  Team_of_json : json -> option Team;
  GameSetting_of_json : json -> option GameSetting;
  SimulatorFactory_of_json : json -> option SimulatorFactory;
  PlayerFactory_of_json : json -> option PlayerFactory;
  GameState_of_json : json -> option GameState;
  Move_to_json : Move -> json;
  ToString : Team -> string;
}.

Section Client.

Context `{libm : Libm} `{dc : DigitalCurling3} `{wire : !Wire}.

Definition kName : string := "AIcyObsidian".

Definition kSupportedProtocolVersionMajor : Z := 1.

(** [boost::asio::connect(socket, resolver.resolve(argv[1], argv[2]))] *)
Definition connect (host port : string) : Run unit :=
  let? _ := emit (Connect host port) in
  fun n => if reachable n then ok tt n else raise TransportError n.

(** The lambda [read_next_line]. *)
Definition read_next_line : Run RawLine :=
  let? _ := emit ReadLine in
  fun n =>
    match inbound n with
    | [] => raise TransportError n
    | line :: rest =>
        (inr line,
         {| reachable := reachable n; inbound := rest;
            writes_left := writes_left n; io := io n |})
    end.

(** [json::parse(line)] *)
Definition parse (line : RawLine) : Run json :=
  match line with
  | Parses j => ok j
  | Malformed => raise JsonError
  end.

(** [boost::asio::write(socket, ...)] of one message *)
Definition write (jout : json) : Run unit :=
  fun n =>
    match writes_left n with
    | O => raise TransportError n
    | S k =>
        emit (WriteLine jout)
          {| reachable := reachable n; inbound := inbound n;
             writes_left := k; io := io n |}
    end.

Definition cout (l : Line) : Run unit := emit (Cout l).
Definition cerr (l : Line) : Run unit := emit (Cerr l).

Fixpoint cout_all (ls : list Line) : Run unit :=
  match ls with
  | [] => ok tt
  | l :: rest => let? _ := cout l in cout_all rest
  end.

Definition field (key : string) (value : json) : string * json :=
  (key, value).

(** [j.at(key)] *)
Definition at_key (j : json) (key : string) : Run json :=
  match j with
  | JObject fields =>
      match List.find (fun kv => String.eqb (fst kv) key) fields with
      | Some kv => ok (snd kv)
      | None => raise JsonError
      end
  | _ => raise JsonError
  end.

Definition get_string (j : json) : Run string :=
  match j with JString s => ok s | _ => raise JsonError end.

(** [static_cast<int>] of a 64-bit integer: the value modulo [2^32], in
    the range of [int]. *)
Definition to_int32 (n : Z) : Z := (n + 2 ^ 31) mod 2 ^ 32 - 2 ^ 31.

(** [static_cast<int>] of a [double]: the value without its fractional
    part.  Where that is not in the range of [int] the C++ conversion is
    undefined: [None]. *)
Definition int_of_double (f : float64) : option Z :=
  match f with
  | S754_zero _ => Some 0
  | S754_finite s m e =>
      let magnitude :=
        if 0 <=? e then Z.pos m * 2 ^ e else Z.pos m / 2 ^ (- e) in
      let z := if s then - magnitude else magnitude in
      if (- 2 ^ 31 <=? z) && (z <? 2 ^ 31) then Some z else None
  | _ => None
  end.

(** [j.get<int>()]: the JSON library converts a number of either kind and
    a boolean by [static_cast] and throws on every other value.  Two cases
    are outside of what the program defines, and the computation stops
    there: a [double] that [int] cannot hold, and a [JNumber] that is no
    64-bit integer, which the parser would have held as a [double]. *)
Definition get_int (j : json) : Run Z :=
  match j with
  | JNumber n =>
      if (- 2 ^ 63 <=? n) && (n <? 2 ^ 64) then ok (to_int32 n)
      else raise JsonError
  | JFloat f =>
      match int_of_double f with
      | Some z => ok z
      | None => raise JsonError
      end
  | JBool b => ok (if b then 1 else 0)
  | _ => raise JsonError
  end.

(** [j.get<T>()] for a type of the library *)
Definition get {T : Type} (decode : json -> option T) (j : json) : Run T :=
  match decode j with Some v => ok v | None => raise JsonError end.

(** [try { f = j.get<std::unique_ptr<Factory>>(); } catch (std::exception&)]:
    an unsupported factory is a null pointer, and the exception goes to
    standard output. *)
Definition get_factory {T : Type} (decode : json -> option T) (j : json)
  : Run (option T) :=
  match decode j with
  | Some f => ok (Some f)
  | None => let? _ := cout (ExceptionLine JsonError) in ok None
  end.

(** The lambda [check_command]. *)
Definition check_command (jin : json) (expected_cmd : string) : Run unit :=
  let? cmd := at_key jin "cmd" in
  let? actual_cmd := get_string cmd in
  if String.eqb actual_cmd expected_cmd then ok tt
  else raise (UnexpectedCmd expected_cmd actual_cmd).

Definition receive (expected_cmd : string) : Run json :=
  let? line := read_next_line in
  let? jin := parse line in
  let? _ := check_command jin expected_cmd in
  ok jin.

(** The block "[in] dc". *)
Definition in_dc : Run unit :=
  let? jin := receive "dc" in
  let? jin_version := at_key jin "version" in
  let? jmajor := at_key jin_version "major" in
  let? major := get_int jmajor in
  if negb (major =? kSupportedProtocolVersionMajor)
  then raise UnexpectedProtocolVersion
  else
    let? _ := cout InDc in
    let? jid := at_key jin "game_id" in
    let? game_id := get_string jid in
    let? _ := cout (GameId game_id) in
    let? jdate := at_key jin "date_time" in
    let? date_time := get_string jdate in
    cout (DateTime date_time).

(** The block "[out] dc_ok". *)
Definition out_dc_ok : Run unit :=
  let? _ := write (JObject [field "cmd" (JString "dc_ok");
                            field "name" (JString kName)]) in
  cout (OutDcOk kName).

(** [try { player_factory = jin_player_factories[i].get<...>(); }
    catch (std::exception &e)]: the element is taken inside the [try], so
    that a value that is no array gives a null pointer as an unsupported
    factory does, the exception going to standard output.  In an array
    the element is taken without a check; past its end the source has no
    defined behaviour, and the model takes the way of the exception. *)
Definition player_factory_at (jin_player_factories : json) (i : nat)
  : Run (option PlayerFactory) :=
  match jin_player_factories with
  | JArray l =>
      match l !! i with
      | Some j => get_factory PlayerFactory_of_json j
      | None => let? _ := cout (ExceptionLine JsonError) in ok None
      end
  | _ => let? _ := cout (ExceptionLine JsonError) in ok None
  end.

(** [for (size_t i = 0; i < 4; ++i)], reading the player factories *)
Fixpoint read_player_factories (jin_player_factories : json) (indices : list nat)
  : Run (list (option PlayerFactory)) :=
  match indices with
  | [] => ok []
  | i :: rest =>
      let? player_factory := player_factory_at jin_player_factories i in
      let? others := read_player_factories jin_player_factories rest in
      ok (player_factory :: others)
  end.

(** The block "[in] is_ready" with "[out] ready_ok": the value is the team
    and the global variables that [OnInit] has set. *)
Definition in_is_ready : Run (Team * Globals) :=
  let? jin := receive "is_ready" in
  let? jgame := at_key jin "game" in
  let? jrule := at_key jgame "rule" in
  let? rule := get_string jrule in
  if negb (String.eqb rule "normal") then raise UnexpectedRule
  else
    let? jteam := at_key jin "team" in
    let? team := get Team_of_json jteam in
    let? jsetting := at_key jgame "setting" in
    let? game_setting := get GameSetting_of_json jsetting in
    let? jin_simulator := at_key jgame "simulator" in
    let? simulator_factory :=
      get_factory SimulatorFactory_of_json jin_simulator in
    let? jplayers := at_key jgame "players" in
    let? jin_player_factories := at_key jplayers (ToString team) in
    let? player_factories :=
      read_player_factories jin_player_factories (seq 0 4) in
    let? _ := cout InIsReady in
    let player_order := [0; 1; 2; 3]%nat in
    let (g, printed) :=
      OnInit team game_setting simulator_factory player_factories
             player_order in
    let? _ := cout_all printed in
    let? _ := write (JObject
                [field "cmd" (JString "ready_ok");
                 field "player_order"
                   (JArray (map (fun i => JNumber (Z.of_nat i)) player_order))]) in
    let? _ := cout (OutReadyOk player_order) in
    ok (team, g).

(** The block "[in] new_game". *)
Definition in_new_game : Run unit :=
  let? jin := receive "new_game" in
  let? _ := cout InNewGame in
  let? jname := at_key jin "name" in
  let? _ := at_key jname "team0" in
  let? jname := at_key jin "name" in
  let? _ := at_key jname "team1" in
  ok tt.

(** [OnOpponentTurn] does nothing. *)
Definition OnOpponentTurn (game_state : GameState) : State Globals unit :=
  ret tt.

(** [while (true)]: the value is the game state of the last update and the
    global variables.  Every turn reads a line, so a number of turns above
    the number of lines left is never used up. *)
Fixpoint update_loop (fuel : nat) (team : Team) (g : Globals)
  : Run (GameState * Globals) :=
  match fuel with
  | O => raise OutOfFuel
  | S fuel' =>
      let? jin := receive "update" in
      let? jstate := at_key jin "state" in
      let? game_state := get GameState_of_json jstate in
      let? _ := cout (InUpdate (end_ game_state) (shot game_state)) in
      if bool_decide (is_Some (game_result game_state))
      then ok (game_state, g)
      else if decide (GetNextTeam game_state = team) then
        let (move, g') := OnMyTurn game_state g in
        let? _ := write (JObject [field "cmd" (JString "move");
                                  field "move" (Move_to_json move)]) in
        let? _ := cout (OutMove move) in
        update_loop fuel' team g'
      else
        let (_, g') := OnOpponentTurn game_state g in
        update_loop fuel' team g'
  end.

(** The block "[in] game_over". *)
Definition in_game_over : Run unit :=
  let? _ := receive "game_over" in
  cout InGameOver.

Definition OnGameOver (game_state : GameState) (g : Globals) : Run unit :=
  match game_result game_state with
  | Some r =>
      if decide (winner r = g_team g) then cout WonTheGame
      else cout LostTheGame
  | None => ok tt
  end.

(** What follows the argument check inside the [try] block. *)
Definition session (host port : string) : Run unit :=
  let? _ := connect host port in
  let? _ := in_dc in
  let? _ := out_dc_ok in
  let? tg := in_is_ready in
  let? _ := in_new_game in
  let? sg := (fun n => update_loop (S (length (inbound n))) (fst tg) (snd tg) n) in
  let? _ := in_game_over in
  OnGameOver (fst sg) (snd sg).

(** The [try] block: [Some c] when it executes [return c], [None] when
    control leaves it at its end. *)
Definition try_block (argv : list string) : Run (option Z) :=
  if negb (length argv =? 3)%nat then
    let? _ := cerr Usage in
    ok (Some 1)
  else
    let? _ := session (argv !!! 1%nat) (argv !!! 2%nat) in
    ok None.

(** [main]: the exit status. *)
Definition main (argv : list string) : State Net Z :=
  let* r := try_block argv in
  match r with
  | inr (Some c) => ret c
  | inr None => ret 0
  | inl e =>
      (* [catch (std::exception &e)] *)
      let* _ := cerr (ExceptionLine e) in
      ret 0
  end.

End Client.

(** ** The line reader of [main]

    The lambda [read_next_line] as it is written, on the bytes of the
    connection: the computations above take the lines one by one from
    [inbound]; here the buffer that the lambda captures and the pieces in
    which the bytes arrive are explicit. *)

Module LineReader.

(** The text of a [std::string], byte by byte. *)
Definition text : Type := list ascii.

Definition newline : ascii := "010"%char.

(** [s.find_first_of(c)]: [None] stands for [std::string::npos]. *)
Fixpoint find_first_of (s : text) (c : ascii) : option nat :=
  match s with
  | [] => None
  | a :: rest =>
      if Ascii.eqb a c then Some 0%nat
      else option_map S (find_first_of rest c)
  end.

(** [pos + 1] in [size_t]: [npos] is the largest value, and one more than
    it is 0. *)
Definition plus_one (pos : option nat) : nat :=
  match pos with
  | Some p => (p + 1)%nat
  | None => 0%nat
  end.

(** The socket and the buffer that the lambda captures. *)
Record Reader : Type := {
  input_buffer : text;
  (** what the socket will deliver, one piece per read *)
  arriving : list text;
}.

(** [boost::asio::read_until(socket, dynamic_buffer(buffer), '\n')]: pieces
    are appended to the buffer until it holds a newline; [None] when the
    socket has no more to give. *)
Fixpoint read_until (pieces : list text) (buffer : text)
  : option (text * list text) :=
  match find_first_of buffer newline with
  | Some _ => Some (buffer, pieces)
  | None =>
      match pieces with
      | [] => None
      | piece :: rest => read_until rest (buffer ++ piece)
      end
  end.

(** The lambda [read_next_line]: the line, and the reader afterwards;
    [None] when [read_until] throws. *)
Definition read_next_line (r : Reader) : option (text * Reader) :=
  let filled :=
    match input_buffer r with
    | [] => read_until (arriving r) []
    | _ => Some (input_buffer r, arriving r)
    end in
  match filled with
  | None => None
  | Some (buffer, pieces) =>
      let new_line_pos := find_first_of buffer newline in
      Some (take (plus_one new_line_pos) buffer,
            {| input_buffer := drop (plus_one new_line_pos) buffer;
               arriving := pieces |})
  end.

(** A line on the wire: its text, without a newline inside, and the
    newline. *)
Definition frame (l : text) : text := l ++ [newline].

Definition frames (ls : list text) : text := concat (map frame ls).

(** The reader is at a line boundary and [ls] is what it will read: the
    buffer holds whole lines, and every piece to arrive is one or more whole
    lines. *)
Definition aligned (r : Reader) (ls : list text) : Prop :=
  exists (held : list text) (groups : list (list text)),
    input_buffer r = frames held
    /\ arriving r = map frames groups
    /\ Forall (fun g => g <> []) groups
    /\ ls = held ++ concat groups.

End LineReader.

(** ** [IsInHouse] *)

Section House.

Context `{dc : DigitalCurling3}.

(** [coordinate::kHouseRadius] and [ISimulator::kStoneRadius] *)
Variables kHouseRadius kStoneRadius : float32.

(** [IsInHouse] *)
Definition IsInHouse (stone : option Transform) : bool :=
  match stone with
  | None => false
  | Some t => (tee_distance t <? kHouseRadius + kStoneRadius)%f32
  end.

End House.

(** * The vocabulary of the properties

    The notions in which the properties below are stated: the order that
    [SortStones] leaves, the rollouts on the simulator, the speed search as
    the specification tells it. *)

Section Vocabulary.

Context `{libm : Libm} `{dc : DigitalCurling3}.

(** The place of an index in the array that [fill] writes. *)
Definition slot (i : StoneIndex) : nat := (8 * team i + stone i)%nat.

Definition init_indices : list StoneIndex :=
  map (fun i => {| team := i / 8; stone := i mod 8 |}) (seq 0 16).

(** [farther a b]: [a] is strictly farther from the tee than [b], by the
    comparison of the source. *)
Definition farther (a b : Transform) : bool :=
  (tee_distance a >? tee_distance b)%f32.

(** The order [SortStones] leaves in [result]: [a] may stand before [b]. *)
Definition precedes (s : Stones) (a b : StoneIndex) : Prop :=
  match stone_at s a, stone_at s b with
  | Some ta, Some tb =>
      farther ta tb = false /\ (farther tb ta = true \/ (slot a < slot b)%nat)
  | Some _, None => True
  | None, Some _ => False
  | None, None => (slot b < slot a)%nat
  end.

(** The order the specification asks for: as [precedes], but two absent
    stones keep their original order. *)
Definition precedes_stable (s : Stones) (a b : StoneIndex) : Prop :=
  match stone_at s a, stone_at s b with
  | Some ta, Some tb =>
      farther ta tb = false /\ (farther tb ta = true \/ (slot a < slot b)%nat)
  | Some _, None => True
  | None, Some _ => False
  | None, None => (slot a < slot b)%nat
  end.

(** No stone on the sheet has a NaN for its distance to the tee. *)
Definition distances_defined (s : Stones) : Prop :=
  forall i a, stone_at s i = Some a -> tee_distance a <> F32.nan.

(** The distances of the stones on the sheet are comparable: "not farther"
    is transitive. *)
Definition distances_comparable (s : Stones) : Prop :=
  forall i j k a b c,
    stone_at s i = Some a -> stone_at s j = Some b -> stone_at s k = Some c ->
    farther a b = false -> farther b c = false -> farther a c = false.

(** One pass of the inner loop on the list level.  [before] is the part of
    the array in front of [x], nearest element first; the value is the new
    front part with [x] in it, in the same reversed order. *)
Fixpoint bubble (s : Stones) (before : list StoneIndex) (x : StoneIndex)
  : list StoneIndex :=
  match before with
  | [] => [x]
  | a :: r =>
      if out_of_order (stone_at s a) (stone_at s x)
      then a :: bubble s r x
      else x :: bubble s r a
  end.

Fixpoint passes (s : Stones) (done todo : list StoneIndex)
  : list StoneIndex :=
  match todo with
  | [] => done
  | x :: t => passes s (bubble s done x) t
  end.

(** [trials n g g']: from [g] to [g'] the program has made [n] rollouts on
    [g_simulator], each one a [Load] of the snapshot directly followed by
    [dc::ApplyMove], and nothing else; the snapshot is the same.  After the
    last rollout the simulator is as [dc::ApplyMove] left it. *)
Definition trials (n : nat) (g g' : Globals) : Prop :=
  g_team g' = g_team g
  /\ g_game_setting g' = g_game_setting g
  /\ g_simulator_storage g' = g_simulator_storage g
  /\ sim_calls g' =
      sim_calls g
      ++ concat (replicate n [CallLoad; CallApplyMove (g_simulator_storage g)])
  /\ (n = 0%nat -> g_simulator g' = g_simulator g)
  /\ (n <> 0%nat ->
      exists player game_state move,
        g_simulator g' =
        (ApplyMove (g_game_setting g) (g_simulator_storage g)
                   player game_state move).1.1).

(** No stone of a team other than [me] is on the sheet. *)
Definition no_opponent_stone (me : Team) (game_state : GameState) : Prop :=
  forall t n : nat,
    (t < 2)%nat -> (n < 8)%nat -> t <> Team_index me ->
    stones game_state t n = None.

(** The two candidates that [strike] builds at [speed], counter-clockwise
    first, and the global variables after building them. *)
Definition candidates_at (stone : Transform) (speed : float32)
  : State Globals (list ShotMove) :=
  let* ccw := EstimateShotVelocityFCV1 (position stone) speed kCCW in
  let* cw := EstimateShotVelocityFCV1 (position stone) speed kCW in
  ret [ {| velocity := ccw; rotation := kCCW |};
        {| velocity := cw; rotation := kCW |} ].

(** The aggregate scores of the two candidates over their three trials. *)
Definition aggregate_scores (game_state : GameState) (idx : StoneIndex)
  (stone : Transform) (speed : float32) (g : Globals) : list Z :=
  (score_candidates game_state idx (candidates_at stone speed g).1
                    (candidates_at stone speed g).2).1.

(** The speeds of the search, in the order they are tried. *)
Definition ladder : list float32 :=
  [F32.dec false 5 1; F32.dec false 10 1; F32.dec false 15 1;
   F32.dec false 20 1; F32.dec false 25 1; F32.dec false 30 1].

(** The search as the specification tells it: the speeds are tried in
    order, the first one whose rollout passes the test of the code is
    accepted. *)
Fixpoint first_accepted (game_state : GameState) (idx : StoneIndex)
  (stone : Transform) (speeds : list float32)
  : State Globals (option float32) :=
  match speeds with
  | [] => ret None
  | v :: rest =>
      let* done := try_speed game_state idx stone v in
      if done then ret (Some v)
      else first_accepted game_state idx stone rest
  end.

(** The game state after the rollout that the speed search makes at
    [speed] for the stone [target_stone], from the global variables [g]. *)
Definition rollout_state (game_state : GameState) (target_stone : Transform)
  (speed : float32) (g : Globals) : GameState :=
  ((let* v := EstimateShotVelocityFCV1 (position target_stone) speed kCCW in
    let* _ := Load in
    apply_move game_state (Shot {| velocity := v; rotation := kCCW |})) g).1.

(** The global variables [g] of a planner that plays for the team [t]. *)
Definition with_team (t : Team) (g : Globals) : Globals :=
  {| g_team := t;
     g_game_setting := g_game_setting g;
     g_simulator := g_simulator g;
     g_simulator_storage := g_simulator_storage g;
     g_players := g_players g;
     s_simulator := s_simulator g;
     sim_calls := sim_calls g |}.

(** [climbs v speeds stop]: counting up from [v] in steps of 0.5 gives the
    values [speeds], all below 3.5, and then [stop], which is not. *)
Fixpoint climbs (v : float32) (speeds : list float32) (stop : float32) : Prop :=
  match speeds with
  | [] => v = stop /\ (stop <? F32.dec false 35 1)%f32 = false
  | a :: rest =>
      a = v /\ (v <? F32.dec false 35 1)%f32 = true
      /\ climbs (v + F32.dec false 5 1)%f32 rest stop
  end.

(** A computation that reads no line and does not run out of fuel. *)
Definition steady {A : Type} (c : Run A) : Prop :=
  forall n : Net,
    match c n with
    | (inl e, _) => e <> OutOfFuel
    | (inr _, n') => inbound n' = inbound n
    end.

End Vocabulary.

Section Vocabulary_of_the_runs.

Context `{libm : Libm} `{dc : DigitalCurling3} `{wire : !Wire}.

(** From [g] to [g'] only the player of slot [i] may have changed: the
    team, the settings and the other players are the same. *)
Definition only_player (i : nat) (g g' : Globals) : Prop :=
  g_team g' = g_team g
  /\ g_game_setting g' = g_game_setting g
  /\ length (g_players g') = length (g_players g)
  /\ (forall j : nat, j <> i -> g_players g' !! j = g_players g !! j).

(** The trial stone in [s] is on its way and faster than [target_speed]:
    the [while] loop of the estimator goes on. *)
Definition still_fast (target_speed : float32) (s : SimState) : Prop :=
  AreAllStonesStopped s = false
  /\ exists st, GetStones s 0%nat = Some st
                /\ (Length (st_linear_velocity st) <=? target_speed)%f32 = false.

(** [stones[0]->position] in [s] *)
Definition trial_position (s : SimState) : Vector2.t :=
  match GetStones s 0%nat with
  | Some st => st_position st
  | None => Vector2.origin
  end.

(** The messages written in a run, in order. *)
Definition writes (l : list IO) : list json :=
  omap (fun e => match e with WriteLine j => Some j | _ => None end) l.

Definition dc_ok_message : json :=
  JObject [field "cmd" (JString "dc_ok"); field "name" (JString kName)].

Definition ready_ok_message : json :=
  JObject [field "cmd" (JString "ready_ok");
           field "player_order"
             (JArray [JNumber 0; JNumber 1; JNumber 2; JNumber 3])].

Definition move_message (m : Move) : json :=
  JObject [field "cmd" (JString "move"); field "move" (Move_to_json m)].

(** [c] extends the trace, and what it writes is as [Ok] says when it gives
    a value and as [Fail] says when it throws. *)
Definition writes_as {A : Type} (c : Run A) (Ok Fail : list json -> Prop)
  : Prop :=
  forall n : Net,
    exists l : list IO,
      io (c n).2 = io n ++ l
      /\ match (c n).1 with
         | inr _ => Ok (writes l)
         | inl _ => Fail (writes l)
         end.

(** [c] writes nothing. *)
Definition quiet {A : Type} (c : Run A) : Prop :=
  writes_as c (fun w => w = []) (fun w => w = []).

(** What a run may have written: a beginning of "dc_ok", "ready_ok" and
    then moves. *)
Definition in_protocol_order (w : list json) : Prop :=
  exists moves : list Move,
    w `prefix_of` dc_ok_message :: ready_ok_message :: map move_message moves.

(** The line carries an "update" message with this game state. *)
Definition carries_update (line : RawLine) (game_state : GameState) : Prop :=
  exists jin jstate : json,
    line = Parses jin
    /\ at_key jin "cmd" = ok (JString "update")
    /\ at_key jin "state" = ok jstate
    /\ GameState_of_json jstate = Some game_state.

(** The moves that the planner gives on the turns of [team] among [turns],
    each call starting from the global variables the call before has left,
    and the global variables after the last. *)
Fixpoint replies (team : Team) (g : Globals) (turns : list GameState)
  : list Move * Globals :=
  match turns with
  | [] => ([], g)
  | game_state :: rest =>
      if decide (GetNextTeam game_state = team) then
        let (move, g') := OnMyTurn game_state g in
        let (moves, g'') := replies team g' rest in
        (move :: moves, g'')
      else replies team g rest
  end.

(** What is printed for the updates [turns], the moves in [moves]. *)
Fixpoint update_trace (team : Team) (turns : list GameState)
  (moves : list Move) : list IO :=
  match turns with
  | [] => []
  | game_state :: rest =>
      ReadLine :: Cout (InUpdate (end_ game_state) (shot game_state)) ::
      if decide (GetNextTeam game_state = team) then
        match moves with
        | move :: moves' =>
            WriteLine (move_message move) :: Cout (OutMove move) ::
            update_trace team rest moves'
        | [] => []
        end
      else update_trace team rest moves
  end.

(** [session_raises host port n e n']: a block of the session throws [e],
    the blocks before it having gone through; [n'] is the transport and
    the console at the throw. *)
Inductive session_raises (host port : string) (n : Net) (e : Failure)
  (n' : Net) : Prop :=
| raises_connect :
    connect host port n = (inl e, n') ->
    session_raises host port n e n'
| raises_in_dc (n1 : Net) :
    connect host port n = (inr tt, n1) ->
    in_dc n1 = (inl e, n') ->
    session_raises host port n e n'
| raises_out_dc_ok (n1 n2 : Net) :
    connect host port n = (inr tt, n1) ->
    in_dc n1 = (inr tt, n2) ->
    out_dc_ok n2 = (inl e, n') ->
    session_raises host port n e n'
| raises_in_is_ready (n1 n2 n3 : Net) :
    connect host port n = (inr tt, n1) ->
    in_dc n1 = (inr tt, n2) ->
    out_dc_ok n2 = (inr tt, n3) ->
    in_is_ready n3 = (inl e, n') ->
    session_raises host port n e n'
| raises_in_new_game (n1 n2 n3 n4 : Net) (tg : Team * Globals) :
    connect host port n = (inr tt, n1) ->
    in_dc n1 = (inr tt, n2) ->
    out_dc_ok n2 = (inr tt, n3) ->
    in_is_ready n3 = (inr tg, n4) ->
    in_new_game n4 = (inl e, n') ->
    session_raises host port n e n'
| raises_update_loop (n1 n2 n3 n4 n5 : Net) (tg : Team * Globals) :
    connect host port n = (inr tt, n1) ->
    in_dc n1 = (inr tt, n2) ->
    out_dc_ok n2 = (inr tt, n3) ->
    in_is_ready n3 = (inr tg, n4) ->
    in_new_game n4 = (inr tt, n5) ->
    update_loop (S (length (inbound n5))) tg.1 tg.2 n5 = (inl e, n') ->
    session_raises host port n e n'
| raises_in_game_over (n1 n2 n3 n4 n5 n6 : Net) (tg : Team * Globals)
    (sg : GameState * Globals) :
    connect host port n = (inr tt, n1) ->
    in_dc n1 = (inr tt, n2) ->
    out_dc_ok n2 = (inr tt, n3) ->
    in_is_ready n3 = (inr tg, n4) ->
    in_new_game n4 = (inr tt, n5) ->
    update_loop (S (length (inbound n5))) tg.1 tg.2 n5 = (inr sg, n6) ->
    in_game_over n6 = (inl e, n') ->
    session_raises host port n e n'
| raises_OnGameOver (n1 n2 n3 n4 n5 n6 n7 : Net) (tg : Team * Globals)
    (sg : GameState * Globals) :
    connect host port n = (inr tt, n1) ->
    in_dc n1 = (inr tt, n2) ->
    out_dc_ok n2 = (inr tt, n3) ->
    in_is_ready n3 = (inr tg, n4) ->
    in_new_game n4 = (inr tt, n5) ->
    update_loop (S (length (inbound n5))) tg.1 tg.2 n5 = (inr sg, n6) ->
    in_game_over n6 = (inr tt, n7) ->
    OnGameOver sg.1 sg.2 n7 = (inl e, n') ->
    session_raises host port n e n'.

(** [c] starts with the receipt of a message of the command [expected]:
    where [receive] throws, [c] throws the same exception at the same
    point. *)
Definition starts_with_receive {A : Type} (c : Run A) (expected : string)
  : Prop :=
  forall (n : Net) (e : Failure) (n' : Net),
    receive expected n = (inl e, n') -> c n = (inl e, n').

(** [c] never gives [OutOfFuel], the one exception that the program does
    not have. *)
Definition fuel_free {A : Type} (c : Run A) : Prop :=
  forall n : Net, (c n).1 <> inl OutOfFuel.

(** The transport and the console of [n] after a line was read: the lines
    [rest] are left. *)
Definition line_read (n : Net) (rest : list RawLine) : Net :=
  {| reachable := reachable n; inbound := rest;
     writes_left := writes_left n; io := io n ++ [ReadLine] |}.

End Vocabulary_of_the_runs.

(** ** A small instance

    A deterministic instance of the outside world, on which the functions
    above run on concrete inputs.  Its simulator counts the moves it has
    played, its players count the shots they were asked for, and every shot
    leaves the sheet without touching a stone. *)
Module Rink.

(** Only the domain error of [std::log] is modelled: on the other
    arguments the functions of this math library return a fixed value. *)
#[export] Instance math : Libm := {|
  logf a :=
    if (a <? F32.zero)%f32 || F32.is_nan a then F32.nan else F32.zero;
  atan2f _ _ := F32.zero;
  cosf _ := F32.dec false 1 0;
  sinf _ := F32.zero;
|}.

Definition next_team (game_state : GameState) : Team :=
  match game_result game_state with
  | Some _ => kInvalid
  | None =>
      match hammer game_state with
      | k1 => if (shot game_state mod 2 =? 0)%nat then k0 else k1
      | _ => if (shot game_state mod 2 =? 0)%nat then k1 else k0
      end
  end.

#[export] Instance library : DigitalCurling3 := {|
  Length v :=
    F32.sqrt (Vector2.x v * Vector2.x v + Vector2.y v * Vector2.y v)%f32;
  CenterLineX := F32.zero;
  TeeLineY := F32.dec false 38405 3;
  GameSetting := unit;
  SimState := nat;
  Player := nat;
  SimulatorFactory := string;
  PlayerFactory := unit;
  GetSimulatorId f := f;
  CreateSimulator _ := 0%nat;
  SimulatorFCV1Factory := "fcv1"%string;
  CreatePlayer _ := 0%nat;
  PlayerNormalDistFactory := tt;
  CreateStorage s := s;
SetStones s _ := s;
  GetStones _ _ := None;
  AreAllStonesStopped _ := true;
  Step s := s;
  steps_to_rest _ := 0%nat;
  ApplyMove _ sim player game_state _ :=
    (S sim, S player,
     {| end_ := end_ game_state;
        shot := S (shot game_state);
        hammer := hammer game_state;
        stones := stones game_state;
        game_result := game_result game_state |});
  GetNextTeam := next_team;
|}.

(** On the wire a game state is its shot number, a team is its index. *)
#[export] Instance codec : Wire := {|
  Team_of_json j :=
    match j with
    | JString "team0" => Some k0
    | JString "team1" => Some k1
    | _ => None
    end;
  GameSetting_of_json _ := Some tt;
  SimulatorFactory_of_json j :=
    match j with JString id => Some id | _ => None end;
  PlayerFactory_of_json j :=
    match j with JNull => None | _ => Some tt end;
  GameState_of_json j :=
    match j with
    | JNumber n =>
        Some {| end_ := 0; shot := Z.to_nat n; hammer := k1;
                stones := fun _ _ => None; game_result := None |}
    | JString _ =>
        Some {| end_ := 0; shot := 0; hammer := k1;
                stones := fun _ _ => None;
                game_result := Some {| winner := k0 |} |}
    | _ => None
    end;
  Move_to_json m :=
    match m with
    | Shot _ => JString "shot"
    | Concede => JString "concede"
    end;
  ToString t :=
    match t with
    | k0 => "team0"%string
    | k1 => "team1"%string
    | kInvalid => "invalid"%string
    end;
|}.

Definition at_tee : Transform :=
  {| position := {| Vector2.x := F32.zero; Vector2.y := F32.dec false 38405 3 |};
     angle := F32.zero |}.

Definition guard : Transform :=
  {| position := {| Vector2.x := F32.zero; Vector2.y := F32.dec false 35 0 |};
     angle := F32.zero |}.

(** No stone is on the sheet. *)
Definition empty_sheet : Stones := fun _ _ => None.

(** Team 1 has stone 0 on the tee and stone 2 in front of the house; team
    0 has stone 1 on the tee line too and nothing else. *)
Definition three_stones : Stones :=
  fun t i =>
    match t, i with
    | 1%nat, 0%nat => Some at_tee
    | 1%nat, 2%nat => Some guard
    | 0%nat, 1%nat => Some at_tee
    | _, _ => None
    end.

Definition state_of (s : Stones) : GameState :=
  {| end_ := 0; shot := 0; hammer := k1; stones := s; game_result := None |}.

(** The global variables as [OnInit] leaves them for team 0. *)
Definition globals : Globals :=
  fst (OnInit k0 tt (Some SimulatorFCV1Factory) [None; None; None; None]
              [0; 1; 2; 3]%nat).

Definition net (lines : list RawLine) : Net :=
  {| reachable := true; inbound := lines;
     writes_left := length lines; io := [] |}.

(** The messages of a short match. *)
Definition msg_dc (major : Z) : json :=
  JObject [field "cmd" (JString "dc");
           field "version" (JObject [field "major" (JNumber major)]);
           field "game_id" (JString "game");
           field "date_time" (JString "today")].

Definition msg_is_ready (rule : string) : json :=
  JObject [field "cmd" (JString "is_ready");
           field "team" (JString "team0");
           field "game"
             (JObject [field "rule" (JString rule);
                       field "setting" JNull;
                       field "simulator" (JString "fcv1");
                       field "players"
                         (JObject [field "team0"
                                     (JArray [JNull; JNull; JNull; JNull]);
                                   field "team1"
                                     (JArray [JNull; JNull; JNull; JNull])])])].

Definition msg_new_game : json :=
  JObject [field "cmd" (JString "new_game");
           field "name" (JObject [field "team0" (JString "a");
                                  field "team1" (JString "b")])].

Definition msg_update (state : json) : json :=
  JObject [field "cmd" (JString "update"); field "state" state].

Definition msg_game_over : json := JObject [field "cmd" (JString "game_over")].

Definition short_match : list RawLine :=
  [Parses (msg_dc 1); Parses (msg_is_ready "normal"); Parses msg_new_game;
   Parses (msg_update (JNumber 0)); Parses (msg_update (JNumber 1));
   Parses (msg_update (JString "over")); Parses msg_game_over].

Definition argv3 : list string := ["client"; "localhost"; "10000"]%string.

(** Stone 0 of team 0 is behind the tee, stone 2 is on it, and stone 1
    between them in the array has a position that is not a number. *)
Definition sheet_with_nan : Stones :=
  fun t i =>
    match t, i with
    | 0%nat, 0%nat => Some guard
    | 0%nat, 1%nat =>
        Some {| position := {| Vector2.x := F32.nan; Vector2.y := F32.nan |};
                angle := F32.zero |}
    | 0%nat, 2%nat => Some at_tee
    | _, _ => None
    end.

(** The target of the runs below: stone 0 of team 1, on the tee. *)
Definition target : StoneIndex := {| team := 1; stone := 0 |}.


(** The library of another rink: as [library], but every move takes stone 1
    of team 1 off the sheet and leaves the other stones where they are. *)
Definition sweeping : DigitalCurling3 := {|
  Length v :=
    F32.sqrt (Vector2.x v * Vector2.x v + Vector2.y v * Vector2.y v)%f32;
  CenterLineX := F32.zero;
  TeeLineY := F32.dec false 38405 3;
  GameSetting := unit;
  SimState := nat;
  Player := nat;
  SimulatorFactory := string;
  PlayerFactory := unit;
  GetSimulatorId f := f;
  CreateSimulator _ := 0%nat;
  SimulatorFCV1Factory := "fcv1"%string;
  CreatePlayer _ := 0%nat;
  PlayerNormalDistFactory := tt;
  CreateStorage s := s;
  SetStones s _ := s;
  GetStones _ _ := None;
  AreAllStonesStopped _ := true;
  Step s := s;
  steps_to_rest _ := 0%nat;
  ApplyMove _ sim player game_state _ :=
    (S sim, S player,
     {| end_ := end_ game_state;
        shot := S (shot game_state);
        hammer := hammer game_state;
        stones :=
          fun t i =>
            if ((t =? 1) && (i =? 1))%nat then None
            else stones game_state t i;
        game_result := game_result game_state |});
  GetNextTeam := next_team;
|}.

(** Team 0 holds the hammer and team 1 has thrown first: shot 1 is the turn
    of team 0.  Stone 0 of team 1 is in front of the house, its stone 1 is
    on the tee, and no stone of team 0 is on the sheet. *)
Definition second_shot : GameState :=
  {| end_ := 0; shot := 1; hammer := k0;
     stones :=
       fun t i =>
         match t, i with
         | 1%nat, 0%nat => Some guard
         | 1%nat, 1%nat => Some at_tee
         | _, _ => None
         end;
     game_result := None |}.

(** The global variables of team 0 on that rink. *)
Definition sweeping_globals : @Globals sweeping :=
  fst (OnInit (dc := sweeping) k0 tt None [None; None; None; None]
              [0; 1; 2; 3]%nat).

End Rink.

(** ** A small feed

    Texts, readers and lines on which the line reader and the protocol
    run. *)

Module Feed.

Import LineReader Rink.

Definition first_line : text := list_ascii_of_string "ab".

Definition second_line : text := list_ascii_of_string "cd".

(** Two lines arrive in one piece. *)
Definition two_lines : Reader :=
  {| input_buffer := []; arriving := [frame first_line ++ frame second_line] |}.

(** The first piece ends inside the second line. *)
Definition split_line : Reader :=
  {| input_buffer := [];
     arriving := [frame first_line ++ second_line; [newline]] |}.

(** The connection ends inside a line. *)
Definition cut_off : Reader :=
  {| input_buffer := []; arriving := [first_line] |}.

(** The radii of the house and of a stone, 1.829 and 0.145. *)
Definition house_radius : float32 := F32.dec false 1829 3.

Definition stone_radius : float32 := F32.dec false 145 3.

(** The game states that the codec of the small instance reads. *)
Definition state_at (shot_number : Z) : GameState :=
  {| end_ := 0; shot := Z.to_nat shot_number; hammer := k1;
     stones := fun _ _ => None; game_result := None |}.

Definition over : GameState :=
  {| end_ := 0; shot := 0; hammer := k1;
     stones := fun _ _ => None; game_result := Some {| winner := k0 |} |}.

(** Two turns and the end of the match. *)
Definition three_updates : list RawLine :=
  [Parses (msg_update (JNumber 0)); Parses (msg_update (JNumber 1));
   Parses (msg_update (JString "over"))].

Definition match_feed : Net := net (three_updates ++ [Parses msg_game_over]).

(** The "game" object of [msg_is_ready]. *)
Definition game_of (rule : string) : json :=
  JObject [field "rule" (JString rule);
           field "setting" JNull;
           field "simulator" (JString "fcv1");
           field "players"
             (JObject [field "team0" (JArray [JNull; JNull; JNull; JNull]);
                       field "team1" (JArray [JNull; JNull; JNull; JNull])])].

Definition players_of_game : json :=
  JObject [field "team0" (JArray [JNull; JNull; JNull; JNull]);
           field "team1" (JArray [JNull; JNull; JNull; JNull])].

Definition ready_feed (rule : string) : Net :=
  net [Parses (msg_is_ready rule); Parses msg_new_game].

End Feed.

(** * Properties *)

(** ** binary32 comparison *)

Lemma gtb_asym (a b : float32) : F32.gtb a b = true -> F32.gtb b a = false.
Proof.
  unfold F32.gtb, SFltb, SFcompare.
  destruct a as [sa|sa| |sa ma ea], b as [sb|sb| |sb mb eb];
    try destruct sa; try destruct sb; simpl; intros H;
    try discriminate H; try reflexivity;
    assert (E : Pos.compare_cont Eq ma mb
                = CompOpp (Pos.compare_cont Eq mb ma))
      by (rewrite Pos.compare_cont_antisym; reflexivity);
    rewrite (Z.compare_antisym eb ea), E;
    destruct (eb ?= ea); simpl in *; try discriminate H; try reflexivity;
    destruct (Pos.compare_cont Eq mb ma); simpl in *; try discriminate H;
    reflexivity.
Qed.

(** The literals of the source as binary32 values: sign, mantissa of 24
    bits and exponent. *)
Example dec_half : F32.dec false 5 1 = S754_finite false 8388608 (-24).
Proof. vm_compute. reflexivity. Qed.

Example dec_three_and_a_half :
  F32.dec false 35 1 = S754_finite false 14680064 (-22).
Proof. vm_compute. reflexivity. Qed.

Example dec_Band1_kC1_1 :
  Band1.kC1 !! 1%nat = Some (S754_finite true 15675665 (-19)).
Proof. vm_compute. reflexivity. Qed.

Ltac split_compare :=
  repeat match goal with
  | H : context [Z.compare ?x ?y] |- _ => destruct (Z.compare_spec x y)
  | |- context [Z.compare ?x ?y] => destruct (Z.compare_spec x y)
  | H : context [Pos.compare_cont Eq ?x ?y] |- _ =>
      change (Pos.compare_cont Eq x y) with (Pos.compare x y) in *;
      destruct (Pos.compare_spec x y)
  | |- context [Pos.compare_cont Eq ?x ?y] =>
      change (Pos.compare_cont Eq x y) with (Pos.compare x y) in *;
      destruct (Pos.compare_spec x y)
  end.

(** Away from NaN, "not greater" is transitive. *)
Lemma gtb_negtrans (a b c : float32) :
  a <> F32.nan -> b <> F32.nan -> c <> F32.nan ->
  F32.gtb a b = false -> F32.gtb b c = false -> F32.gtb a c = false.
Proof.
  unfold F32.gtb, F32.nan, SFltb, SFcompare.
  destruct a as [sa|sa| |sa ma ea]; try congruence;
  destruct b as [sb|sb| |sb mb eb]; try congruence;
  destruct c as [sc|sc| |sc mc ec]; try congruence;
  intros _ _ _; destruct sa, sb, sc; simpl; intros H1 H2;
    try discriminate; try reflexivity;
    split_compare; simpl in *; try discriminate; try reflexivity; try lia.
Qed.

(** ** [SortStones] *)

Section SortStones_properties.

Context `{dc : DigitalCurling3}.

Lemma fill_spec (result : list StoneIndex) :
  length result = 16%nat -> fill result = init_indices.
Proof.
  intros H.
  do 17 (destruct result as [|? result]; try discriminate H).
  reflexivity.
Qed.

Lemma compare_swap_middle s (pre post : list StoneIndex) a b :
  compare_swap s (S (length pre)) (pre ++ a :: b :: post) =
  if out_of_order (stone_at s a) (stone_at s b)
  then pre ++ b :: a :: post else pre ++ a :: b :: post.
Proof.
  unfold compare_swap.
  replace (S (length pre) - 1)%nat with (length pre) by lia.
  rewrite list_lookup_middle by reflexivity.
  replace (pre ++ a :: b :: post) with ((pre ++ [a]) ++ b :: post)
    by (rewrite <- app_assoc; reflexivity).
  rewrite list_lookup_middle by (rewrite length_app; simpl; lia).
  destruct (out_of_order _ _); [|reflexivity].
  rewrite <- app_assoc. simpl.
  replace (S (length pre)) with (length pre + 1)%nat by lia.
  rewrite insert_app_r. simpl.
  replace (length pre) with (length pre + 0)%nat at 1 by lia.
  rewrite insert_app_r. reflexivity.
Qed.

Lemma sink_bubble s (pre : list StoneIndex) :
  forall x post,
    sink s (length pre) (pre ++ x :: post) = rev (bubble s (rev pre) x) ++ post.
Proof.
  induction pre as [|a pre IH] using rev_ind; intros x post.
  - reflexivity.
  - rewrite length_app, Nat.add_comm. simpl sink.
    rewrite <- app_assoc. simpl app at 2.
    rewrite compare_swap_middle, rev_app_distr. simpl rev at 1. simpl bubble.
    destruct (out_of_order _ _); rewrite IH; simpl; rewrite <- app_assoc;
      reflexivity.
Qed.

Lemma bubble_length s before x :
  length (bubble s before x) = S (length before).
Proof.
  revert x. induction before as [|a r IH]; intros x; simpl; [reflexivity|].
  destruct (out_of_order _ _); simpl; rewrite IH; reflexivity.
Qed.

Lemma bubble_perm s before x : bubble s before x ≡ₚ x :: before.
Proof.
  revert x. induction before as [|a r IH]; intros x; simpl; [reflexivity|].
  destruct (out_of_order _ _).
  - rewrite IH. apply perm_swap.
  - rewrite IH. reflexivity.
Qed.

Lemma passes_sorts s (todo : list StoneIndex) :
  forall done,
    foldl (fun r i => sink s i r) (rev done ++ todo)
          (seq (length done) (length todo))
    = rev (passes s done todo).
Proof.
  induction todo as [|x t IH]; intros done; simpl.
  - rewrite app_nil_r. reflexivity.
  - assert (E : sink s (length done) (rev done ++ x :: t)
               = rev (bubble s done x) ++ t).
    { rewrite <- (length_rev done), sink_bubble, rev_involutive.
      reflexivity. }
    rewrite E, <- (bubble_length s done x). apply IH.
Qed.

Lemma SortStones_passes (result : list StoneIndex) s :
  length result = 16%nat ->
  SortStones result s = rev (passes s [] init_indices).
Proof.
  intros H. unfold SortStones. rewrite (fill_spec _ H).
  exact (passes_sorts s (tail init_indices) [{| team := 0; stone := 0 |}]).
Qed.

Lemma defined_comparable (s : Stones) :
  distances_defined s -> distances_comparable s.
Proof.
  intros Hd i j k a b c Ha Hb Hc. unfold farther.
  apply gtb_negtrans; eauto.
Qed.

Lemma passes_perm s (todo : list StoneIndex) :
  forall done, passes s done todo ≡ₚ todo ++ done.
Proof.
  induction todo as [|x t IH]; intros done; simpl; [reflexivity|].
  rewrite IH, bubble_perm. symmetry. apply Permutation_middle.
Qed.

Lemma StronglySorted_flip_rev {A} (R : relation A) (l : list A) :
  StronglySorted (flip R) l -> StronglySorted R (rev l).
Proof.
  induction 1 as [|a l Hl IH Ha]; simpl; [constructor|].
  apply StronglySorted_app; split_and!.
  - intros x1 x2 Hx1 Hx2. apply list_elem_of_singleton in Hx2 as ->.
    rewrite Forall_forall in Ha. apply Ha.
    apply list_elem_of_In, in_rev, list_elem_of_In, Hx1.
  - exact IH.
  - repeat constructor.
Qed.

Lemma precedes_present s e a :
  precedes s e a -> is_Some (stone_at s a) -> is_Some (stone_at s e).
Proof.
  unfold precedes. intros H [ta Ha]. rewrite Ha in H.
  destruct (stone_at s e); [eauto|contradiction].
Qed.

(** Once the travelling element meets a stone on the sheet that it does not
    pass, the rest of the pass swaps nothing. *)
Lemma bubble_noop s (r : list StoneIndex) :
  forall a,
    StronglySorted (flip (precedes s)) (a :: r) ->
    is_Some (stone_at s a) ->
    bubble s r a = a :: r.
Proof.
  induction r as [|b r IH]; intros a Hs Ha; [reflexivity|].
  apply StronglySorted_cons in Hs as [Hab Hs].
  assert (Hba : precedes s b a) by (inversion Hab; assumption).
  pose proof (precedes_present _ _ _ Hba Ha) as Hb.
  simpl. destruct Ha as [ta Ha], Hb as [tb Hb'].
  unfold precedes in Hba. rewrite Ha, Hb' in Hba |- *. simpl.
  destruct Hba as [Hba _]. unfold farther in Hba. rewrite Hba.
  f_equal. apply IH; [exact Hs|eauto].
Qed.

Lemma bubble_sorted s (Hcmp : distances_comparable s)
  (done : list StoneIndex) :
  forall x,
    StronglySorted (flip (precedes s)) done ->
    Forall (fun e => (slot e < slot x)%nat) done ->
    StronglySorted (flip (precedes s)) (bubble s done x).
Proof.
  induction done as [|a r IH]; intros x Hs Hlt; simpl.
  - repeat constructor.
  - pose proof Hs as Hs0.
    apply StronglySorted_cons in Hs as [Har Hs].
    apply Forall_cons in Hlt as [Hax Hrx].
    destruct (out_of_order (stone_at s a) (stone_at s x)) eqn:E.
    + (* [x] goes in front of [a] *)
      apply StronglySorted_cons. split; [|apply IH; assumption].
      rewrite bubble_perm. apply Forall_cons. split; [|exact Har].
      unfold flip, precedes. unfold out_of_order in E.
      destruct (stone_at s a) as [ta|], (stone_at s x) as [tx|];
        try discriminate E; try exact I; try exact Hax.
      split; [|left; exact E]. apply gtb_asym. exact E.
    + (* [x] stays behind [a], a stone on the sheet *)
      assert (Ha : is_Some (stone_at s a)).
      { unfold out_of_order in E. destruct (stone_at s a); [eauto|discriminate]. }
      rewrite (bubble_noop s r a Hs0 Ha).
      apply StronglySorted_cons. split; [|exact Hs0].
      assert (Hax' : precedes s a x).
      { unfold precedes. unfold out_of_order in E.
        destruct (stone_at s a) as [ta|]; [|discriminate E].
        destruct (stone_at s x) as [tx|]; [|exact I].
        split; [exact E|right; exact Hax]. }
      apply Forall_cons. split; [exact Hax'|].
      rewrite Forall_forall in Har, Hrx |- *. intros e He.
      specialize (Har e He). specialize (Hrx e He). unfold flip in *.
      pose proof (precedes_present _ _ _ Har Ha) as [te Hte].
      destruct Ha as [ta Hta].
      unfold precedes in Har, Hax' |- *. rewrite Hte, Hta in *.
      destruct (stone_at s x) as [tx|] eqn:Hx; [|exact I].
      split; [|right; exact Hrx].
      destruct Har as [Hea _], Hax' as [Hax' _].
      exact (Hcmp e a x te ta tx Hte Hta Hx Hea Hax').
Qed.

Lemma passes_sorted s (Hcmp : distances_comparable s)
  (todo : list StoneIndex) :
  forall done,
    StronglySorted (flip (precedes s)) done ->
    Forall (fun e => Forall (fun x => (slot e < slot x)%nat) todo) done ->
    StronglySorted lt (map slot todo) ->
    StronglySorted (flip (precedes s)) (passes s done todo).
Proof.
  induction todo as [|x t IH]; intros done Hs Hlt Hinc; simpl; [exact Hs|].
  simpl in Hinc. apply StronglySorted_cons in Hinc as [Hxt Hinc].
  apply IH; [| |exact Hinc].
  - apply bubble_sorted; [exact Hcmp|exact Hs|].
    eapply Forall_impl; [exact Hlt|]. simpl. intros e He.
    apply Forall_cons in He as [He _]. exact He.
  - rewrite bubble_perm. apply Forall_cons. split.
    + rewrite Forall_map in Hxt. exact Hxt.
    + eapply Forall_impl; [exact Hlt|]. simpl. intros e He.
      apply Forall_cons in He as [_ He]. exact He.
Qed.

(** The stones on the sheet stay in front of the others, whatever the
    distances are. *)
Lemma bubble_on_sheet (s : Stones) (before : list StoneIndex) (x : StoneIndex) :
  Forall (fun i => is_Some (stone_at s i)) before ->
  is_Some (stone_at s x) ->
  Forall (fun i => is_Some (stone_at s i)) (bubble s before x).
Proof.
  intros Hb Hx. rewrite bubble_perm. apply Forall_cons. split; assumption.
Qed.

Lemma bubble_split (s : Stones) (x : StoneIndex)
  (gone here : list StoneIndex) :
  Forall (fun i => stone_at s i = None) gone ->
  Forall (fun i => is_Some (stone_at s i)) here ->
  exists gone' here',
    bubble s (gone ++ here) x = gone' ++ here'
    /\ Forall (fun i => stone_at s i = None) gone'
    /\ Forall (fun i => is_Some (stone_at s i)) here'.
Proof.
  intros Hg Hh. induction Hg as [|a gone Ha Hg IH]; simpl.
  - destruct (stone_at s x) as [tx|] eqn:Ex.
    + exists [], (bubble s here x). split_and!; [reflexivity|constructor|].
      apply bubble_on_sheet; [exact Hh|]. rewrite Ex. eauto.
    + destruct Hh as [|a here Ha Hh]; simpl.
      * exists [x], []. split_and!; [reflexivity|auto|constructor].
      * destruct Ha as [ta Ha]. rewrite Ha, Ex. simpl.
        exists [x], (bubble s here a).
        split_and!; [reflexivity|auto|].
        apply bubble_on_sheet; [exact Hh|]. rewrite Ha. eauto.
  - rewrite Ha. simpl. destruct IH as (gone' & here' & E & H1 & H2).
    exists (a :: gone'), here'. rewrite E. split_and!; auto.
Qed.

Lemma passes_split (s : Stones) (todo : list StoneIndex) :
  forall gone here,
    Forall (fun i => stone_at s i = None) gone ->
    Forall (fun i => is_Some (stone_at s i)) here ->
    exists gone' here',
      passes s (gone ++ here) todo = gone' ++ here'
      /\ Forall (fun i => stone_at s i = None) gone'
      /\ Forall (fun i => is_Some (stone_at s i)) here'.
Proof.
  induction todo as [|x todo IH]; intros gone here Hg Hh; simpl.
  - exists gone, here. auto.
  - destruct (bubble_split s x gone here Hg Hh) as (g' & h' & -> & H1 & H2).
    apply IH; assumption.
Qed.

End SortStones_properties.

Section SortStones_theorems.

Context `{dc : DigitalCurling3}.

Lemma init_indices_increasing : StronglySorted lt (map slot init_indices).
Proof. repeat (constructor; [|repeat (constructor; [cbv; lia|])]); constructor. Qed.

Lemma SortStones_perm (result : list StoneIndex) (s : Stones) :
  length result = 16%nat -> SortStones result s ≡ₚ init_indices.
Proof.
  intros H. rewrite (SortStones_passes _ _ H), <- Permutation_rev, passes_perm.
  rewrite app_nil_r. reflexivity.
Qed.

Lemma SortStones_sorted (result : list StoneIndex) (s : Stones) :
  length result = 16%nat ->
  distances_defined s ->
  StronglySorted (precedes s) (SortStones result s).
Proof.
  intros Hlen Hcmp. apply defined_comparable in Hcmp.
  rewrite (SortStones_passes _ _ Hlen).
  apply StronglySorted_flip_rev, passes_sorted.
  - exact Hcmp.
  - constructor.
  - constructor.
  - exact init_indices_increasing.
Qed.

(** C3, as the code has it.  For every 16-stone configuration in which no
    distance to the tee is a NaN, [SortStones] leaves in [result] the sixteen
    (team, stone-number) pairs, each once, in this order: the stones on the
    sheet by ascending distance to the tee, stones at equal distance in
    their original order; then every absent stone, after every present one,
    the absent stones in the reverse of their original order. *)
Theorem SortStones_order (result : list StoneIndex) (s : Stones) :
  length result = 16%nat ->
  distances_defined s ->
  SortStones result s ≡ₚ init_indices
  /\ StronglySorted (precedes s) (SortStones result s).
Proof.
  intros Hlen Hdef. split.
  - apply SortStones_perm, Hlen.
  - apply SortStones_sorted; assumption.
Qed.

End SortStones_theorems.

(** ** [OnMyTurn]: the calls on the simulator *)

Section Simulator_calls.

Context `{libm : Libm} `{dc : DigitalCurling3}.

Lemma trials_refl (g : Globals) : trials 0 g g.
Proof.
  unfold trials. simpl. rewrite app_nil_r. repeat split; try reflexivity.
  intros H. contradiction.
Qed.

Lemma trials_trans (n m : nat) (g g' g'' : Globals) :
  trials n g g' -> trials m g' g'' -> trials (n + m) g g''.
Proof.
  intros (Ht & Hs & Hst & Hc & H0 & H1) (Ht' & Hs' & Hst' & Hc' & H0' & H1').
  unfold trials. repeat split.
  - congruence.
  - congruence.
  - congruence.
  - rewrite Hc', Hc, Hst, replicate_add, concat_app, app_assoc. reflexivity.
  - intros E. assert (n = 0%nat) by lia. assert (m = 0%nat) by lia.
    rewrite H0', H0 by assumption. reflexivity.
  - intros E. destruct (decide (m = 0%nat)) as [Hm|Hm].
    + rewrite (H0' Hm). apply H1. lia.
    + destruct (H1' Hm) as (p & gs & mv & Eq). exists p, gs, mv.
      rewrite Eq, Hs, Hst. reflexivity.
Qed.

Lemma Estimate_trials target speed rot (g : Globals) :
  trials 0 g (EstimateShotVelocityFCV1 target speed rot g).2.
Proof.
  unfold EstimateShotVelocityFCV1. destruct (trial_delta _ _ _ _) as [d sim].
  unfold trials. simpl. rewrite app_nil_r. repeat split; try reflexivity.
  intros H. contradiction.
Qed.

Lemma rollout_trials game_state move (g : Globals) :
  trials 1 g (apply_move game_state move (Load g).2).2.
Proof.
  unfold apply_move, Load, set_simulator. simpl.
  destruct (ApplyMove _ _ _ _ _) as [[sim player] temp] eqn:E.
  unfold trials. simpl. rewrite <- app_assoc. repeat split; try reflexivity.
  - intros H. discriminate H.
  - intros _. eexists _, _, _. rewrite E. reflexivity.
Qed.

Lemma try_speed_trials game_state idx stone speed (g : Globals) :
  trials 1 g (try_speed game_state idx stone speed g).2.
Proof.
  unfold try_speed, bind, ret.
  pose proof (Estimate_trials (position stone) speed kCCW g) as H0.
  destruct (EstimateShotVelocityFCV1 _ _ _ g) as [v g1]. simpl in H0.
  pose proof (rollout_trials game_state
                (Shot {| velocity := v; rotation := kCCW |}) g1) as H1.
  destruct (Load g1) as [[] g2]. simpl in H1.
  destruct (apply_move _ _ g2) as [temp g3]. simpl in *.
  exact (trials_trans 0 1 _ _ _ H0 H1).
Qed.

Lemma speed_search_trials fuel game_state idx stone :
  forall speed (g : Globals),
    exists n, trials n g (speed_search fuel game_state idx stone speed g).2.
Proof.
  induction fuel as [|fuel IH]; intros speed g; simpl.
  - exists 0%nat. apply trials_refl.
  - destruct (speed <? F32.dec false 35 1)%f32;
      [|exists 0%nat; apply trials_refl].
    unfold bind.
    pose proof (try_speed_trials game_state idx stone speed g) as H1.
    destruct (try_speed _ _ _ _ g) as [done g1]. simpl in H1.
    destruct done.
    + exists 1%nat. exact H1.
    + destruct (IH (speed + F32.dec false 5 1)%f32 g1) as [n Hn].
      exists (1 + n)%nat. exact (trials_trans _ _ _ _ _ H1 Hn).
Qed.

Lemma score_trial_trials game_state idx candidate_shots points j (g : Globals) :
  trials 1 g (score_trial game_state idx candidate_shots points j g).2.
Proof.
  unfold score_trial, bind, ret.
  pose proof (rollout_trials game_state (Shot (candidate_shots !!! j)) g) as H.
  destruct (Load g) as [[] g1]. simpl in H.
  destruct (apply_move _ _ g1) as [temp g2]. exact H.
Qed.

(** A counted loop whose body makes [k] rollouts makes [k] times the number
    of its turns. *)
Lemma for_each_trials {A I : Type} (body : A -> I -> State Globals A) (k : nat) :
  (forall a i g, trials k g (body a i g).2) ->
  forall (l : list I) a g, trials (length l * k) g (for_each body a l g).2.
Proof.
  intros Hbody l. induction l as [|i l IH]; intros a g; simpl.
  - apply trials_refl.
  - unfold bind. pose proof (Hbody a i g) as H1.
    destruct (body a i g) as [a' g1]. simpl in H1.
    exact (trials_trans _ _ _ _ _ H1 (IH a' g1)).
Qed.

Lemma score_candidates_trials game_state idx candidate_shots (g : Globals) :
  trials (3 * (length candidate_shots * 1)) g
         (score_candidates game_state idx candidate_shots g).2.
Proof.
  unfold score_candidates.
  change (3 * (length candidate_shots * 1))%nat
    with (length (seq 0 3) * (length candidate_shots * 1))%nat.
  apply for_each_trials. intros points i g0.
  pose proof (for_each_trials
                (score_trial game_state idx candidate_shots) 1
                (fun a j g1 => score_trial_trials _ _ _ a j g1)
                (seq 0 (length candidate_shots)) points g0) as H.
  rewrite length_seq in H. exact H.
Qed.

Lemma strike_trials game_state idx stone speed (g1 : Globals) :
  trials 6 g1 (strike game_state idx stone speed g1).2.
Proof.
  unfold strike, bind.
  pose proof (Estimate_trials (position stone) speed kCCW g1) as H2.
  destruct (EstimateShotVelocityFCV1 _ _ kCCW g1) as [ccw g2]. simpl in H2.
  pose proof (Estimate_trials (position stone) speed kCW g2) as H3.
  destruct (EstimateShotVelocityFCV1 _ _ kCW g2) as [cw g3]. simpl in H3.
  pose proof (score_candidates_trials game_state idx
                [ {| velocity := ccw; rotation := kCCW |};
                  {| velocity := cw; rotation := kCW |} ] g3) as H4.
  destruct (score_candidates _ _ _ g3) as [points g4]. simpl in H4.
  assert (H : trials (0 + 0 + 6) g1 g4).
  { exact (trials_trans _ _ _ _ _ (trials_trans _ _ _ _ _ H2 H3) H4). }
  destruct (_ >? _)%Z; exact H.
Qed.

Lemma hit_trials game_state idx stone (g : Globals) :
  exists n, trials (n + 6) g (hit game_state idx stone g).2.
Proof.
  unfold hit, bind.
  destruct (speed_search_trials speed_search_fuel game_state idx stone
              (F32.dec false 5 1) g) as [n Hn].
  destruct (speed_search _ _ _ _ _ g) as [speed g1]. simpl in Hn.
  exists n. exact (trials_trans _ _ _ _ _ Hn (strike_trials _ _ _ _ g1)).
Qed.

Lemma target_loop_trials game_state (sorted_indices : list StoneIndex) :
  forall g : Globals,
    match target_loop game_state sorted_indices g with
    | (None, g') => g' = g
    | (Some _, g') => exists n, trials (n + 6) g g'
    end.
Proof.
  induction sorted_indices as [|idx rest IH]; intros g; simpl.
  - reflexivity.
  - destruct (decide _); [apply IH|].
    destruct (stone_at _ idx) as [stone|]; [|reflexivity].
    unfold bind, ret.
    pose proof (hit_trials game_state idx stone g) as H.
    destruct (hit _ _ _ g) as [m g1]. exact H.
Qed.

End Simulator_calls.

(** ** [OnMyTurn]: the move *)

Section OnMyTurn_theorems.

Context `{libm : Libm} `{dc : DigitalCurling3}.

Lemma init_indices_range (idx : StoneIndex) :
  In idx init_indices -> (team idx < 2)%nat /\ (stone idx < 8)%nat.
Proof.
  unfold init_indices. simpl. intros H.
  repeat (destruct H as [<- | H]; [simpl; lia|]). contradiction.
Qed.

Lemma target_loop_none game_state (l : list StoneIndex) (g : Globals) :
  (forall idx, In idx l -> team idx <> Team_index (g_team g) ->
               stone_at (stones game_state) idx = None) ->
  target_loop game_state l g = (None, g).
Proof.
  induction l as [|idx rest IH]; intros H; simpl; [reflexivity|].
  destruct (decide _) as [E|E].
  - apply IH. intros i Hi. apply H. right. exact Hi.
  - rewrite (H idx (or_introl eq_refl) E). reflexivity.
Qed.

Lemma target_loop_no_opponent game_state (result : list StoneIndex)
  (g : Globals) :
  length result = 16%nat ->
  no_opponent_stone (g_team g) game_state ->
  target_loop game_state (SortStones result (stones game_state)) g = (None, g).
Proof.
  intros Hlen Hno. apply target_loop_none. intros idx Hin Hteam.
  apply (Permutation_in _ (SortStones_perm _ _ Hlen)) in Hin.
  destruct (init_indices_range _ Hin) as [Ht Hn].
  apply Hno; assumption.
Qed.

Lemma init_indices_all (t n : nat) :
  (t < 2)%nat -> (n < 8)%nat -> In {| team := t; stone := n |} init_indices.
Proof.
  intros Ht Hn.
  destruct t as [|[|t]]; [| |lia];
    do 8 (destruct n as [|n]; [simpl; tauto|]); lia.
Qed.

(** In an array that has the stones on the sheet in front of the others,
    the first stone of another team is on the sheet when any stone of
    another team is, and the target loop returns a move. *)
Lemma target_loop_some game_state (here gone : list StoneIndex)
  (g : Globals) :
  Forall (fun i => is_Some (stone_at (stones game_state) i)) here ->
  Forall (fun i => stone_at (stones game_state) i = None) gone ->
  (exists idx, In idx (here ++ gone) /\ team idx <> Team_index (g_team g)
               /\ is_Some (stone_at (stones game_state) idx)) ->
  exists m, (target_loop game_state (here ++ gone) g).1 = Some m.
Proof.
  intros Hh Hg (idx & Hin & Hteam & Hon).
  induction Hh as [|idx0 here [stone E0] Hh IH].
  - exfalso. rewrite Forall_forall in Hg.
    rewrite (Hg idx (proj2 (list_elem_of_In _ _) Hin)) in Hon.
    destruct Hon as [? [=]].
  - cbn [app target_loop]. destruct (decide _) as [E|E].
    + apply IH. destruct Hin as [<- | Hin]; [contradiction|exact Hin].
    + rewrite E0. unfold bind, ret. destruct (hit _ _ _ g) as [m g1].
      exists m. reflexivity.
Qed.

Lemma strike_Shot game_state idx stone speed (g : Globals) :
  exists s, (strike game_state idx stone speed g).1 = Shot s.
Proof.
  unfold strike, bind, ret.
  destruct (EstimateShotVelocityFCV1 _ _ kCCW g) as [ccw g2].
  destruct (EstimateShotVelocityFCV1 _ _ kCW g2) as [cw g3].
  destruct (score_candidates _ _ _ g3) as [points g4].
  destruct (_ >? _)%Z; eexists; reflexivity.
Qed.

Lemma target_loop_Shot game_state (l : list StoneIndex) :
  forall (g : Globals) m,
    (target_loop game_state l g).1 = Some m -> exists s, m = Shot s.
Proof.
  induction l as [|idx rest IH]; intros g m; simpl; [discriminate|].
  destruct (decide _); [apply IH|].
  destruct (stone_at _ idx) as [stone|]; [|discriminate].
  unfold hit, bind, ret.
  destruct (speed_search _ _ _ _ _ g) as [speed g1].
  destruct (strike_Shot game_state idx stone speed g1) as [s Hs].
  destruct (strike _ _ _ _ g1) as [m' g2]. simpl in *.
  intros [= <-]. exists s. exact Hs.
Qed.

(** C10.  For every game state and every value of the global variables,
    [OnMyTurn] returns the Shot alternative of [Move]; it never returns a
    Concede. *)
Theorem OnMyTurn_returns_Shot (game_state : GameState) (g : Globals) :
  exists s : ShotMove, (OnMyTurn game_state g).1 = Shot s.
Proof.
  unfold OnMyTurn, bind, ret.
  destruct (Save g) as [[] g0].
  pose proof (target_loop_Shot game_state
    (SortStones (replicate 16 {| team := 0; stone := 0 |}) (stones game_state))
    g0) as H.
  destruct (target_loop _ _ g0) as [[m|] g1]; simpl in *.
  - exact (H m eq_refl).
  - destruct (EstimateShotVelocityFCV1 _ _ _ g1) as [v0 g2].
    eexists. reflexivity.
Qed.

(** C8.  Whenever no opponent stone is on the sheet, [OnMyTurn] returns the
    Shot whose velocity is what the estimator gives for the tee at arrival
    speed zero with counter-clockwise rotation, and whose rotation is
    counter-clockwise. *)
Theorem OnMyTurn_no_target (game_state : GameState) (g : Globals) :
  no_opponent_stone (g_team g) game_state ->
  (OnMyTurn game_state g).1 =
  Shot {| velocity :=
            (EstimateShotVelocityFCV1 kTee F32.zero kCCW (Save g).2).1;
          rotation := kCCW |}.
Proof.
  intros Hno. unfold OnMyTurn, bind, ret.
  destruct (Save g) as [[] g0] eqn:ES.
  assert (Ht : g_team g0 = g_team g) by (inversion ES; reflexivity).
  rewrite target_loop_no_opponent;
    [|apply length_replicate|rewrite Ht; exact Hno].
  simpl. destruct (EstimateShotVelocityFCV1 _ _ _ g0) as [v0 g2].
  reflexivity.
Qed.

(** C4, as the code has it.  [OnMyTurn] saves the simulator once, at entry,
    and then only makes rollouts, each one a [Load] of the snapshot directly
    followed by [dc::ApplyMove], which so starts from the state at entry.
    When it returns, the snapshot holds the state at entry.  When no
    opponent stone is on the sheet no rollout is made, and the simulator
    holds the state at entry.  When an opponent stone is on the sheet,
    whatever the distances are, rollouts are made, and the simulator is
    left as the last [dc::ApplyMove] has left it, starting from the state
    at entry: it is not restored. *)
Theorem OnMyTurn_simulator (game_state : GameState) (g : Globals) :
  exists n : nat,
    sim_calls (OnMyTurn game_state g).2 =
      sim_calls g
      ++ CallSave
         :: concat (replicate n [CallLoad; CallApplyMove (g_simulator g)])
    /\ g_simulator_storage (OnMyTurn game_state g).2 = g_simulator g
    /\ (n = 0%nat -> g_simulator (OnMyTurn game_state g).2 = g_simulator g)
    /\ (n <> 0%nat ->
        exists player temp_game_state move,
          g_simulator (OnMyTurn game_state g).2 =
          (ApplyMove (g_game_setting g) (g_simulator g)
                     player temp_game_state move).1.1)
    /\ (no_opponent_stone (g_team g) game_state -> n = 0%nat)
    /\ ((exists t i : nat,
           (t < 2)%nat /\ (i < 8)%nat /\ t <> Team_index (g_team g)
           /\ is_Some (stones game_state t i)) ->
        n <> 0%nat).
Proof.
  unfold OnMyTurn, bind, ret.
  destruct (Save g) as [[] g0] eqn:ES.
  assert (E0 : g_team g0 = g_team g /\ g_game_setting g0 = g_game_setting g
               /\ g_simulator g0 = g_simulator g
               /\ g_simulator_storage g0 = g_simulator g
               /\ sim_calls g0 = sim_calls g ++ [CallSave])
    by (inversion ES; repeat split; reflexivity).
  destruct E0 as (Et & Es & Esim & Est & Ec).
  pose proof (target_loop_trials game_state
    (SortStones (replicate 16 {| team := 0; stone := 0 |}) (stones game_state))
    g0) as H.
  pose proof (target_loop_no_opponent game_state
    (replicate 16 {| team := 0; stone := 0 |}) g0 (length_replicate _ _)) as Hn.
  rewrite Et in Hn.
  assert (Hsome : (exists t i : nat,
                     (t < 2)%nat /\ (i < 8)%nat /\ t <> Team_index (g_team g)
                     /\ is_Some (stones game_state t i)) ->
                  exists m,
                    (target_loop game_state
                       (SortStones (replicate 16 {| team := 0; stone := 0 |})
                                   (stones game_state)) g0).1 = Some m).
  { intros (t & i & Ht & Hi & Hteam & Hon).
    pose proof (SortStones_perm (replicate 16 {| team := 0; stone := 0 |})
                  (stones game_state) (length_replicate _ _)) as Hp.
    revert Hp.
    rewrite (SortStones_passes _ _ (length_replicate _ _)).
    destruct (passes_split (stones game_state) init_indices [] []
                (Forall_nil_2 _) (Forall_nil_2 _))
      as (gone & here & E & Hg & Hh).
    change (passes (stones game_state) ([] ++ []) init_indices)
      with (passes (stones game_state) [] init_indices) in E.
    rewrite E, rev_app_distr. intros Hp.
    apply target_loop_some.
    - rewrite <- Permutation_rev. exact Hh.
    - rewrite <- Permutation_rev. exact Hg.
    - exists {| team := t; stone := i |}. rewrite Et. split_and!.
      + apply (Permutation_in _ (Permutation_sym Hp)), init_indices_all;
          assumption.
      + exact Hteam.
      + exact Hon. }
  destruct (target_loop _ _ g0) as [[m|] g1]; simpl.
  - destruct H as (n & _ & _ & Hst & Hc & _ & H1).
    exists (n + 6)%nat. rewrite Hc, Hst, Est, Ec, <- app_assoc.
    split_and!; try reflexivity.
    + intros E. lia.
    + intros _. destruct H1 as (p & gs & mv & Eq); [lia|].
      exists p, gs, mv. rewrite Eq, Es, Est. reflexivity.
    + intros Hno. specialize (Hn Hno). discriminate Hn.
    + intros _. lia.
  - subst g1.
    pose proof (Estimate_trials kTee F32.zero kCCW g0) as (_ & _ & Hst & Hc & H0 & _).
    destruct (EstimateShotVelocityFCV1 _ _ _ g0) as [v0 g2]. simpl in *.
    exists 0%nat. rewrite Hc, Hst, Est, Ec, <- app_assoc, H0 by reflexivity.
    simpl. split_and!; try reflexivity; try assumption.
    + intros E. congruence.
    + intros E. congruence.
    + intros Hex. destruct (Hsome Hex) as [m [=]].
Qed.

Lemma score_trial_length game_state idx candidate_shots points j (g : Globals) :
  length (score_trial game_state idx candidate_shots points j g).1
  = length points.
Proof.
  unfold score_trial, bind, ret.
  destruct (Load g) as [[] g1]. destruct (apply_move _ _ g1) as [temp g2].
  simpl. repeat (destruct (bool_decide _); simpl);
    rewrite ?length_alter; reflexivity.
Qed.

Lemma for_each_length {A I : Type} (body : list A -> I -> State Globals (list A)) :
  (forall a i g, length (body a i g).1 = length a) ->
  forall (l : list I) a g, length (for_each body a l g).1 = length a.
Proof.
  intros Hbody l. induction l as [|i l IH]; intros a g; simpl; [reflexivity|].
  unfold bind. pose proof (Hbody a i g) as H.
  destruct (body a i g) as [a' g1]. simpl in H. rewrite IH. exact H.
Qed.

Lemma score_candidates_length game_state idx candidate_shots (g : Globals) :
  length (score_candidates game_state idx candidate_shots g).1 = 2%nat.
Proof.
  unfold score_candidates.
  rewrite (for_each_length (A := Z) (I := nat)); [reflexivity|].
  intros a i g0. apply for_each_length. intros a' j g1.
  apply score_trial_length.
Qed.

(** C1, as the code has it.  [strike] returns the counter-clockwise
    candidate when its aggregate score over the three trials is strictly the
    higher, and the clockwise candidate otherwise: when the clockwise score
    is strictly higher, and also when the two scores are equal. *)
Theorem strike_choice (game_state : GameState) (idx : StoneIndex)
  (stone : Transform) (speed : float32) (g : Globals) :
  exists (c0 c1 : ShotMove) (p0 p1 : Z),
    (candidates_at stone speed g).1 = [c0; c1]
    /\ rotation c0 = kCCW /\ rotation c1 = kCW
    /\ aggregate_scores game_state idx stone speed g = [p0; p1]
    /\ (p0 > p1 -> (strike game_state idx stone speed g).1 = Shot c0)
    /\ (p0 < p1 -> (strike game_state idx stone speed g).1 = Shot c1)
    /\ (p0 = p1 -> (strike game_state idx stone speed g).1 = Shot c1).
Proof.
  unfold aggregate_scores, candidates_at, strike, bind, ret.
  destruct (EstimateShotVelocityFCV1 _ _ kCCW g) as [ccw g2].
  destruct (EstimateShotVelocityFCV1 _ _ kCW g2) as [cw g3]. simpl.
  pose proof (score_candidates_length game_state idx
                [ {| velocity := ccw; rotation := kCCW |};
                  {| velocity := cw; rotation := kCW |} ] g3) as Hlen.
  destruct (score_candidates _ _ _ g3) as [points g4] eqn:E. simpl in Hlen.
  destruct points as [|p0 [|p1 [|]]]; try discriminate Hlen.
  exists {| velocity := ccw; rotation := kCCW |},
         {| velocity := cw; rotation := kCW |}, p0, p1. simpl.
  change ([p0; p1] !!! 0%nat) with p0. change ([p0; p1] !!! 1%nat) with p1.
  split_and!; try reflexivity; intros H.
  - replace (p0 >? p1) with true by (symmetry; apply Z.gtb_lt; lia).
    reflexivity.
  - replace (p0 >? p1) with false
      by (symmetry; apply not_true_is_false; rewrite Z.gtb_lt; lia).
    reflexivity.
  - replace (p0 >? p1) with false
      by (symmetry; apply not_true_is_false; rewrite Z.gtb_lt; lia).
    reflexivity.
Qed.

Lemma ladder_climbs :
  climbs (F32.dec false 5 1) ladder (F32.dec false 35 1).
Proof. unfold ladder. cbn [climbs]. repeat split; vm_compute; reflexivity. Qed.

Lemma speed_search_first_accepted game_state idx stone (k : nat)
  (stop : float32) (speeds : list float32) :
  forall v (g : Globals),
    climbs v speeds stop ->
    speed_search (length speeds + S k) game_state idx stone v g =
    (let* r := first_accepted game_state idx stone speeds in
     ret (default stop r)) g.
Proof.
  induction speeds as [|a rest IH]; intros v g H.
  - destruct H as [-> H]. simpl. rewrite H. reflexivity.
  - destruct H as (-> & Hlt & H). simpl. rewrite Hlt. unfold bind.
    destruct (try_speed _ _ _ _ g) as [done g1].
    destruct done; [reflexivity|].
    rewrite (IH _ g1 H). reflexivity.
Qed.

(** C2, as the code has it.  The speed search tries 0.5, 1.0, 1.5, 2.0, 2.5
    and 3.0 in this order and accepts the first speed that passes its test;
    more turns than seven change nothing.  When no speed is accepted the
    loop is left with [speed] at 3.5, the first value that fails the loop
    test, and [strike] builds its candidates at 3.5, a speed that no rollout
    of the search has tried.  The test is passed when, in the game state
    after the rollout, a stone is at index [shot / 2] of the team
    [shot mod 2] and the targeted stone is gone.  The team of the planner
    has no part in it: the slot is a slot of the planner only where the
    index of its team is [shot mod 2]. *)
Theorem speed_search_ladder (game_state : GameState) (idx : StoneIndex)
  (stone : Transform) (k : nat) (g : Globals) :
  speed_search (speed_search_fuel + k) game_state idx stone
               (F32.dec false 5 1) g =
  (let* r := first_accepted game_state idx stone ladder in
   ret (default (F32.dec false 35 1) r)) g
  /\ hit game_state idx stone g =
     (let* r := first_accepted game_state idx stone ladder in
      strike game_state idx stone (default (F32.dec false 35 1) r)) g
  /\ (forall (speed : float32) (g0 : Globals),
        (try_speed game_state idx stone speed g0).1 = true
        <-> is_Some (stones (rollout_state game_state stone speed g0)
                            (shot game_state mod 2)%nat
                            (shot game_state / 2)%nat)
            /\ stone_at (stones (rollout_state game_state stone speed g0)) idx
               = None)
  /\ (forall (speed : float32) (g0 : Globals) (t : Team),
        (try_speed game_state idx stone speed (with_team t g0)).1
        = (try_speed game_state idx stone speed g0).1).
Proof.
  pose proof (fun k => speed_search_first_accepted game_state idx stone k
                         _ _ _ g ladder_climbs) as H.
  split_and!.
  - exact (H k).
  - pose proof (H 0%nat) as H0.
    change (length ladder + 1)%nat with speed_search_fuel in H0.
    unfold hit, bind. rewrite H0. unfold bind, ret.
    destruct (first_accepted _ _ _ _ g) as [r g1]. reflexivity.
  - intros speed g0. unfold try_speed, rollout_state, bind, ret.
    destruct (EstimateShotVelocityFCV1 _ _ _ g0) as [v g1].
    destruct (Load g1) as [[] g2].
    destruct (apply_move _ _ g2) as [temp g3]. cbn [fst].
    unfold took_out, shot_slot_stone.
    rewrite andb_true_iff, negb_true_iff, bool_decide_eq_true,
      bool_decide_eq_false.
    split; intros [H1 H2]; (split; [exact H1|]).
    + destruct (stone_at (stones temp) idx) eqn:E; [|reflexivity].
      exfalso. apply H2. eauto.
    + rewrite H2. intros [x Hx]. discriminate Hx.
  - intros speed g0 t.
    unfold try_speed, bind, ret, EstimateShotVelocityFCV1, with_team.
    cbn [s_simulator]. destruct (trial_delta _ _ _ _) as [delta sim].
    unfold Load, apply_move, set_simulator.
    cbn [g_game_setting g_simulator g_simulator_storage g_players fst snd].
    destruct (ApplyMove _ _ _ _ _) as [[sim' player] temp]. reflexivity.
Qed.

End OnMyTurn_theorems.

(** ** [EstimateShotVelocityFCV1]: the launch speed *)

Section Estimator_theorems.

Context `{libm : Libm} `{dc : DigitalCurling3}.









End Estimator_theorems.

(** ** [OnInit] *)

Section OnInit_theorems.

Context `{libm : Libm} `{dc : DigitalCurling3}.

(** C6: what the code does where the claim fails.  [OnInit] prints the
    warning for a simulator whose identifier is the supported one: the
    warning does not depend on the factory at all. *)
Theorem OnInit_warns_on_fcv1 (team : Team) (game_setting : GameSetting)
  (f : SimulatorFactory) (player_factories : list (option PlayerFactory))
  (player_order : list nat) :
  GetSimulatorId f = "fcv1"%string ->
  (OnInit team game_setting (Some f) player_factories player_order).2
  = [WarningUnsupportedSimulator].
Proof. intros _. reflexivity. Qed.

(** An absent simulator factory is replaced by the FCV1 factory. *)
Lemma OnInit_simulator_fallback (team : Team) (game_setting : GameSetting)
  (player_factories : list (option PlayerFactory)) (player_order : list nat) :
  g_simulator (OnInit team game_setting None player_factories player_order).1
  = CreateSimulator SimulatorFCV1Factory.
Proof. reflexivity. Qed.

(** A simulator factory that is there is used, whatever its identifier. *)
Lemma OnInit_simulator_given (team : Team) (game_setting : GameSetting)
  (f : SimulatorFactory) (player_factories : list (option PlayerFactory))
  (player_order : list nat) :
  g_simulator
    (OnInit team game_setting (Some f) player_factories player_order).1
  = CreateSimulator f.
Proof. reflexivity. Qed.

(** Each player slot whose factory is absent gets the normal-distribution
    player; the other slots get the player of their factory. *)
Lemma OnInit_player_fallback (team : Team) (game_setting : GameSetting)
  (simulator_factory : option SimulatorFactory)
  (player_factories : list (option PlayerFactory)) (i : nat) :
  (i < 4)%nat ->
  g_players (OnInit team game_setting simulator_factory player_factories
                    [0; 1; 2; 3]%nat).1 !! i
  = Some match mjoin (player_factories !! i) with
         | Some f => CreatePlayer f
         | None => CreatePlayer PlayerNormalDistFactory
         end.
Proof.
  intros H. destruct i as [|[|[|[|i]]]]; try lia; reflexivity.
Qed.

End OnInit_theorems.

(** ** [main] *)

Section Client_theorems.

Context `{libm : Libm} `{dc : DigitalCurling3} `{wire : !Wire}.

(** [OnMyTurn] leaves a mark in the global variables: a run of the update
    loop that returns them unchanged has not called it. *)
Lemma trials_calls (k : nat) (g g' : Globals) :
  trials k g g' -> (length (sim_calls g) <= length (sim_calls g'))%nat.
Proof.
  intros (_ & _ & _ & Hc & _). rewrite Hc, length_app. lia.
Qed.

Lemma OnMyTurn_marks (game_state : GameState) (g : Globals) :
  (OnMyTurn game_state g).2 <> g.
Proof.
  assert (H : (length (sim_calls g)
               < length (sim_calls (OnMyTurn game_state g).2))%nat).
  { unfold OnMyTurn, bind, ret.
    destruct (Save g) as [[] g0] eqn:ES.
    assert (E0 : length (sim_calls g0) = S (length (sim_calls g))).
    { inversion ES. cbn [sim_calls]. rewrite length_app. simpl. lia. }
    pose proof (target_loop_trials game_state
      (SortStones (replicate 16 {| team := 0; stone := 0 |})
                  (stones game_state)) g0) as H.
    destruct (target_loop _ _ g0) as [[m|] g1]; cbn [snd].
    - destruct H as [k H]. apply trials_calls in H. lia.
    - subst g1.
      pose proof (trials_calls _ _ _
                    (Estimate_trials kTee F32.zero kCCW g0)) as H.
      destruct (EstimateShotVelocityFCV1 _ _ _ g0) as [v0 g2].
      cbn [snd] in *. lia. }
  intros E. rewrite E in H. lia.
Qed.

Lemma and_then_ok {A B : Type} (a : A) (k : A -> Run B) :
  and_then (ok a) k = k a.
Proof. reflexivity. Qed.

Lemma and_then_step {A B : Type} (c : Run A) (k : A -> Run B)
  (n n' : Net) (a : A) :
  c n = (inr a, n') -> and_then c k n = k a n'.
Proof. intros H. unfold and_then, bind. rewrite H. reflexivity. Qed.

Lemma and_then_cases {A B : Type} (c : Run A) (k : A -> Run B) (n : Net) :
  (exists e n', c n = (inl e, n') /\ and_then c k n = (inl e, n'))
  \/ (exists a n', c n = (inr a, n') /\ and_then c k n = k a n').
Proof.
  unfold and_then, bind, ret. destruct (c n) as [[e|a] n'].
  - left. exists e, n'. split; reflexivity.
  - right. exists a, n'. split; reflexivity.
Qed.

Lemma read_next_line_ok (n : Net) (line : RawLine) (rest : list RawLine) :
  inbound n = line :: rest ->
  read_next_line n =
  (inr line,
   {| reachable := reachable n; inbound := rest;
      writes_left := writes_left n; io := io n ++ [ReadLine] |}).
Proof.
  intros H. unfold read_next_line, and_then, bind, emit.
  cbn [inbound reachable writes_left io]. rewrite H. reflexivity.
Qed.

Lemma receive_ok (n : Net) (jin : json) (rest : list RawLine) (cmd : string) :
  inbound n = Parses jin :: rest ->
  at_key jin "cmd" = ok (JString cmd) ->
  receive cmd n =
  (inr jin,
   {| reachable := reachable n; inbound := rest;
      writes_left := writes_left n; io := io n ++ [ReadLine] |}).
Proof.
  intros Hin Hcmd. unfold receive.
  rewrite (and_then_step _ _ _ _ _ (read_next_line_ok n _ _ Hin)).
  cbn [parse]. rewrite and_then_ok. unfold check_command.
  rewrite Hcmd, and_then_ok. cbn [get_string].
  rewrite and_then_ok, String.eqb_refl, and_then_ok. reflexivity.
Qed.

(** C7.  When the line read by the update loop is an "update" message whose
    game state carries a match result, the loop ends at once: it returns
    that game state and the global variables unchanged, so the planner was
    not called, and all it has done is to read the line and to print the
    "[in] update" line, so no "move" message was written. *)
Theorem update_loop_concluded (fuel : nat) (team : Team) (g : Globals)
  (n : Net) (jin jstate : json) (rest : list RawLine)
  (game_state : GameState) :
  inbound n = Parses jin :: rest ->
  at_key jin "cmd" = ok (JString "update") ->
  at_key jin "state" = ok jstate ->
  GameState_of_json jstate = Some game_state ->
  is_Some (game_result game_state) ->
  update_loop (S fuel) team g n =
  (inr (game_state, g),
   {| reachable := reachable n;
      inbound := rest;
      writes_left := writes_left n;
      io := io n ++ [ReadLine;
                     Cout (InUpdate (end_ game_state) (shot game_state))] |}).
Proof.
  intros Hin Hcmd Hstate Hdec Hres.
  cbn [update_loop].
  rewrite (and_then_step _ _ _ _ _ (receive_ok n jin rest _ Hin Hcmd)).
  rewrite Hstate, and_then_ok. unfold get. rewrite Hdec, and_then_ok.
  rewrite (bool_decide_eq_true_2 _ Hres).
  unfold and_then, bind, cout, emit, ok, ret.
  cbn [inbound reachable writes_left io]. rewrite <- app_assoc. reflexivity.
Qed.

Lemma steady_ok {A : Type} (a : A) : steady (ok a).
Proof. intros n. reflexivity. Qed.

Lemma steady_raise {A : Type} (e : Failure) :
  e <> OutOfFuel -> steady (@raise A e).
Proof. intros H n. exact H. Qed.

Lemma steady_and_then {A B : Type} (c : Run A) (k : A -> Run B) :
  steady c -> (forall a, steady (k a)) -> steady (and_then c k).
Proof.
  intros Hc Hk n. unfold and_then, bind, ret. specialize (Hc n).
  destruct (c n) as [[e|a] n1]; [exact Hc|].
  specialize (Hk a n1). destruct (k a n1) as [[e|b] n2]; [exact Hk|].
  congruence.
Qed.

Lemma steady_emit (e : IO) : steady (emit e).
Proof. intros n. reflexivity. Qed.

Lemma steady_cout (l : Line) : steady (cout l).
Proof. intros n. reflexivity. Qed.

Lemma steady_write (j : json) : steady (write j).
Proof.
  intros n. unfold write. destruct (writes_left n); [discriminate|reflexivity].
Qed.

Lemma steady_at_key (j : json) (key : string) : steady (at_key j key).
Proof.
  unfold at_key. destruct j; try (apply steady_raise; discriminate).
  destruct (find _ _); [apply steady_ok|apply steady_raise; discriminate].
Qed.

Lemma steady_get {T : Type} (decode : json -> option T) (j : json) :
  steady (get decode j).
Proof.
  unfold get. destruct (decode j);
    [apply steady_ok|apply steady_raise; discriminate].
Qed.

Lemma steady_check_command (jin : json) (expected_cmd : string) :
  steady (check_command jin expected_cmd).
Proof.
  unfold check_command. apply steady_and_then; [apply steady_at_key|].
  intros cmd. apply steady_and_then.
  - unfold get_string. destruct cmd;
      try (apply steady_raise; discriminate); apply steady_ok.
  - intros actual. destruct (String.eqb _ _);
      [apply steady_ok|apply steady_raise; discriminate].
Qed.

(** [receive] takes one line off the transport. *)
Lemma receive_consumes (expected_cmd : string) (n : Net) :
  match receive expected_cmd n with
  | (inl e, _) => e <> OutOfFuel
  | (inr _, n') => S (length (inbound n')) = length (inbound n)
  end.
Proof.
  unfold receive, and_then at 1, bind, ret.
  unfold read_next_line, and_then, emit, bind, ret. simpl.
  destruct (inbound n) as [|line rest] eqn:E; simpl; [discriminate|].
  destruct line as [j|]; simpl; [|discriminate].
  pose proof (steady_check_command j expected_cmd
    {| reachable := reachable n; inbound := rest;
       writes_left := writes_left n; io := io n ++ [ReadLine] |}) as H.
  destruct (check_command j expected_cmd _) as [[e|[]] n1]; simpl in *;
    [exact H|]. rewrite H. reflexivity.
Qed.

(** The next step of a computation in the goal either fails, which closes
    the goal when the step is steady, or goes on. *)
Ltac next_step Hsteady a n' Hc Hs :=
  match goal with
  | |- context [and_then ?c ?k ?n] =>
      let e := fresh "e" in
      pose proof (Hsteady n) as Hs;
      destruct (and_then_cases c k n) as [(e & n' & Hc & ->)|(a & n' & Hc & ->)];
      rewrite Hc in Hs; [cbn [fst]; congruence|]
  end.

(** The update loop never uses up a number of turns that is above the
    number of lines left. *)
Lemma update_loop_fuel (fuel : nat) :
  forall (team : Team) (g : Globals) (n : Net),
    (length (inbound n) < fuel)%nat ->
    (update_loop fuel team g n).1 <> inl OutOfFuel.
Proof.
  induction fuel as [|fuel IH]; intros team g n Hlt; [lia|].
  cbn [update_loop].
  next_step (receive_consumes "update") jin n1 E1 S1.
  next_step (steady_at_key jin "state") jstate n2 E2 S2.
  next_step (steady_get GameState_of_json jstate) game_state n3 E3 S3.
  next_step (steady_cout (InUpdate (end_ game_state) (shot game_state)))
            u4 n4 E4 S4.
  assert (Hn4 : (length (inbound n4) < fuel)%nat) by (rewrite S4, S3, S2; lia).
  destruct (bool_decide _); [discriminate|].
  destruct (decide _).
  - destruct (OnMyTurn game_state g) as [move g'].
    next_step (steady_write (JObject [field "cmd" (JString "move");
                                      field "move" (Move_to_json move)]))
              u5 n5 E5 S5.
    next_step (steady_cout (OutMove move)) u6 n6 E6 S6.
    apply IH. rewrite S6, S5. exact Hn4.
  - cbn [OnOpponentTurn ret]. apply IH. exact Hn4.
Qed.

(** The update loop of [session] never runs out of fuel. *)
Lemma main_fuel (team : Team) (g : Globals) (n : Net) :
  (update_loop (S (length (inbound n))) team g n).1 <> inl OutOfFuel.
Proof. apply update_loop_fuel. lia. Qed.

End Client_theorems.

(** ** The line reader *)

Section LineReader_theorems.
Import LineReader.

Lemma find_first_of_None (s : text) (c : ascii) :
  find_first_of s c = None <-> c ∉ s.
Proof.
  induction s as [|a s IH]; simpl.
  - split; [intros _; apply not_elem_of_nil|reflexivity].
  - destruct (Ascii.eqb_spec a c) as [->|Hne].
    + split; [discriminate|]. intros H. exfalso. apply H. left.
    + destruct (find_first_of s c) eqn:E; simpl.
      * split; [discriminate|]. intros H. exfalso.
        apply not_elem_of_cons in H as [_ H]. apply IH in H. discriminate.
      * split; [|reflexivity]. intros _. apply not_elem_of_cons. split.
        -- congruence.
        -- apply IH. reflexivity.
Qed.

Lemma find_first_of_Some (s : text) (c : ascii) (p : nat) :
  find_first_of s c = Some p ->
  (c ∉ take p s) /\ s !! p = Some c.
Proof.
  revert p. induction s as [|a s IH]; intros p; simpl; [discriminate|].
  destruct (Ascii.eqb_spec a c) as [->|Hne].
  - intros [= <-]. split; [apply not_elem_of_nil|reflexivity].
  - destruct (find_first_of s c) as [q|]; simpl; [|discriminate].
    intros [= <-]. destruct (IH q eq_refl) as [H1 H2]. simpl. split.
    + apply not_elem_of_cons. split; [congruence|exact H1].
    + exact H2.
Qed.

Lemma find_first_of_frame (l rest : text) :
  newline ∉ l -> find_first_of (l ++ newline :: rest) newline = Some (length l).
Proof.
  induction l as [|a l IH]; intros H; simpl.
  - reflexivity.
  - apply not_elem_of_cons in H as [Ha H].
    destruct (Ascii.eqb_spec a newline) as [E|_]; [congruence|].
    rewrite (IH H). reflexivity.
Qed.

Lemma read_until_keeps (pieces : list text) :
  forall buffer filled rest,
    read_until pieces buffer = Some (filled, rest) ->
    filled ++ concat rest = buffer ++ concat pieces
    /\ newline ∈ filled.
Proof.
  induction pieces as [|piece pieces IH]; intros buffer filled rest; simpl.
  - destruct (find_first_of buffer newline) eqn:E; [|discriminate].
    intros [= <- <-]. split; [reflexivity|].
    apply find_first_of_Some in E as [_ E].
    apply list_elem_of_lookup. eauto.
  - destruct (find_first_of buffer newline) eqn:E.
    + intros [= <- <-]. split; [reflexivity|].
      apply find_first_of_Some in E as [_ E].
      apply list_elem_of_lookup. eauto.
    + intros H. destruct (IH _ _ _ H) as [H1 H2]. split; [|exact H2].
      rewrite H1, <- app_assoc. reflexivity.
Qed.

(** X1.  [read_next_line] loses nothing and changes no order: the line it
    returns, followed by what it leaves in the buffer and by the pieces still
    to arrive, is the buffer it found followed by the pieces that were to
    arrive. *)
Theorem read_next_line_keeps (r r' : Reader) (line : text) :
  read_next_line r = Some (line, r') ->
  line ++ input_buffer r' ++ concat (arriving r')
  = input_buffer r ++ concat (arriving r).
Proof.
  unfold read_next_line.
  destruct (input_buffer r) as [|a b] eqn:Eb.
  - destruct (read_until (arriving r) []) as [[filled rest]|] eqn:E;
      [|discriminate].
    intros [= <- <-]. simpl. rewrite app_assoc, take_drop.
    exact (proj1 (read_until_keeps _ _ _ _ E)).
  - intros [= <- <-]. cbn [input_buffer arriving].
    rewrite app_assoc, take_drop. reflexivity.
Qed.

Lemma take_line (buffer : text) :
  newline ∈ buffer ->
  exists body,
    take (plus_one (find_first_of buffer newline)) buffer = frame body
    /\ newline ∉ body.
Proof.
  intros H. destruct (find_first_of buffer newline) as [p|] eqn:E.
  - destruct (find_first_of_Some _ _ _ E) as [H1 H2].
    exists (take p buffer). split; [|exact H1].
    unfold plus_one, frame. rewrite Nat.add_1_r.
    rewrite (take_S_r _ _ _ H2). reflexivity.
  - apply find_first_of_None in E. contradiction.
Qed.

(** X2.  Called with an empty buffer, or with a buffer that holds a
    newline, [read_next_line] returns exactly one line: a text without a
    newline, followed by the newline. *)
Theorem read_next_line_whole (r r' : Reader) (line : text) :
  read_next_line r = Some (line, r') ->
  input_buffer r = [] \/ newline ∈ input_buffer r ->
  exists body, line = frame body /\ newline ∉ body.
Proof.
  unfold read_next_line.
  destruct (input_buffer r) as [|a b] eqn:Eb.
  - destruct (read_until (arriving r) []) as [[filled rest]|] eqn:E;
      [|discriminate].
    intros [= <- <-] _. apply take_line.
    exact (proj2 (read_until_keeps _ _ _ _ E)).
  - intros [= <- <-] [H|H]; [discriminate|]. exact (take_line (a :: b) H).
Qed.

(** With a buffer that is not empty and holds no newline nothing is read:
    [find_first_of] gives [npos], [npos + 1] is 0, and the line is the empty
    string. *)
Lemma read_next_line_partial (r : Reader) :
  input_buffer r <> [] ->
  newline ∉ input_buffer r ->
  read_next_line r = Some ([], r).
Proof.
  intros Hne Hnl. unfold read_next_line.
  destruct r as [buffer pieces]. cbn [input_buffer arriving] in *.
  destruct buffer as [|a b]; [contradiction|].
  apply find_first_of_None in Hnl. rewrite Hnl. reflexivity.
Qed.

Lemma read_until_None (pieces : list text) :
  forall buffer,
    newline ∉ buffer ++ concat pieces -> read_until pieces buffer = None.
Proof.
  induction pieces as [|piece pieces IH]; intros buffer H; simpl in *.
  - rewrite app_nil_r in H. apply find_first_of_None in H. rewrite H.
    reflexivity.
  - assert (Hb : newline ∉ buffer).
    { intros Hin. apply H. apply elem_of_app. left. exact Hin. }
    apply find_first_of_None in Hb. rewrite Hb. apply IH.
    rewrite <- app_assoc. exact H.
Qed.

(** X3.  With an empty buffer and no newline in what is still to arrive,
    [read_until] throws: [read_next_line] returns no line. *)
Theorem read_next_line_end (r : Reader) :
  input_buffer r = [] ->
  newline ∉ concat (arriving r) ->
  read_next_line r = None.
Proof.
  intros Hb Hnl. unfold read_next_line. rewrite Hb.
  rewrite (read_until_None _ [] Hnl). reflexivity.
Qed.

Lemma frames_cons (l : text) (ls : list text) :
  frames (l :: ls) = l ++ newline :: frames ls.
Proof. unfold frames, frame. simpl. rewrite <- app_assoc. reflexivity. Qed.

(** X4.  As long as every piece that arrives ends at the end of a line,
    [read_next_line] returns the lines in their order, one by call, each
    with its newline, and the reader stays at a line boundary: several lines
    that arrive in one piece are handed out one by one. *)
Theorem read_next_line_aligned (r : Reader) (l : text) (ls : list text) :
  aligned r (l :: ls) ->
  newline ∉ l ->
  exists r', read_next_line r = Some (frame l, r') /\ aligned r' ls.
Proof.
  intros (held & groups & Hb & Ha & Hg & Hls) Hl.
  assert (Hstep : forall (rest : list text) buffer,
            buffer = frames (l :: rest) ->
            take (plus_one (find_first_of buffer newline)) buffer = frame l
            /\ drop (plus_one (find_first_of buffer newline)) buffer
               = frames rest).
  { intros rest buffer ->. rewrite frames_cons.
    rewrite (find_first_of_frame l _ Hl). unfold plus_one, frame.
    rewrite Nat.add_1_r.
    change (l ++ newline :: frames rest) with (l ++ [newline] ++ frames rest).
    rewrite app_assoc.
    replace (S (length l)) with (length (l ++ [newline]))
      by (rewrite length_app; simpl; lia).
    rewrite take_app_length, drop_app_length. split; reflexivity. }
  unfold read_next_line. destruct held as [|h held].
  - (* the buffer is empty: the next piece is read *)
    simpl in Hls. rewrite Hb. cbn [frames map concat].
    destruct groups as [|g groups]; [discriminate Hls|].
    apply Forall_cons in Hg as [Hg0 Hg].
    destruct g as [|l0 g]; [contradiction|].
    simpl in Hls. injection Hls as <- Hls.
    rewrite Ha. cbn [map read_until find_first_of].
    rewrite app_nil_l.
    assert (E : read_until (map frames groups) (frames (l :: g))
                = Some (frames (l :: g), map frames groups)).
    { destruct (map frames groups); simpl;
        rewrite frames_cons, (find_first_of_frame l _ Hl); reflexivity. }
    rewrite E.
    destruct (Hstep g (frames (l :: g)) eq_refl)
      as [-> ->].
    eexists. split; [reflexivity|].
    exists g, groups. cbn [input_buffer arriving]. split_and!; auto.
  - simpl in Hls. injection Hls as <- Hls. rewrite Hb.
    destruct (Hstep held _ eq_refl) as [E1 E2].
    assert (Hne : frames (l :: held) <> [])
      by (rewrite frames_cons; destruct l; discriminate).
    destruct (frames (l :: held)) as [|a b] eqn:Ef; [contradiction|].
    cbv beta iota zeta. rewrite E1, E2.
    eexists. split; [reflexivity|].
    exists held, groups. cbn [input_buffer arriving]. split_and!; auto.
Qed.

(** X5.  A piece that ends inside a line stops the reader.  When the piece
    read holds the line [l] and the beginning [part] of the next line, the
    call returns [l] with its newline and keeps [part]; the next call reads
    nothing, returns the empty string and leaves the reader as it was, so do
    all the calls after it, whatever arrives. *)
Theorem read_next_line_split (l part : text) (more : list text) :
  newline ∉ l ->
  part <> [] ->
  newline ∉ part ->
  read_next_line {| input_buffer := []; arriving := (frame l ++ part) :: more |}
  = Some (frame l, {| input_buffer := part; arriving := more |})
  /\ read_next_line {| input_buffer := part; arriving := more |}
     = Some ([], {| input_buffer := part; arriving := more |}).
Proof.
  intros Hl Hne Hp. split.
  - unfold read_next_line. cbn [input_buffer arriving read_until find_first_of].
    rewrite app_nil_l. unfold frame. rewrite <- app_assoc.
    change ([newline] ++ part) with (newline :: part).
    assert (E : read_until more (l ++ newline :: part)
                = Some (l ++ newline :: part, more)).
    { destruct more; simpl; rewrite (find_first_of_frame l _ Hl); reflexivity. }
    rewrite E, (find_first_of_frame l _ Hl). unfold plus_one.
    rewrite Nat.add_1_r.
    change (l ++ newline :: part) with (l ++ [newline] ++ part).
    rewrite app_assoc.
    replace (S (length l)) with (length (l ++ [newline]))
      by (rewrite length_app; simpl; lia).
    rewrite take_app_length, drop_app_length. reflexivity.
  - apply read_next_line_partial; assumption.
Qed.

End LineReader_theorems.

(** ** More on [SortStones] *)

Lemma ltb_gtb_trans (a b c : float32) :
  a <> F32.nan -> F32.gtb a b = false -> F32.ltb b c = true ->
  F32.ltb a c = true.
Proof.
  unfold F32.gtb, F32.ltb, F32.nan, SFltb, SFcompare.
  destruct a as [sa|sa| |sa ma ea]; try congruence;
  destruct b as [sb|sb| |sb mb eb]; try discriminate;
  destruct c as [sc|sc| |sc mc ec]; try discriminate;
  intros _; destruct sa, sb, sc; simpl; intros H1 H2;
    try discriminate; try reflexivity;
    split_compare; simpl in *; try discriminate; try reflexivity; try lia.
Qed.

Section SortStones_more.

Context `{dc : DigitalCurling3}.

Lemma init_indices_NoDup : NoDup init_indices.
Proof. apply (bool_decide_eq_true_1 _). vm_compute. reflexivity. Qed.

(** X6.  [SortStones] does not read what [result] holds on entry, and what
    it leaves there is the sixteen indices, each of the two teams' eight
    stones exactly once, whatever the stones are, distances that are not
    numbers included. *)
Theorem SortStones_all_indices (result result' : list StoneIndex) (s : Stones) :
  length result = 16%nat ->
  length result' = 16%nat ->
  SortStones result s = SortStones result' s
  /\ length (SortStones result s) = 16%nat
  /\ NoDup (SortStones result s)
  /\ (forall t i : nat,
        (t < 2)%nat -> (i < 8)%nat ->
        {| team := t; stone := i |} ∈ SortStones result s).
Proof.
  intros H H'. pose proof (SortStones_perm result s H) as Hp. split_and!.
  - rewrite (SortStones_passes _ _ H), (SortStones_passes _ _ H').
    reflexivity.
  - rewrite Hp. reflexivity.
  - rewrite Hp. exact init_indices_NoDup.
  - intros t i Ht Hi. rewrite Hp. apply list_elem_of_In.
    apply init_indices_all; assumption.
Qed.

(** X7.  Whatever the positions are, distances that are not numbers
    included, [SortStones] puts the stones that are on the sheet in front of
    all the stones that are not. *)
Theorem SortStones_absent_last (result : list StoneIndex) (s : Stones) :
  length result = 16%nat ->
  exists here gone : list StoneIndex,
    SortStones result s = here ++ gone
    /\ Forall (fun i => is_Some (stone_at s i)) here
    /\ Forall (fun i => stone_at s i = None) gone.
Proof.
  intros H. rewrite (SortStones_passes _ _ H).
  destruct (passes_split s init_indices [] [] (Forall_nil_2 _) (Forall_nil_2 _))
    as (gone & here & E & Hg & Hh).
  change (passes s ([] ++ []) init_indices)
    with (passes s [] init_indices) in E.
  rewrite E, rev_app_distr.
  exists (rev here), (rev gone). split_and!; [reflexivity| |].
  - rewrite <- Permutation_rev. exact Hh.
  - rewrite <- Permutation_rev. exact Hg.
Qed.

Lemma StronglySorted_lookup_lt {A} (R : relation A) (l : list A) :
  StronglySorted R l ->
  forall p q a b, (p < q)%nat -> l !! p = Some a -> l !! q = Some b -> R a b.
Proof.
  induction 1 as [|x l Hl IH Hx]; intros p q a b Hpq Hp Hq;
    [discriminate|].
  destruct q as [|q]; [lia|]. simpl in Hq. destruct p as [|p].
  - injection Hp as <-. rewrite Forall_forall in Hx. apply Hx.
    apply list_elem_of_lookup. eauto.
  - simpl in Hp. apply (IH p q); [lia|assumption|assumption].
Qed.

(** X8.  In the order of [SortStones] the stones that [IsInHouse] accepts
    come first: when the stone at some place of [result] is in the house, so
    is the stone at every place before it, given that no distance is a
    NaN. *)
Theorem SortStones_house_first (kHouseRadius kStoneRadius : float32)
  (result : list StoneIndex) (s : Stones) (p q : nat) (ip iq : StoneIndex) :
  length result = 16%nat ->
  distances_defined s ->
  (p <= q)%nat ->
  SortStones result s !! p = Some ip ->
  SortStones result s !! q = Some iq ->
  IsInHouse kHouseRadius kStoneRadius (stone_at s iq) = true ->
  IsInHouse kHouseRadius kStoneRadius (stone_at s ip) = true.
Proof.
  intros Hlen Hdef Hpq Hp Hq Hin.
  destruct (decide (p = q)) as [->|Hne]; [congruence|].
  pose proof (StronglySorted_lookup_lt _ _
                (SortStones_sorted result s Hlen Hdef) p q ip iq
                ltac:(lia) Hp Hq) as Hpre.
  unfold precedes in Hpre. unfold IsInHouse in *.
  destruct (stone_at s iq) as [tq|]; [|discriminate].
  destruct (stone_at s ip) as [tp|] eqn:Ep; [|contradiction].
  destruct Hpre as [Hfar _].
  eapply ltb_gtb_trans; [exact (Hdef _ _ Ep)|exact Hfar|exact Hin].
Qed.

End SortStones_more.

(** ** More on [OnMyTurn] *)

(** What [Save], [Load], [dc::ApplyMove] and the estimator keep, each
    taken alone, [OnMyTurn] keeps. *)

Section OnMyTurn_rule.

Context `{libm : Libm} `{dc : DigitalCurling3}.

Variable game_state : GameState.
Variable R : Globals -> Globals -> Prop.

Hypothesis R_refl : forall g, R g g.
Hypothesis R_trans : forall g1 g2 g3, R g1 g2 -> R g2 g3 -> R g1 g3.
Hypothesis R_Estimate :
  forall target speed rot g,
    R g (EstimateShotVelocityFCV1 target speed rot g).2.
Hypothesis R_Save : forall g, R g (Save g).2.
Hypothesis R_Load : forall g, R g (Load g).2.
Hypothesis R_apply_move :
  forall move g, R g (apply_move game_state move g).2.

Lemma rule_try_speed idx stone speed g :
  R g (try_speed game_state idx stone speed g).2.
Proof.
  unfold try_speed, bind, ret.
  pose proof (R_Estimate (position stone) speed kCCW g) as H0.
  destruct (EstimateShotVelocityFCV1 _ _ _ g) as [v g1]. simpl in H0.
  pose proof (R_Load g1) as H1. destruct (Load g1) as [[] g2]. simpl in H1.
  pose proof (R_apply_move (Shot {| velocity := v; rotation := kCCW |}) g2)
    as H2.
  destruct (apply_move _ _ g2) as [temp g3]. simpl in *. eauto.
Qed.

Lemma rule_speed_search fuel idx stone :
  forall speed g, R g (speed_search fuel game_state idx stone speed g).2.
Proof.
  induction fuel as [|fuel IH]; intros speed g; simpl; [apply R_refl|].
  destruct (speed <? F32.dec false 35 1)%f32; [|apply R_refl].
  unfold bind. pose proof (rule_try_speed idx stone speed g) as H1.
  destruct (try_speed _ _ _ _ g) as [done g1]. simpl in H1.
  destruct done; [exact H1|]. eapply R_trans; [exact H1|apply IH].
Qed.

Lemma rule_score_trial idx candidate_shots points j g :
  R g (score_trial game_state idx candidate_shots points j g).2.
Proof.
  unfold score_trial, bind, ret.
  pose proof (R_Load g) as H1. destruct (Load g) as [[] g1]. simpl in H1.
  pose proof (R_apply_move (Shot (candidate_shots !!! j)) g1) as H2.
  destruct (apply_move _ _ g1) as [temp g2]. simpl in *. eauto.
Qed.

Lemma rule_for_each {A I : Type} (body : A -> I -> State Globals A) :
  (forall a i g, R g (body a i g).2) ->
  forall (l : list I) a g, R g (for_each body a l g).2.
Proof.
  intros Hbody l. induction l as [|i l IH]; intros a g; simpl.
  - apply R_refl.
  - unfold bind. pose proof (Hbody a i g) as H1.
    destruct (body a i g) as [a' g1]. simpl in H1.
    eapply R_trans; [exact H1|apply IH].
Qed.

Lemma rule_strike idx stone speed g :
  R g (strike game_state idx stone speed g).2.
Proof.
  unfold strike, bind.
  pose proof (R_Estimate (position stone) speed kCCW g) as H2.
  destruct (EstimateShotVelocityFCV1 _ _ kCCW g) as [ccw g2]. simpl in H2.
  pose proof (R_Estimate (position stone) speed kCW g2) as H3.
  destruct (EstimateShotVelocityFCV1 _ _ kCW g2) as [cw g3]. simpl in H3.
  assert (H4 : R g3 (score_candidates game_state idx
                       [ {| velocity := ccw; rotation := kCCW |};
                         {| velocity := cw; rotation := kCW |} ] g3).2).
  { unfold score_candidates. apply rule_for_each. intros points i g0.
    apply rule_for_each. intros a j g1. apply rule_score_trial. }
  destruct (score_candidates _ _ _ g3) as [points g4]. simpl in H4.
  assert (H : R g g4) by eauto.
  destruct (_ >? _)%Z; exact H.
Qed.

Lemma rule_hit idx stone g : R g (hit game_state idx stone g).2.
Proof.
  unfold hit, bind.
  pose proof (rule_speed_search speed_search_fuel idx stone
                (F32.dec false 5 1) g) as H1.
  destruct (speed_search _ _ _ _ _ g) as [speed g1]. simpl in H1.
  eapply R_trans; [exact H1|apply rule_strike].
Qed.

Lemma rule_target_loop (l : list StoneIndex) :
  forall g, R g (target_loop game_state l g).2.
Proof.
  induction l as [|idx rest IH]; intros g; simpl; [apply R_refl|].
  destruct (decide _); [apply IH|].
  destruct (stone_at _ idx) as [stone|]; [|apply R_refl].
  unfold bind, ret. pose proof (rule_hit idx stone g) as H.
  destruct (hit _ _ _ g) as [m g1]. exact H.
Qed.

(** What [Save], [Load], [dc::ApplyMove] and the estimator keep, [OnMyTurn]
    keeps. *)
Lemma rule_OnMyTurn g : R g (OnMyTurn game_state g).2.
Proof.
  unfold OnMyTurn, bind, ret.
  pose proof (R_Save g) as H0. destruct (Save g) as [[] g0]. simpl in H0.
  pose proof (rule_target_loop
    (SortStones (replicate 16 {| team := 0; stone := 0 |}) (stones game_state))
    g0) as H1.
  destruct (target_loop _ _ g0) as [[m|] g1]; simpl in *; [eauto|].
  pose proof (R_Estimate kTee F32.zero kCCW g1) as H2.
  destruct (EstimateShotVelocityFCV1 _ _ _ g1) as [v0 g2]. simpl in *. eauto.
Qed.

End OnMyTurn_rule.

Section OnMyTurn_more.

Context `{libm : Libm} `{dc : DigitalCurling3}.

Lemma only_player_refl i g : only_player i g g.
Proof. unfold only_player. auto. Qed.

Lemma only_player_trans i g1 g2 g3 :
  only_player i g1 g2 -> only_player i g2 g3 -> only_player i g1 g3.
Proof.
  intros (A1 & A2 & A3 & A4) (B1 & B2 & B3 & B4). unfold only_player.
  split_and!; try congruence. intros j Hj. rewrite (B4 j Hj). apply A4, Hj.
Qed.

(** X9.  Of the global variables that the session has set up, [OnMyTurn]
    changes at most one player, the one of slot [shot / 4] that throws the
    stones of the rollouts: the team, the game setting, the number of players
    and every other player are as before. *)
Theorem OnMyTurn_only_player (game_state : GameState) (g : Globals) :
  only_player (shot game_state / 4)%nat g (OnMyTurn game_state g).2.
Proof.
  apply rule_OnMyTurn.
  - apply only_player_refl.
  - apply only_player_trans.
  - intros target speed rot g0. unfold EstimateShotVelocityFCV1.
    destruct (trial_delta _ _ _ _). unfold only_player. cbn. auto.
  - intros g0. unfold only_player. cbn. auto.
  - intros g0. unfold only_player. cbn. auto.
  - intros move g0. unfold apply_move.
    destruct (ApplyMove _ _ _ _ _) as [[sim player] temp].
    unfold only_player. cbn [snd g_team g_game_setting g_players].
    split_and!; try reflexivity.
    + apply length_insert.
    + intros j Hj. apply list_lookup_insert_ne. congruence.
Qed.

Lemma first_accepted_In game_state idx stone (speeds : list float32) :
  forall g v,
    (first_accepted game_state idx stone speeds g).1 = Some v -> In v speeds.
Proof.
  induction speeds as [|a rest IH]; intros g v; simpl; [discriminate|].
  unfold bind. destruct (try_speed _ _ _ _ g) as [done g1].
  destruct done; simpl.
  - intros [= <-]. left. reflexivity.
  - intros H. right. exact (IH _ _ H).
Qed.

Lemma search_speeds_in_domain :
  Forall (fun v => assert_speed_domain v = true)
         (F32.zero :: ladder ++ [F32.dec false 35 1]).
Proof. repeat constructor; vm_compute; reflexivity. Qed.

(** X10.  The arrival speed that the search hands to the two candidates is
    one of 0.5, 1.0, 1.5, 2.0, 2.5, 3.0 and 3.5, and it passes the estimator's
    assertion [target_speed >= 0.f && target_speed <= 4.f]. *)
Theorem speed_search_in_domain (game_state : GameState) (idx : StoneIndex)
  (stone : Transform) (g : Globals) :
  In (speed_search speed_search_fuel game_state idx stone
                   (F32.dec false 5 1) g).1
     (ladder ++ [F32.dec false 35 1])
  /\ assert_speed_domain
       (speed_search speed_search_fuel game_state idx stone
                     (F32.dec false 5 1) g).1 = true.
Proof.
  assert (H : In (speed_search speed_search_fuel game_state idx stone
                    (F32.dec false 5 1) g).1
                 (ladder ++ [F32.dec false 35 1])).
  { pose proof (speed_search_first_accepted game_state idx stone 0
                  _ _ _ g ladder_climbs) as E.
    change (length ladder + 1)%nat with speed_search_fuel in E. rewrite E.
    unfold bind, ret.
    pose proof (first_accepted_In game_state idx stone ladder g) as Hin.
    clear E. destruct (first_accepted _ _ _ _ g) as [[v|] g1];
      cbn [fst default] in *.
    - apply in_or_app. left. apply Hin. reflexivity.
    - apply in_or_app. right. left. reflexivity. }
  split; [exact H|].
  pose proof search_speeds_in_domain as F.
  apply Forall_cons in F as [_ F]. rewrite Forall_forall in F.
  apply F, list_elem_of_In, H.
Qed.

Lemma speed_search_rollouts game_state idx stone (k : nat) (stop : float32)
  (speeds : list float32) :
  forall v (g : Globals),
    climbs v speeds stop ->
    exists n : nat,
      (n <= length speeds)%nat /\ (speeds <> [] -> (1 <= n)%nat)
      /\ trials n g
           (speed_search (length speeds + S k) game_state idx stone v g).2.
Proof.
  induction speeds as [|a rest IH]; intros v g H.
  - destruct H as [-> H]. simpl. rewrite H. exists 0%nat.
    split_and!; [lia|congruence|apply trials_refl].
  - destruct H as (-> & Hlt & H). simpl. rewrite Hlt. unfold bind.
    pose proof (try_speed_trials game_state idx stone v g) as H1.
    destruct (try_speed _ _ _ _ g) as [done g1]. simpl in H1.
    destruct done.
    + exists 1%nat. split_and!; [lia|lia|exact H1].
    + destruct (IH _ g1 H) as (n & Hn & _ & Ht). exists (1 + n)%nat.
      split_and!; [lia|lia|].
      exact (trials_trans _ _ _ _ _ H1 Ht).
Qed.

(** X11.  The calls that one [OnMyTurn] makes on the match simulator are
    one [Save] and then [n] rollouts, each a [Load] directly followed by
    [dc::ApplyMove] on the state held at entry, where [n] is 0 (no opponent
    stone: nothing is simulated) or between 7 and 12 (one to six rollouts of
    the speed search and six of the scoring). *)
Theorem OnMyTurn_rollout_count (game_state : GameState) (g : Globals) :
  exists n : nat,
    (n = 0 \/ 7 <= n <= 12)%nat
    /\ sim_calls (OnMyTurn game_state g).2 =
       sim_calls g
       ++ CallSave
          :: concat (replicate n [CallLoad; CallApplyMove (g_simulator g)]).
Proof.
  unfold OnMyTurn, bind, ret.
  destruct (Save g) as [[] g0] eqn:ES.
  assert (E0 : g_simulator_storage g0 = g_simulator g
               /\ sim_calls g0 = sim_calls g ++ [CallSave])
    by (inversion ES; split; reflexivity).
  destruct E0 as [Est Ec].
  assert (Hloop : forall l g1,
            match target_loop game_state l g1 with
            | (None, g') => g' = g1
            | (Some _, g') => exists n, (7 <= n <= 12)%nat /\ trials n g1 g'
            end).
  { induction l as [|idx rest IH]; intros g1; simpl; [reflexivity|].
    destruct (decide _) as [Eq|Ne]; [apply IH|].
    destruct (stone_at _ idx) as [stone|]; [|reflexivity].
    unfold bind, ret, hit, bind.
    destruct (speed_search_rollouts game_state idx stone 0 _ _ _ g1
                ladder_climbs) as (n & Hn & Hn1 & Ht).
    change (length ladder + 1)%nat with speed_search_fuel in Ht.
    destruct (speed_search _ _ _ _ _ g1) as [speed g2]. cbn [snd] in Ht.
    pose proof (strike_trials game_state idx stone speed g2) as Hs.
    destruct (strike _ _ _ _ g2) as [m g3]. simpl in Hs.
    exists (n + 6)%nat. split.
    - assert (1 <= n)%nat by (apply Hn1; discriminate).
      change (length ladder) with 6%nat in Hn. lia.
    - exact (trials_trans _ _ _ _ _ Ht Hs). }
  specialize (Hloop
    (SortStones (replicate 16 {| team := 0; stone := 0 |}) (stones game_state))
    g0).
  destruct (target_loop _ _ g0) as [[m|] g1]; simpl.
  - destruct Hloop as (n & Hn & _ & _ & _ & Hc & _).
    exists n. split; [right; exact Hn|].
    rewrite Hc, Est, Ec, <- app_assoc. reflexivity.
  - subst g1.
    pose proof (Estimate_trials kTee F32.zero kCCW g0) as (_ & _ & _ & Hc & _).
    destruct (EstimateShotVelocityFCV1 _ _ _ g0) as [v0 g2]. simpl in *.
    exists 0%nat. split; [left; reflexivity|].
    rewrite Hc, Ec, <- app_assoc. reflexivity.
Qed.

Lemma score_trial_adds game_state idx candidate_shots (p0 p1 : Z) (j : nat)
  (g : Globals) :
  exists d : Z,
    0 <= d <= 2
    /\ (score_trial game_state idx candidate_shots [p0; p1] j g).1
       = match j with
         | 0%nat => [p0 + d; p1]
         | 1%nat => [p0; p1 + d]
         | _ => [p0; p1]
         end.
Proof.
  unfold score_trial, bind, ret.
  destruct (Load g) as [[] g1]. destruct (apply_move _ _ g1) as [temp g2].
  cbn [fst].
  repeat match goal with
         | |- context [bool_decide ?P] => destruct (bool_decide P)
         end;
    cbn [negb]; destruct j as [|[|j]]; cbn [alter list_alter];
    first [ exists 0; split; [lia|]; solve [reflexivity | repeat (f_equal; try lia)]
          | exists 1; split; [lia|]; solve [repeat (f_equal; try lia)]
          | exists 2; split; [lia|]; solve [repeat (f_equal; try lia)] ].
Qed.

Lemma score_round_adds game_state idx (c0 c1 : ShotMove) (p0 p1 : Z)
  (g : Globals) :
  exists d0 d1 : Z,
    0 <= d0 <= 2 /\ 0 <= d1 <= 2
    /\ (for_each (score_trial game_state idx [c0; c1]) [p0; p1]
                 (seq 0 (length [c0; c1])) g).1
       = [p0 + d0; p1 + d1].
Proof.
  cbn [length seq for_each]. unfold bind, ret.
  destruct (score_trial_adds game_state idx [c0; c1] p0 p1 0 g)
    as (d0 & H0 & E0).
  destruct (score_trial _ _ _ _ _ g) as [q g1]. cbn [fst] in E0. subst q.
  destruct (score_trial_adds game_state idx [c0; c1] (p0 + d0) p1 1 g1)
    as (d1 & H1 & E1).
  destruct (score_trial _ _ _ _ _ g1) as [q g2]. cbn [fst] in E1. subst q.
  exists d0, d1. auto.
Qed.

(** X12.  The scoring gives exactly two scores, one per candidate, each
    between 0 and 6: a trial adds at most 2 to the score of its own
    candidate and nothing to the other, and a candidate has three trials. *)
Theorem aggregate_scores_bounds (game_state : GameState) (idx : StoneIndex)
  (stone : Transform) (speed : float32) (g : Globals) :
  exists p0 p1 : Z,
    aggregate_scores game_state idx stone speed g = [p0; p1]
    /\ 0 <= p0 <= 6 /\ 0 <= p1 <= 6.
Proof.
  unfold aggregate_scores, candidates_at, bind, ret.
  destruct (EstimateShotVelocityFCV1 _ _ kCCW g) as [ccw g2].
  destruct (EstimateShotVelocityFCV1 _ _ kCW g2) as [cw g3].
  cbn [fst snd]. unfold score_candidates. cbn [seq for_each].
  unfold bind at 1.
  destruct (score_round_adds game_state idx
              {| velocity := ccw; rotation := kCCW |}
              {| velocity := cw; rotation := kCW |} 0 0 g3)
    as (a0 & a1 & Ha0 & Ha1 & Ea).
  destruct (for_each _ [0; 0] _ g3) as [q g4]. cbn [fst] in Ea. subst q.
  unfold bind at 1.
  destruct (score_round_adds game_state idx
              {| velocity := ccw; rotation := kCCW |}
              {| velocity := cw; rotation := kCW |} (0 + a0) (0 + a1) g4)
    as (b0 & b1 & Hb0 & Hb1 & Eb).
  destruct (for_each _ [0 + a0; 0 + a1] _ g4) as [q g5]. cbn [fst] in Eb.
  subst q. unfold bind at 1.
  destruct (score_round_adds game_state idx
              {| velocity := ccw; rotation := kCCW |}
              {| velocity := cw; rotation := kCW |}
              (0 + a0 + b0) (0 + a1 + b1) g5)
    as (c0 & c1 & Hc0 & Hc1 & Ec).
  destruct (for_each _ [0 + a0 + b0; 0 + a1 + b1] _ g5) as [q g6].
  cbn [fst] in Ec. subst q. unfold ret. cbn [fst].
  eexists _, _. split; [reflexivity|]. lia.
Qed.

End OnMyTurn_more.

Section Target_theorems.

Context `{libm : Libm} `{dc : DigitalCurling3}.

Lemma farther_irrefl (a : Transform) : farther a a = false.
Proof.
  unfold farther. destruct (tee_distance a >? tee_distance a)%f32 eqn:E;
    [|reflexivity].
  pose proof (gtb_asym _ _ E). congruence.
Qed.

Lemma target_loop_first game_state (l : list StoneIndex) (g : Globals) :
  StronglySorted (precedes (stones game_state)) l ->
  (exists idx, In idx l /\ team idx <> Team_index (g_team g)
               /\ is_Some (stone_at (stones game_state) idx)) ->
  exists idx stone,
    In idx l /\ team idx <> Team_index (g_team g)
    /\ stone_at (stones game_state) idx = Some stone
    /\ target_loop game_state l g
       = (let (m, g') := hit game_state idx stone g in (Some m, g'))
    /\ (forall j other,
          In j l -> team j <> Team_index (g_team g) ->
          stone_at (stones game_state) j = Some other ->
          farther stone other = false).
Proof.
  induction l as [|idx0 rest IH]; intros Hs (idx & Hin & Hteam & Hon).
  - destruct Hin.
  - apply StronglySorted_cons in Hs as [Hall Hs].
    rewrite Forall_forall in Hall.
    destruct (decide (team idx0 = Team_index (g_team g))) as [E|E].
    + destruct IH as (i & st & Hi & Ht & Hst & Eq & Hnear).
      * exact Hs.
      * exists idx. split_and!; try assumption.
        destruct Hin as [<- | Hin]; [contradiction|exact Hin].
      * exists i, st. split_and!; auto.
        -- right. exact Hi.
        -- cbn [target_loop]. rewrite decide_True by exact E. exact Eq.
        -- intros j other [<- | Hj] Hjt Hjo; [contradiction|eauto].
    + destruct (stone_at (stones game_state) idx0) as [stone|] eqn:E0.
      * exists idx0, stone. split_and!; auto.
        -- left. reflexivity.
        -- cbn [target_loop]. rewrite decide_False by exact E. rewrite E0.
           unfold bind, ret. destruct (hit _ _ _ g) as [m g1]. reflexivity.
        -- intros j other [<- | Hj] Hjt Hjo.
           ++ rewrite E0 in Hjo. injection Hjo as <-. apply farther_irrefl.
           ++ specialize (Hall j (proj2 (list_elem_of_In _ _) Hj)).
              unfold precedes in Hall. rewrite E0, Hjo in Hall.
              exact (proj1 Hall).
      * exfalso. destruct Hin as [<- | Hin].
        -- rewrite E0 in Hon. destruct Hon as [? [=]].
        -- specialize (Hall idx (proj2 (list_elem_of_In _ _) Hin)).
           unfold precedes in Hall. rewrite E0 in Hall.
           destruct Hon as [a Ha]. rewrite Ha in Hall. exact Hall.
Qed.

(** X13.  When an opponent stone is on the sheet and no distance is a NaN,
    [OnMyTurn] plays against an opponent stone that is on the sheet and
    nearest to the tee among the opponent's: its move is the one of the speed
    search and the scoring for that stone, started after the [Save], and no
    opponent stone on the sheet is strictly nearer to the tee. *)
Theorem OnMyTurn_targets_nearest (game_state : GameState) (g : Globals) :
  distances_defined (stones game_state) ->
  (exists t i : nat,
     (t < 2)%nat /\ (i < 8)%nat /\ t <> Team_index (g_team g)
     /\ is_Some (stones game_state t i)) ->
  exists (idx : StoneIndex) (nearest : Transform),
    (team idx < 2)%nat /\ (stone idx < 8)%nat
    /\ team idx <> Team_index (g_team g)
    /\ stone_at (stones game_state) idx = Some nearest
    /\ OnMyTurn game_state g = hit game_state idx nearest (Save g).2
    /\ (forall (t i : nat) (other : Transform),
          (t < 2)%nat -> (i < 8)%nat -> t <> Team_index (g_team g) ->
          stones game_state t i = Some other ->
          farther nearest other = false).
Proof.
  intros Hdef (t & i & Ht & Hi & Hteam & Hon).
  pose proof (SortStones_sorted (replicate 16 {| team := 0; stone := 0 |})
                (stones game_state) (length_replicate _ _) Hdef) as Hs.
  pose proof (SortStones_perm (replicate 16 {| team := 0; stone := 0 |})
                (stones game_state) (length_replicate _ _)) as Hp.
  unfold OnMyTurn, bind, ret.
  destruct (Save g) as [[] g0] eqn:ES.
  assert (Et : g_team g0 = g_team g) by (inversion ES; reflexivity).
  destruct (target_loop_first game_state _ g0 Hs)
    as (idx & nearest & Hin & Hopp & Hst & Eq & Hnear).
  { exists {| team := t; stone := i |}. rewrite Et. split_and!.
    - apply (Permutation_in _ (Permutation_sym Hp)), init_indices_all;
        assumption.
    - exact Hteam.
    - exact Hon. }
  rewrite Et in Hopp.
  apply (Permutation_in _ Hp) in Hin.
  destruct (init_indices_range _ Hin) as [Hr1 Hr2].
  exists idx, nearest. rewrite Eq. cbn [snd].
  split_and!; try assumption.
  - destruct (hit _ _ _ g0) as [m g1]. reflexivity.
  - intros t' i' other Ht' Hi' Hteam' Hother.
    apply (Hnear {| team := t'; stone := i' |}).
    + apply (Permutation_in _ (Permutation_sym Hp)), init_indices_all;
        assumption.
    + rewrite Et. exact Hteam'.
    + exact Hother.
Qed.

(** X14.  The [while] loop of the estimator's trial stops at the first step
    at which the trial stone is no longer on its way and faster than
    [target_speed]: it makes [k] steps of the simulator, at every earlier
    step the stone was still fast, and the position returned is the
    position of the stone after these [k] steps.  Only when the bound on
    the steps is used up can the stone still be fast at the end. *)
Theorem trial_loop_first_slow (fuel : nat) (target_speed : float32) :
  forall s : SimState,
    exists k : nat,
      (k <= fuel)%nat
      /\ (trial_loop fuel target_speed s).2 = Nat.iter k Step s
      /\ (trial_loop fuel target_speed s).1
         = trial_position (Nat.iter k Step s)
      /\ (forall j, (j < k)%nat ->
                    still_fast target_speed (Nat.iter j Step s))
      /\ ((k < fuel)%nat ->
          ~ still_fast target_speed (Nat.iter k Step s)).
Proof.
  induction fuel as [|fuel IH]; intros s.
  - exists 0%nat. simpl. split_and!; try reflexivity; lia.
  - simpl. destruct (AreAllStonesStopped s) eqn:Estop.
    { exists 0%nat. simpl. split_and!; try reflexivity; try lia.
      intros _ [H _]. congruence. }
    destruct (GetStones s 0%nat) as [st|] eqn:Est.
    2:{ exists 0%nat. simpl. unfold trial_position. rewrite Est.
        split_and!; try reflexivity; try lia.
        intros _ (_ & st & H & _). congruence. }
    destruct (Length (st_linear_velocity st) <=? target_speed)%f32 eqn:Eslow.
    { exists 0%nat. simpl. unfold trial_position. rewrite Est.
      split_and!; try reflexivity; try lia.
      intros _ (_ & st' & H & H'). congruence. }
    destruct (IH (Step s)) as (k & Hk & E2 & E1 & Hfast & Hstop).
    exists (S k). rewrite Nat.iter_succ_r. split_and!.
    + lia.
    + exact E2.
    + exact E1.
    + intros j Hj. destruct j as [|j].
      * simpl. split; [exact Estop|]. exists st. auto.
      * rewrite Nat.iter_succ_r. apply Hfast. lia.
    + intros Hlt. apply Hstop. lia.
Qed.

End Target_theorems.

(** ** The protocol *)

Section Protocol_theorems.

Context `{libm : Libm} `{dc : DigitalCurling3} `{wire : !Wire}.

Lemma writes_app (l1 l2 : list IO) : writes (l1 ++ l2) = writes l1 ++ writes l2.
Proof. apply omap_app. Qed.

Lemma writes_as_weaken {A : Type} (c : Run A)
  (Ok Fail Ok' Fail' : list json -> Prop) :
  writes_as c Ok Fail ->
  (forall w, Ok w -> Ok' w) -> (forall w, Fail w -> Fail' w) ->
  writes_as c Ok' Fail'.
Proof.
  intros H HO HF n. destruct (H n) as (l & E & Hl). exists l.
  split; [exact E|]. destruct ((c n).1); auto.
Qed.

Lemma quiet_ok {A : Type} (a : A) : quiet (ok a).
Proof. intros n. exists []. simpl. rewrite app_nil_r. auto. Qed.

Lemma quiet_raise {A : Type} (e : Failure) : quiet (@raise A e).
Proof. intros n. exists []. simpl. rewrite app_nil_r. auto. Qed.

Lemma writes_as_raise {A : Type} (e : Failure) (Ok Fail : list json -> Prop) :
  Fail [] -> writes_as (@raise A e) Ok Fail.
Proof. intros H n. exists []. simpl. rewrite app_nil_r. auto. Qed.

Lemma writes_as_ok {A : Type} (a : A) (Ok Fail : list json -> Prop) :
  Ok [] -> writes_as (ok a) Ok Fail.
Proof. intros H n. exists []. simpl. rewrite app_nil_r. auto. Qed.

Lemma quiet_emit (e : IO) :
  (forall j, e <> WriteLine j) -> quiet (emit e).
Proof.
  intros H n. exists [e]. simpl. split; [reflexivity|].
  destruct e; try reflexivity. exfalso. exact (H j eq_refl).
Qed.

Lemma writes_as_and_then {A B : Type} (c : Run A) (k : A -> Run B)
  (Ok1 Fail1 Ok2 Fail2 : list json -> Prop) :
  writes_as c Ok1 Fail1 ->
  (forall a, writes_as (k a) Ok2 Fail2) ->
  writes_as (and_then c k)
    (fun w => exists w1 w2, w = w1 ++ w2 /\ Ok1 w1 /\ Ok2 w2)
    (fun w => Fail1 w \/ exists w1 w2, w = w1 ++ w2 /\ Ok1 w1 /\ Fail2 w2).
Proof.
  intros Hc Hk n. destruct (Hc n) as (l1 & E1 & H1).
  destruct (and_then_cases c k n) as [(e & n1 & Ec & ->)|(a & n1 & Ec & ->)];
    rewrite Ec in E1, H1; cbn [fst snd] in *.
  - exists l1. split; [exact E1|]. left. exact H1.
  - destruct (Hk a n1) as (l2 & E2 & H2). exists (l1 ++ l2).
    rewrite E2, E1, <- app_assoc, writes_app. split; [reflexivity|].
    destruct ((k a n1).1); [right|]; exists (writes l1), (writes l2); auto.
Qed.

Lemma quiet_and_then {A B : Type} (c : Run A) (k : A -> Run B) :
  quiet c -> (forall a, quiet (k a)) -> quiet (and_then c k).
Proof.
  intros Hc Hk.
  eapply writes_as_weaken; [exact (writes_as_and_then _ _ _ _ _ _ Hc Hk)| |].
  - intros w (w1 & w2 & -> & -> & ->). reflexivity.
  - intros w [->|(w1 & w2 & -> & -> & ->)]; reflexivity.
Qed.

(** After a quiet beginning. *)
Lemma writes_as_after_quiet {A B : Type} (c : Run A) (k : A -> Run B)
  (Ok Fail : list json -> Prop) :
  quiet c -> Fail [] -> (forall a, writes_as (k a) Ok Fail) ->
  writes_as (and_then c k) Ok Fail.
Proof.
  intros Hc HF Hk.
  eapply writes_as_weaken; [exact (writes_as_and_then _ _ _ _ _ _ Hc Hk)| |].
  - intros w (w1 & w2 & -> & -> & H). exact H.
  - intros w [->|(w1 & w2 & -> & -> & H)]; assumption.
Qed.

Lemma quiet_cout (l : Line) : quiet (cout l).
Proof. apply quiet_emit. discriminate. Qed.

Lemma quiet_at_key (j : json) (key : string) : quiet (at_key j key).
Proof.
  unfold at_key. destruct j; try apply quiet_raise.
  destruct (find _ _); [apply quiet_ok|apply quiet_raise].
Qed.

Lemma quiet_get_string (j : json) : quiet (get_string j).
Proof. destruct j; try apply quiet_raise. apply quiet_ok. Qed.

Lemma quiet_get_int (j : json) : quiet (get_int j).
Proof.
  destruct j; cbn [get_int]; try apply quiet_raise.
  - apply quiet_ok.
  - destruct (_ && _); [apply quiet_ok|apply quiet_raise].
  - destruct (int_of_double f); [apply quiet_ok|apply quiet_raise].
Qed.

Lemma quiet_get {T : Type} (decode : json -> option T) (j : json) :
  quiet (get decode j).
Proof. unfold get. destruct (decode j); [apply quiet_ok|apply quiet_raise]. Qed.

Lemma quiet_get_factory {T : Type} (decode : json -> option T) (j : json) :
  quiet (get_factory decode j).
Proof.
  unfold get_factory. destruct (decode j); [apply quiet_ok|].
  apply quiet_and_then; [apply quiet_cout|]. intros _. apply quiet_ok.
Qed.

Lemma quiet_check_command (jin : json) (expected_cmd : string) :
  quiet (check_command jin expected_cmd).
Proof.
  unfold check_command. apply quiet_and_then; [apply quiet_at_key|].
  intros cmd. apply quiet_and_then; [apply quiet_get_string|].
  intros actual. destruct (String.eqb _ _); [apply quiet_ok|apply quiet_raise].
Qed.

Lemma quiet_read_next_line : quiet read_next_line.
Proof.
  unfold read_next_line. apply quiet_and_then.
  - apply quiet_emit. discriminate.
  - intros _ n. exists []. rewrite app_nil_r.
    destruct (inbound n); simpl; auto.
Qed.

Lemma quiet_receive (expected_cmd : string) : quiet (receive expected_cmd).
Proof.
  unfold receive. apply quiet_and_then; [apply quiet_read_next_line|].
  intros line. apply quiet_and_then.
  - destruct line; [apply quiet_ok|apply quiet_raise].
  - intros jin. apply quiet_and_then; [apply quiet_check_command|].
    intros _. apply quiet_ok.
Qed.

Lemma quiet_connect (host port : string) : quiet (connect host port).
Proof.
  unfold connect. apply quiet_and_then.
  - apply quiet_emit. discriminate.
  - intros _ n. exists []. rewrite app_nil_r.
    destruct (reachable n); simpl; auto.
Qed.

Ltac quiet_steps :=
  repeat first
    [ apply quiet_ok | apply quiet_raise | apply quiet_cout
    | apply quiet_at_key | apply quiet_get_string | apply quiet_get_int
    | apply quiet_get | apply quiet_get_factory
    | apply quiet_receive | apply quiet_check_command
    | apply quiet_and_then; [|intros ?] ].

Lemma quiet_in_dc : quiet in_dc.
Proof.
  unfold in_dc. quiet_steps. destruct (negb _); quiet_steps.
Qed.

Lemma quiet_in_new_game : quiet in_new_game.
Proof. unfold in_new_game. quiet_steps. Qed.

Lemma quiet_in_game_over : quiet in_game_over.
Proof. unfold in_game_over. quiet_steps. Qed.

Lemma quiet_OnGameOver (game_state : GameState) (g : Globals) :
  quiet (OnGameOver game_state g).
Proof.
  unfold OnGameOver. destruct (game_result game_state); [|apply quiet_ok].
  destruct (decide _); apply quiet_cout.
Qed.

Lemma quiet_cout_all (ls : list Line) : quiet (cout_all ls).
Proof. induction ls; simpl; quiet_steps. exact IHls. Qed.

Lemma quiet_player_factory_at (j : json) (i : nat) :
  quiet (player_factory_at j i).
Proof.
  unfold player_factory_at. destruct j; quiet_steps.
  destruct (_ !! _); quiet_steps.
Qed.

Lemma quiet_read_player_factories (j : json) (indices : list nat) :
  quiet (read_player_factories j indices).
Proof.
  induction indices; simpl; [apply quiet_ok|].
  apply quiet_and_then; [apply quiet_player_factory_at|intros ?].
  quiet_steps. exact IHindices.
Qed.

Lemma writes_as_write (j : json) :
  writes_as (write j) (fun w => w = [j]) (fun w => w = []).
Proof.
  intros n. unfold write. destruct (writes_left n).
  - exists []. simpl. rewrite app_nil_r. auto.
  - exists [WriteLine j]. simpl. auto.
Qed.

(** A write followed by quiet steps. *)
Lemma writes_as_write_then {B : Type} (j : json) (k : unit -> Run B) :
  (forall a, quiet (k a)) ->
  writes_as (and_then (write j) k) (fun w => w = [j]) (fun w => w = [] \/ w = [j]).
Proof.
  intros Hk.
  eapply writes_as_weaken;
    [exact (writes_as_and_then _ _ _ _ _ _ (writes_as_write j) Hk)| |].
  - intros w (w1 & w2 & -> & -> & ->). reflexivity.
  - intros w [->|(w1 & w2 & -> & -> & ->)]; auto.
Qed.

Lemma writes_out_dc_ok :
  writes_as out_dc_ok (fun w => w = [dc_ok_message])
            (fun w => w = [] \/ w = [dc_ok_message]).
Proof.
  unfold out_dc_ok. apply writes_as_write_then. intros _. apply quiet_cout.
Qed.

Ltac after_quiet :=
  apply writes_as_after_quiet;
  [ first [ apply quiet_receive | apply quiet_at_key | apply quiet_get_string
          | apply quiet_get | apply quiet_get_factory | apply quiet_cout
          | apply quiet_read_player_factories | apply quiet_cout_all
          | apply quiet_connect | apply quiet_in_dc | apply quiet_in_new_game ]
  | | intros ? ].

Lemma writes_in_is_ready :
  writes_as in_is_ready (fun w => w = [ready_ok_message])
            (fun w => w = [] \/ w = [ready_ok_message]).
Proof.
  unfold in_is_ready.
  do 4 (after_quiet; [left; reflexivity|]).
  destruct (negb _).
  { apply writes_as_raise. left. reflexivity. }
  do 10 (after_quiet; [left; reflexivity|]).
  cbv zeta. destruct (OnInit _ _ _ _ _) as [g printed].
  after_quiet; [left; reflexivity|].
  apply writes_as_write_then. intros _. quiet_steps.
Qed.

Lemma writes_update_loop (fuel : nat) :
  forall (team : Team) (g : Globals),
    writes_as (update_loop fuel team g)
      (fun w => exists moves, w = map move_message moves)
      (fun w => exists moves, w = map move_message moves).
Proof.
  induction fuel as [|fuel IH]; intros team g.
  - apply writes_as_raise. exists []. reflexivity.
  - cbn [update_loop].
    do 4 (after_quiet; [exists []; reflexivity|]).
    destruct (bool_decide _).
    { apply writes_as_ok. exists []. reflexivity. }
    destruct (decide _).
    + destruct (OnMyTurn _ _) as [move g'].
      eapply writes_as_weaken.
      * apply writes_as_and_then; [apply writes_as_write|]. intros _.
        apply writes_as_after_quiet;
          [apply quiet_cout| |intros _; apply IH].
        exists []. reflexivity.
      * cbv beta. intros w (w1 & w2 & -> & -> & moves & ->).
        exists (move :: moves). reflexivity.
      * cbv beta. intros w [->|(w1 & w2 & -> & -> & moves & ->)].
        -- exists []. reflexivity.
        -- exists (move :: moves). reflexivity.
    + destruct (OnOpponentTurn _ _) as [u g']. apply IH.
Qed.

Lemma writes_session (host port : string) :
  writes_as (session host port) in_protocol_order in_protocol_order.
Proof.
  assert (P0 : in_protocol_order []).
  { exists []. apply prefix_nil. }
  assert (P1 : in_protocol_order [dc_ok_message]).
  { exists []. apply prefix_cons, prefix_nil. }
  assert (P2 : forall moves,
             in_protocol_order
               (dc_ok_message :: ready_ok_message :: map move_message moves)).
  { intros moves. exists moves. reflexivity. }
  unfold session.
  do 2 (after_quiet; [exact P0|]).
  eapply writes_as_weaken.
  - apply writes_as_and_then; [apply writes_out_dc_ok|]. intros _.
    apply writes_as_and_then; [apply writes_in_is_ready|]. intros tg.
    apply writes_as_after_quiet; [apply quiet_in_new_game| |intros _].
    2: { apply (writes_as_and_then _ _
                  (fun w => exists moves, w = map move_message moves)
                  (fun w => exists moves, w = map move_message moves)).
         - intros n. apply (writes_update_loop _ (fst tg) (snd tg) n).
         - intros sg. apply quiet_and_then; [apply quiet_in_game_over|].
           intros _. apply quiet_OnGameOver. }
    cbv beta. left. exists []. reflexivity.
  - cbv beta.
    intros w (w1 & w2 & -> & -> & w3 & w4 & -> & -> & w5 & w6 & -> &
              (moves & ->) & ->).
    rewrite app_nil_r. apply P2.
  - cbv beta.
    intros w [[->| ->]|(w1 & w2 & -> & -> & H)]; [exact P0|exact P1|].
    destruct H as [[->| ->]|(w3 & w4 & -> & -> & H)];
      [exact P1|apply (P2 [])|].
    destruct H as [(moves & ->)|(w5 & w6 & -> & (moves & ->) & ->)].
    + apply P2.
    + rewrite app_nil_r. apply P2.
Qed.

(** X15.  Whatever arrives and however the run ends, what [main] has written
    to the socket is a beginning of: "dc_ok", "ready_ok", then "move"
    messages only. *)
Theorem main_write_order (argv : list string) (n : Net) :
  exists l : list IO,
    io (main argv n).2 = io n ++ l /\ in_protocol_order (writes l).
Proof.
  assert (T : writes_as (try_block argv) in_protocol_order in_protocol_order).
  { unfold try_block. destruct (negb _).
    - eapply writes_as_weaken; [apply quiet_and_then|..].
      + apply quiet_emit. discriminate.
      + intros _. apply quiet_ok.
      + cbv beta. intros w ->. exists []. apply prefix_nil.
      + cbv beta. intros w ->. exists []. apply prefix_nil.
    - eapply writes_as_weaken;
        [apply writes_as_and_then;
         [apply writes_session|intros a; apply (quiet_ok None)]| |].
      + cbv beta. intros w (w1 & w2 & -> & H & ->). rewrite app_nil_r. exact H.
      + cbv beta. intros w [H|(w1 & w2 & -> & H & ->)];
          [|rewrite app_nil_r]; exact H. }
  destruct (T n) as (l & E & H). unfold main, bind.
  destruct (try_block argv n) as [[e|[c|]] n1]; cbn [fst snd] in *.
  - exists (l ++ [Cerr (ExceptionLine e)]). unfold cerr, emit. simpl.
    rewrite E, <- app_assoc, writes_app. simpl. rewrite app_nil_r.
    split; [reflexivity|exact H].
  - exists l. simpl. auto.
  - exists l. simpl. auto.
Qed.

Lemma and_then_emit {B : Type} (e : IO) (k : unit -> Run B) (n : Net) :
  and_then (emit e) k n
  = k tt {| reachable := reachable n; inbound := inbound n;
            writes_left := writes_left n; io := io n ++ [e] |}.
Proof. reflexivity. Qed.

Lemma and_then_write {B : Type} (j : json) (k : unit -> Run B) (n : Net)
  (left_ : nat) :
  writes_left n = S left_ ->
  and_then (write j) k n
  = k tt {| reachable := reachable n; inbound := inbound n;
            writes_left := left_; io := io n ++ [WriteLine j] |}.
Proof.
  intros H. unfold and_then, bind, write. rewrite H. reflexivity.
Qed.

(** X16.  The update loop over a whole match.  When the lines
    to come are "update" messages of which the last one, and no one before
    it, carries a match result, and the transport takes the writes, the loop
    returns the last game state; it has answered the updates where the turn
    is its team's, in their order, each with the move that [OnMyTurn]
    gives from the global variables the turn before has left, and it has
    written nothing on the other turns; the lines after the last update are
    left unread. *)
Theorem update_loop_replies (turns : list GameState) :
  forall (fuel : nat) (team : Team) (g : Globals) (n : Net)
         (lines rest : list RawLine) (final : GameState),
    Forall2 carries_update lines (turns ++ [final]) ->
    Forall (fun game_state => game_result game_state = None) turns ->
    is_Some (game_result final) ->
    inbound n = lines ++ rest ->
    (length (replies team g turns).1 <= writes_left n)%nat ->
    (length turns < fuel)%nat ->
    update_loop fuel team g n
    = (inr (final, (replies team g turns).2),
       {| reachable := reachable n;
          inbound := rest;
          writes_left := writes_left n - length (replies team g turns).1;
          io := io n
                ++ update_trace team turns (replies team g turns).1
                ++ [ReadLine; Cout (InUpdate (end_ final) (shot final))] |}).
Proof.
  induction turns as [|game_state turns IH];
    intros fuel team g n lines rest final Hl Hn Hf Hin Hw Hfuel.
  - apply Forall2_cons_inv_r in Hl
      as (line & lines' & (jin & jstate & -> & Hc & Hs & Hd) & Hl' & ->).
    apply Forall2_nil_inv_r in Hl' as ->.
    destruct fuel as [|fuel]; [simpl in Hfuel; lia|]. cbn [update_loop].
    rewrite (and_then_step _ _ _ _ _ (receive_ok n jin rest _ Hin Hc)).
    rewrite Hs, and_then_ok. unfold get. rewrite Hd, and_then_ok.
    rewrite (bool_decide_eq_true_2 _ Hf).
    unfold and_then, bind, cout, emit, ok, ret.
    cbn [inbound reachable writes_left io replies update_trace fst snd length].
    rewrite Nat.sub_0_r, <- app_assoc. reflexivity.
  - rewrite <- app_comm_cons in Hl.
    apply Forall2_cons_inv_r in Hl
      as (line & lines' & (jin & jstate & -> & Hc & Hs & Hd) & Hl' & ->).
    apply Forall_cons in Hn as [Hnone Hn].
    destruct fuel as [|fuel]; [simpl in Hfuel; lia|].
    cbn [length] in Hfuel. cbn [update_loop].
    rewrite (and_then_step _ _ _ _ _
               (receive_ok n jin (lines' ++ rest) _ Hin Hc)).
    rewrite Hs, and_then_ok. unfold get. rewrite Hd, and_then_ok.
    rewrite bool_decide_eq_false_2
      by (rewrite Hnone; intros [r Hr]; discriminate).
    unfold cout at 1. rewrite and_then_emit.
    cbn [replies update_trace] in *.
    destruct (decide (GetNextTeam game_state = team)) as [Hmine|Hother].
    + destruct (OnMyTurn game_state g) as [move g'] eqn:Emove.
      destruct (replies team g' turns) as [moves g''] eqn:Erep.
      cbn [fst snd length] in *.
      destruct (writes_left n) as [|k] eqn:Ek; [lia|].
      rewrite (and_then_write _ _ _ k) by reflexivity.
      unfold cout at 1. rewrite and_then_emit.
      erewrite (IH fuel team g');
        [|exact Hl'|exact Hn|exact Hf|reflexivity
         |rewrite Erep; cbn [writes_left fst]; lia|lia].
      rewrite Erep. cbn [inbound reachable writes_left io fst snd].
      f_equal. f_equal. rewrite <- !app_assoc. reflexivity.
    + unfold OnOpponentTurn, ret.
      erewrite (IH fuel team g);
        [|exact Hl'|exact Hn|exact Hf|reflexivity|exact Hw|lia].
      cbn [inbound reachable writes_left io fst snd].
      f_equal. f_equal. rewrite <- !app_assoc. reflexivity.
Qed.

(** X17.  A command other than the expected one.  [receive] takes the line
    off the transport and throws the exception that names both commands;
    nothing is written or printed. *)
Theorem receive_unexpected_cmd (n : Net) (jin : json) (rest : list RawLine)
  (expected_cmd actual_cmd : string) :
  inbound n = Parses jin :: rest ->
  at_key jin "cmd" = ok (JString actual_cmd) ->
  actual_cmd <> expected_cmd ->
  receive expected_cmd n
  = (inl (UnexpectedCmd expected_cmd actual_cmd),
     {| reachable := reachable n; inbound := rest;
        writes_left := writes_left n; io := io n ++ [ReadLine] |}).
Proof.
  intros Hin Hcmd Hne. unfold receive.
  rewrite (and_then_step _ _ _ _ _ (read_next_line_ok n _ _ Hin)).
  cbn [parse]. rewrite and_then_ok. unfold check_command.
  rewrite Hcmd, and_then_ok. cbn [get_string]. rewrite and_then_ok.
  apply String.eqb_neq in Hne. rewrite Hne. reflexivity.
Qed.

Lemma at_key_raises (j : json) (key : string) (n n' : Net) (e : Failure) :
  at_key j key n = (inl e, n') -> e = JsonError.
Proof.
  unfold at_key. destruct j; try (intros [= <- _]; reflexivity).
  destruct (find _ _); [discriminate|intros [= <- _]; reflexivity].
Qed.

Lemma get_string_raises (j : json) (n n' : Net) (e : Failure) :
  get_string j n = (inl e, n') -> e = JsonError.
Proof.
  destruct j; intros [= <- _]; reflexivity.
Qed.

(** X18.  The version test of the "dc" block.  The version is what
    [get<int>()] reads from [version.major]: a 64-bit integer modulo
    [2^32], a [double] without its fractional part, [true] as 1.  When that
    value is not 1, [in_dc] throws "Unexpected protocol version" before it
    prints anything, whatever the rest of the message is; when it is 1,
    [in_dc] does not throw that exception. *)
Theorem in_dc_rejects_version (n : Net) (jin jversion jmajor : json)
  (rest : list RawLine) (major : Z) :
  inbound n = Parses jin :: rest ->
  at_key jin "cmd" = ok (JString "dc") ->
  at_key jin "version" = ok jversion ->
  at_key jversion "major" = ok jmajor ->
  get_int jmajor = ok major ->
  (major <> kSupportedProtocolVersionMajor ->
   in_dc n
   = (inl UnexpectedProtocolVersion,
      {| reachable := reachable n; inbound := rest;
         writes_left := writes_left n; io := io n ++ [ReadLine] |}))
  /\ (major = kSupportedProtocolVersionMajor ->
      (in_dc n).1 <> inl UnexpectedProtocolVersion).
Proof.
  intros Hin Hcmd Hv Hm Hint. unfold in_dc.
  rewrite (and_then_step _ _ _ _ _ (receive_ok n jin rest _ Hin Hcmd)).
  rewrite Hv, and_then_ok, Hm, and_then_ok, Hint, and_then_ok.
  split.
  - intros Hne. apply Z.eqb_neq in Hne. rewrite Hne. reflexivity.
  - intros ->. rewrite Z.eqb_refl. cbn [negb].
    unfold cout at 1. rewrite and_then_emit.
    repeat match goal with
    | |- (and_then (cout ?l) ?k ?m).1 <> _ =>
        unfold cout at 1; rewrite and_then_emit
    | |- (and_then ?c ?k ?m).1 <> _ =>
        let e := fresh "e" in
        let m' := fresh "m" in
        let a := fresh "a" in
        let E := fresh "E" in
        destruct (and_then_cases c k m) as [(e & m' & E & ->)|(a & m' & E & ->)];
        [first [apply at_key_raises in E | apply get_string_raises in E];
         subst e; discriminate|]
    end.
    discriminate.
Qed.

Lemma get_factory_run {T : Type} (decode : json -> option T) (j : json)
  (n : Net) :
  exists l : list IO,
    get_factory decode j n
    = (inr (decode j),
       {| reachable := reachable n; inbound := inbound n;
          writes_left := writes_left n; io := io n ++ l |})
    /\ writes l = [].
Proof.
  unfold get_factory. destruct (decode j).
  - exists []. rewrite app_nil_r. destruct n. split; reflexivity.
  - exists [Cout (ExceptionLine JsonError)]. split; reflexivity.
Qed.

Lemma cout_all_run (ls : list Line) :
  forall n : Net,
    cout_all ls n
    = (inr tt,
       {| reachable := reachable n; inbound := inbound n;
          writes_left := writes_left n; io := io n ++ map Cout ls |}).
Proof.
  induction ls as [|l ls IH]; intros n; cbn [cout_all map].
  - rewrite app_nil_r. destruct n. reflexivity.
  - unfold cout at 1. rewrite and_then_emit, IH.
    cbn [inbound reachable writes_left io]. rewrite <- app_assoc. reflexivity.
Qed.

Lemma writes_map_Cout (ls : list Line) : writes (map Cout ls) = [].
Proof. induction ls; [reflexivity|exact IHls]. Qed.

Lemma read_player_factories_run (factories : list json) (count : nat) :
  forall (first : nat) (n : Net),
    (first + count <= length factories)%nat ->
    exists l : list IO,
      read_player_factories (JArray factories) (seq first count) n
      = (inr (map PlayerFactory_of_json (take count (drop first factories))),
         {| reachable := reachable n; inbound := inbound n;
            writes_left := writes_left n; io := io n ++ l |})
      /\ writes l = [].
Proof.
  induction count as [|count IH]; intros first n Hle.
  - exists []. rewrite app_nil_r. destruct n. split; reflexivity.
  - cbn [seq read_player_factories].
    destruct (lookup_lt_is_Some_2 factories first) as [j Hj]; [lia|].
    unfold player_factory_at. rewrite Hj.
    destruct (get_factory_run PlayerFactory_of_json j n) as (l1 & E1 & W1).
    rewrite (and_then_step _ _ _ _ _ E1).
    destruct (IH (S first)
                {| reachable := reachable n; inbound := inbound n;
                   writes_left := writes_left n; io := io n ++ l1 |})
      as (l2 & E2 & W2); [lia|].
    rewrite (and_then_step _ _ _ _ _ E2).
    exists (l1 ++ l2). cbn [inbound reachable writes_left io].
    rewrite writes_app, W1, W2, app_assoc.
    rewrite (drop_S _ _ _ Hj). split; reflexivity.
Qed.

(** X19.  An "is_ready" message whose rule is not "normal" is refused:
    [in_is_ready] throws before it reads the team or the settings; nothing
    is printed, [OnInit] is not reached and no "ready_ok" is written. *)
Theorem in_is_ready_rejects_rule (n : Net) (jin jgame : json)
  (rest : list RawLine) (rule : string) :
  inbound n = Parses jin :: rest ->
  at_key jin "cmd" = ok (JString "is_ready") ->
  at_key jin "game" = ok jgame ->
  at_key jgame "rule" = ok (JString rule) ->
  rule <> "normal"%string ->
  in_is_ready n
  = (inl UnexpectedRule,
     {| reachable := reachable n; inbound := rest;
        writes_left := writes_left n; io := io n ++ [ReadLine] |}).
Proof.
  intros Hin Hcmd Hg Hr Hne. unfold in_is_ready.
  rewrite (and_then_step _ _ _ _ _ (receive_ok n jin rest _ Hin Hcmd)).
  rewrite Hg, and_then_ok, Hr, and_then_ok. cbn [get_string].
  rewrite and_then_ok. apply String.eqb_neq in Hne. rewrite Hne. reflexivity.
Qed.

(** X20.  An "is_ready" message of a match under the normal rule is
    accepted whatever its simulator and its player factories are.  The
    global variables are those of [OnInit] for the team and the setting of
    the message, with the simulator factory and the first four player
    factories as far as they can be decoded, the others absent, and the
    player order 0, 1, 2, 3; exactly one message is written, "ready_ok" with
    that order. *)
Theorem in_is_ready_accepts (n : Net) (jin jgame jteam jsetting : json)
  (jin_simulator jplayers : json) (factories : list json)
  (rest : list RawLine) (team : Team) (game_setting : GameSetting)
  (left_ : nat) :
  inbound n = Parses jin :: rest ->
  at_key jin "cmd" = ok (JString "is_ready") ->
  at_key jin "game" = ok jgame ->
  at_key jgame "rule" = ok (JString "normal") ->
  at_key jin "team" = ok jteam ->
  Team_of_json jteam = Some team ->
  at_key jgame "setting" = ok jsetting ->
  GameSetting_of_json jsetting = Some game_setting ->
  at_key jgame "simulator" = ok jin_simulator ->
  at_key jgame "players" = ok jplayers ->
  at_key jplayers (ToString team) = ok (JArray factories) ->
  (4 <= length factories)%nat ->
  writes_left n = S left_ ->
  exists l : list IO,
    in_is_ready n
    = (inr (team,
            (OnInit team game_setting
                    (SimulatorFactory_of_json jin_simulator)
                    (map PlayerFactory_of_json (take 4 factories))
                    [0; 1; 2; 3]%nat).1),
       {| reachable := reachable n; inbound := rest;
          writes_left := left_; io := io n ++ l |})
    /\ writes l = [ready_ok_message].
Proof.
  intros Hin Hcmd Hg Hr Ht Htd Hs Hsd Hsim Hp Hf Hlen Hw. unfold in_is_ready.
  rewrite (and_then_step _ _ _ _ _ (receive_ok n jin rest _ Hin Hcmd)).
  rewrite Hg, and_then_ok, Hr, and_then_ok. cbn [get_string].
  rewrite and_then_ok.
  change (negb ("normal" =? "normal")%string) with false. cbv iota.
  rewrite Ht, and_then_ok. unfold get at 1. rewrite Htd, and_then_ok.
  rewrite Hs, and_then_ok. unfold get at 1. rewrite Hsd, and_then_ok.
  rewrite Hsim, and_then_ok.
  match goal with
  | |- context [and_then (get_factory ?d ?j) ?k ?m] =>
      destruct (get_factory_run d j m) as (l1 & E1 & W1)
  end.
  rewrite (and_then_step _ _ _ _ _ E1).
  rewrite Hp, and_then_ok, Hf, and_then_ok.
  match goal with
  | |- context [and_then (read_player_factories _ _) ?k ?m] =>
      destruct (read_player_factories_run factories 4 0 m) as (l2 & E2 & W2);
        [simpl; lia|]
  end.
  rewrite (and_then_step _ _ _ _ _ E2).
  unfold cout at 1. rewrite and_then_emit. cbv zeta.
  rewrite drop_0.
  destruct (OnInit team game_setting (SimulatorFactory_of_json jin_simulator)
              (map PlayerFactory_of_json (take 4 factories)) [0; 1; 2; 3]%nat)
    as [g printed] eqn:EI.
  rewrite (and_then_step _ _ _ _ _ (cout_all_run printed _)).
  rewrite (and_then_write _ _ _ left_)
    by (cbn [inbound reachable writes_left io]; exact Hw).
  unfold cout, and_then, bind, emit, ok, ret.
  cbn [inbound reachable writes_left io fst snd].
  eexists. split.
  - f_equal. f_equal. rewrite <- !app_assoc. reflexivity.
  - rewrite !writes_app, W1, W2, writes_map_Cout. reflexivity.
Qed.

End Protocol_theorems.

Section Verdict_theorems.

Context `{libm : Libm} `{dc : DigitalCurling3} `{wire : !Wire}.

(** The next step of the computation in the goal fails, which closes the
    goal with [tac], or goes on. *)
Ltac step_or tac a n' Hc :=
  match goal with
  | |- context [and_then ?c ?k ?n] =>
      let e := fresh "e" in
      destruct (and_then_cases c k n) as [(e & n' & Hc & ->)|(a & n' & Hc & ->)];
      [solve [tac]|]
  end.

(** The next step of the computation in [H], which has not failed. *)
Ltac advance H a n' Hc :=
  match type of H with
  | context [and_then ?c ?k ?n] =>
      let e := fresh "e" in
      let R := fresh "R" in
      destruct (and_then_cases c k n) as [(e & n' & Hc & R)|(a & n' & Hc & R)];
      rewrite R in H |- *; clear R; [discriminate H|]
  end.

(** The update loop returns only from an update that carries a result. *)
Lemma update_loop_result (fuel : nat) :
  forall (team : Team) (g : Globals) (n : Net),
    match (update_loop fuel team g n).1 with
    | inr (game_state, _) => is_Some (game_result game_state)
    | inl _ => True
    end.
Proof.
  induction fuel as [|fuel IH]; intros team g n; [exact I|].
  cbn [update_loop].
  step_or ltac:(exact I) jin n1 E1.
  step_or ltac:(exact I) jstate n2 E2.
  step_or ltac:(exact I) game_state n3 E3.
  step_or ltac:(exact I) u4 n4 E4.
  destruct (bool_decide_reflect (is_Some (game_result game_state)))
    as [Hres|Hres]; [exact Hres|].
  destruct (decide _).
  - destruct (OnMyTurn game_state g) as [move g'].
    step_or ltac:(exact I) u5 n5 E5.
    step_or ltac:(exact I) u6 n6 E6.
    apply IH.
  - destruct (OnOpponentTurn game_state g) as [u g']. apply IH.
Qed.

Lemma writes_as_io {A : Type} (c : Run A) (Ok Fail : list json -> Prop)
  (n n' : Net) (r : Failure + A) :
  writes_as c Ok Fail -> c n = (r, n') -> exists l, io n' = io n ++ l.
Proof.
  intros W E. destruct (W n) as (l & El & _). rewrite E in El.
  exists l. exact El.
Qed.

(** X21.  A session that ends without an exception has printed its verdict:
    the last two lines on standard output are "[in] game_over" and then
    "won the game" or "lost the game".  The game state that [OnGameOver]
    receives always carries a result, so that [game_result->winner] is never
    read from an empty optional. *)
Theorem session_verdict (host port : string) (n : Net) :
  (session host port n).1 = inr tt ->
  exists (l : list IO) (verdict : Line),
    io (session host port n).2 = io n ++ l ++ [Cout InGameOver; Cout verdict]
    /\ (verdict = WonTheGame \/ verdict = LostTheGame).
Proof.
  unfold session. intros H.
  advance H u1 n1 E1.
  destruct (writes_as_io _ _ _ _ _ _ (quiet_connect host port) E1) as [l1 L1].
  advance H u2 n2 E2.
  destruct (writes_as_io _ _ _ _ _ _ quiet_in_dc E2) as [l2 L2].
  advance H u3 n3 E3.
  destruct (writes_as_io _ _ _ _ _ _ writes_out_dc_ok E3) as [l3 L3].
  advance H tg n4 E4.
  destruct (writes_as_io _ _ _ _ _ _ writes_in_is_ready E4) as [l4 L4].
  advance H u5 n5 E5.
  destruct (writes_as_io _ _ _ _ _ _ quiet_in_new_game E5) as [l5 L5].
  advance H sg n6 E6.
  pose proof (update_loop_result (S (length (inbound n5))) tg.1 tg.2 n5) as Hres.
  cbv beta in E6. rewrite E6 in Hres. cbn [fst] in Hres.
  destruct (writes_as_io _ _ _ _ _ _
              (writes_update_loop (S (length (inbound n5))) tg.1 tg.2) E6)
    as [l6 L6].
  advance H u7 n7 E7.
  unfold in_game_over in E7.
  destruct (and_then_cases (receive "game_over") (fun _ => cout InGameOver) n6)
    as [(e & n8 & E8 & R)|(j8 & n8 & E8 & R)]; rewrite R in E7; clear R;
    [discriminate E7|].
  destruct (writes_as_io _ _ _ _ _ _ (quiet_receive "game_over") E8)
    as [l8 L8].
  injection E7 as _ <-.
  destruct sg as [game_state g]. cbn [fst snd] in *.
  destruct Hres as [r Hr]. unfold OnGameOver. rewrite Hr.
  exists (l1 ++ l2 ++ l3 ++ l4 ++ l5 ++ l6 ++ l8).
  destruct (decide (winner r = g_team g));
    [exists WonTheGame|exists LostTheGame];
    (split; [|auto]); cbn [cout emit snd io];
    rewrite L8, L6, L5, L4, L3, L2, L1, <- !app_assoc; reflexivity.
Qed.

End Verdict_theorems.

(** ** The exit status and the exceptions *)

Section Exit_theorems.

Context `{libm : Libm} `{dc : DigitalCurling3} `{wire : !Wire}.

Lemma and_then_raise {A B : Type} (c : Run A) (k : A -> Run B)
  (n n' : Net) (e : Failure) :
  c n = (inl e, n') -> and_then c k n = (inl e, n').
Proof. intros H. unfold and_then, bind. rewrite H. reflexivity. Qed.

(** The first step of the computation in [H]: it has thrown, or it has
    given [a] and left [m]. *)
Ltac open_step H a m E :=
  match type of H with
  | and_then ?c ?k ?n = _ =>
      let e0 := fresh "e" in
      let R := fresh "R" in
      destruct (and_then_cases c k n) as [(e0 & m & E & R)|(a & m & E & R)];
      rewrite R in H; clear R; [injection H as -> ->|]
  end.

(** The session throws where one of its blocks throws, and nowhere else. *)
Lemma session_raises_iff (host port : string) (n n' : Net) (e : Failure) :
  session host port n = (inl e, n') <-> session_raises host port n e n'.
Proof.
  unfold session. split.
  - intros H.
    open_step H u1 n1 E1; [eapply raises_connect; eassumption|].
    destruct u1.
    open_step H u2 n2 E2; [eapply raises_in_dc; eassumption|].
    destruct u2.
    open_step H u3 n3 E3; [eapply raises_out_dc_ok; eassumption|].
    destruct u3.
    open_step H tg n4 E4; [eapply raises_in_is_ready; eassumption|].
    open_step H u5 n5 E5; [eapply raises_in_new_game; eassumption|].
    destruct u5.
    open_step H sg n6 E6; [eapply raises_update_loop; eassumption|].
    open_step H u7 n7 E7; [eapply raises_in_game_over; eassumption|].
    destruct u7.
    eapply raises_OnGameOver; eassumption.
  - intros [H1|n1 H1 H2|n1 n2 H1 H2 H3|n1 n2 n3 H1 H2 H3 H4
           |n1 n2 n3 n4 tg H1 H2 H3 H4 H5
           |n1 n2 n3 n4 n5 tg H1 H2 H3 H4 H5 H6
           |n1 n2 n3 n4 n5 n6 tg sg H1 H2 H3 H4 H5 H6 H7
           |n1 n2 n3 n4 n5 n6 n7 tg sg H1 H2 H3 H4 H5 H6 H7 H8].
    + apply and_then_raise. exact H1.
    + rewrite (and_then_step _ _ _ _ _ H1). apply and_then_raise. exact H2.
    + rewrite (and_then_step _ _ _ _ _ H1), (and_then_step _ _ _ _ _ H2).
      apply and_then_raise. exact H3.
    + rewrite (and_then_step _ _ _ _ _ H1), (and_then_step _ _ _ _ _ H2),
        (and_then_step _ _ _ _ _ H3).
      apply and_then_raise. exact H4.
    + rewrite (and_then_step _ _ _ _ _ H1), (and_then_step _ _ _ _ _ H2),
        (and_then_step _ _ _ _ _ H3), (and_then_step _ _ _ _ _ H4).
      apply and_then_raise. exact H5.
    + rewrite (and_then_step _ _ _ _ _ H1), (and_then_step _ _ _ _ _ H2),
        (and_then_step _ _ _ _ _ H3), (and_then_step _ _ _ _ _ H4),
        (and_then_step _ _ _ _ _ H5).
      apply and_then_raise. exact H6.
    + rewrite (and_then_step _ _ _ _ _ H1), (and_then_step _ _ _ _ _ H2),
        (and_then_step _ _ _ _ _ H3), (and_then_step _ _ _ _ _ H4),
        (and_then_step _ _ _ _ _ H5).
      rewrite (and_then_step
                 (fun n => update_loop (S (length (inbound n))) tg.1 tg.2 n)
                 _ n5 n6 sg H6).
      apply and_then_raise. exact H7.
    + rewrite (and_then_step _ _ _ _ _ H1), (and_then_step _ _ _ _ _ H2),
        (and_then_step _ _ _ _ _ H3), (and_then_step _ _ _ _ _ H4),
        (and_then_step _ _ _ _ _ H5).
      rewrite (and_then_step
                 (fun n => update_loop (S (length (inbound n))) tg.1 tg.2 n)
                 _ n5 n6 sg H6).
      rewrite (and_then_step _ _ _ _ _ H7). exact H8.
Qed.

(** *** No exception of the model's own *)

Lemma fuel_free_ok {A : Type} (a : A) : fuel_free (ok a).
Proof. intros n. discriminate. Qed.

Lemma fuel_free_raise {A : Type} (e : Failure) :
  e <> OutOfFuel -> fuel_free (@raise A e).
Proof. intros H n [= E]. exact (H E). Qed.

Lemma fuel_free_and_then {A B : Type} (c : Run A) (k : A -> Run B) :
  fuel_free c -> (forall a, fuel_free (k a)) -> fuel_free (and_then c k).
Proof.
  intros Hc Hk n.
  destruct (and_then_cases c k n) as [(e & n1 & E & ->)|(a & n1 & E & ->)].
  - specialize (Hc n). rewrite E in Hc. cbn [fst] in *.
    intros [= ->]. exact (Hc eq_refl).
  - apply Hk.
Qed.

Lemma fuel_free_emit (e : IO) : fuel_free (emit e).
Proof. intros n. discriminate. Qed.

Lemma fuel_free_at_key (j : json) (key : string) : fuel_free (at_key j key).
Proof.
  unfold at_key. destruct j; try (apply fuel_free_raise; discriminate).
  destruct (find _ _); [apply fuel_free_ok|apply fuel_free_raise; discriminate].
Qed.

Lemma fuel_free_get_string (j : json) : fuel_free (get_string j).
Proof.
  destruct j; try (apply fuel_free_raise; discriminate). apply fuel_free_ok.
Qed.

Lemma fuel_free_get_int (j : json) : fuel_free (get_int j).
Proof.
  destruct j; cbn [get_int]; try (apply fuel_free_raise; discriminate).
  - apply fuel_free_ok.
  - destruct (_ && _); [apply fuel_free_ok|apply fuel_free_raise; discriminate].
  - destruct (int_of_double f);
      [apply fuel_free_ok|apply fuel_free_raise; discriminate].
Qed.

Lemma fuel_free_get {T : Type} (decode : json -> option T) (j : json) :
  fuel_free (get decode j).
Proof.
  unfold get. destruct (decode j);
    [apply fuel_free_ok|apply fuel_free_raise; discriminate].
Qed.

Lemma fuel_free_write (j : json) : fuel_free (write j).
Proof.
  intros n. unfold write. destruct (writes_left n); discriminate.
Qed.

Lemma fuel_free_connect (host port : string) : fuel_free (connect host port).
Proof.
  unfold connect. apply fuel_free_and_then; [apply fuel_free_emit|].
  intros _ n. destruct (reachable n); discriminate.
Qed.

Lemma fuel_free_receive (expected_cmd : string) :
  fuel_free (receive expected_cmd).
Proof.
  intros n. pose proof (receive_consumes expected_cmd n) as H.
  destruct (receive expected_cmd n) as [[e|j] n1]; cbn [fst].
  - intros [= ->]. exact (H eq_refl).
  - discriminate.
Qed.

Lemma fuel_free_cout (l : Line) : fuel_free (cout l).
Proof. apply fuel_free_emit. Qed.

Lemma fuel_free_get_factory {T : Type} (decode : json -> option T)
  (j : json) : fuel_free (get_factory decode j).
Proof.
  unfold get_factory. destruct (decode j); [apply fuel_free_ok|].
  apply fuel_free_and_then; [apply fuel_free_cout|intros _; apply fuel_free_ok].
Qed.

Lemma fuel_free_cout_all (ls : list Line) : fuel_free (cout_all ls).
Proof.
  induction ls; simpl; [apply fuel_free_ok|].
  apply fuel_free_and_then; [apply fuel_free_cout|intros _; exact IHls].
Qed.

Lemma fuel_free_player_factory_at (j : json) (i : nat) :
  fuel_free (player_factory_at j i).
Proof.
  assert (H : fuel_free (let? _ := cout (ExceptionLine JsonError)
                         in ok (@None PlayerFactory))).
  { apply fuel_free_and_then; [apply fuel_free_cout|].
    intros _. apply fuel_free_ok. }
  unfold player_factory_at. destruct j; try exact H.
  destruct (_ !! _); [apply fuel_free_get_factory|exact H].
Qed.

Lemma fuel_free_read_player_factories (j : json) (indices : list nat) :
  fuel_free (read_player_factories j indices).
Proof.
  induction indices as [|i indices IH]; simpl; [apply fuel_free_ok|].
  apply fuel_free_and_then; [apply fuel_free_player_factory_at|intros ?].
  apply fuel_free_and_then; [exact IH|intros ?; apply fuel_free_ok].
Qed.

Ltac fuel_steps :=
  repeat first
    [ apply fuel_free_ok | apply fuel_free_cout | apply fuel_free_at_key
    | apply fuel_free_get_string | apply fuel_free_get_int
    | apply fuel_free_get | apply fuel_free_write | apply fuel_free_receive
    | apply fuel_free_connect | apply fuel_free_get_factory
    | apply fuel_free_cout_all | apply fuel_free_read_player_factories
    | apply fuel_free_raise; discriminate
    | apply fuel_free_and_then; [|intros ?] ].

Lemma fuel_free_in_dc : fuel_free in_dc.
Proof. unfold in_dc. fuel_steps. destruct (negb _); fuel_steps. Qed.

Lemma fuel_free_out_dc_ok : fuel_free out_dc_ok.
Proof. unfold out_dc_ok. fuel_steps. Qed.

Lemma fuel_free_in_is_ready : fuel_free in_is_ready.
Proof.
  unfold in_is_ready. fuel_steps. destruct (negb _); fuel_steps.
Qed.

Lemma fuel_free_in_new_game : fuel_free in_new_game.
Proof. unfold in_new_game. fuel_steps. Qed.

Lemma fuel_free_in_game_over : fuel_free in_game_over.
Proof. unfold in_game_over. fuel_steps. Qed.

Lemma fuel_free_OnGameOver (game_state : GameState) (g : Globals) :
  fuel_free (OnGameOver game_state g).
Proof.
  unfold OnGameOver. destruct (game_result game_state); fuel_steps.
  destruct (decide _); fuel_steps.
Qed.

Lemma fuel_free_session (host port : string) : fuel_free (session host port).
Proof.
  unfold session.
  apply fuel_free_and_then; [apply fuel_free_connect|intros _].
  apply fuel_free_and_then; [apply fuel_free_in_dc|intros _].
  apply fuel_free_and_then; [apply fuel_free_out_dc_ok|intros _].
  apply fuel_free_and_then; [apply fuel_free_in_is_ready|intros tg].
  apply fuel_free_and_then; [apply fuel_free_in_new_game|intros _].
  apply fuel_free_and_then; [intros n; apply main_fuel|intros sg].
  apply fuel_free_and_then; [apply fuel_free_in_game_over|intros _].
  apply fuel_free_OnGameOver.
Qed.

(** *** The failures of the blocks *)

Lemma in_dc_receives : starts_with_receive in_dc "dc".
Proof. intros n e n' H. unfold in_dc. apply and_then_raise. exact H. Qed.

Lemma in_is_ready_receives : starts_with_receive in_is_ready "is_ready".
Proof.
  intros n e n' H. unfold in_is_ready. apply and_then_raise. exact H.
Qed.

Lemma in_new_game_receives : starts_with_receive in_new_game "new_game".
Proof.
  intros n e n' H. unfold in_new_game. apply and_then_raise. exact H.
Qed.

Lemma update_loop_receives (fuel : nat) (team : Team) (g : Globals) :
  starts_with_receive (update_loop (S fuel) team g) "update".
Proof.
  intros n e n' H. cbn [update_loop]. apply and_then_raise. exact H.
Qed.

Lemma in_game_over_receives : starts_with_receive in_game_over "game_over".
Proof.
  intros n e n' H. unfold in_game_over. apply and_then_raise. exact H.
Qed.

(** The ways in which [receive] throws. *)
Lemma receive_raises (expected_cmd : string) (n : Net) :
  (inbound n = [] ->
   receive expected_cmd n = (inl TransportError, line_read n []))
  /\ (forall rest : list RawLine,
        inbound n = Malformed :: rest ->
        receive expected_cmd n = (inl JsonError, line_read n rest))
  /\ (forall (jin : json) (rest : list RawLine),
        inbound n = Parses jin :: rest ->
        at_key jin "cmd" = raise JsonError ->
        receive expected_cmd n = (inl JsonError, line_read n rest))
  /\ (forall (jin cmd : json) (rest : list RawLine),
        inbound n = Parses jin :: rest ->
        at_key jin "cmd" = ok cmd ->
        get_string cmd = raise JsonError ->
        receive expected_cmd n = (inl JsonError, line_read n rest))
  /\ (forall (jin : json) (rest : list RawLine) (actual_cmd : string),
        inbound n = Parses jin :: rest ->
        at_key jin "cmd" = ok (JString actual_cmd) ->
        actual_cmd <> expected_cmd ->
        receive expected_cmd n
        = (inl (UnexpectedCmd expected_cmd actual_cmd), line_read n rest)).
Proof.
  unfold receive, line_read. split_and!.
  - intros Hin. apply and_then_raise.
    unfold read_next_line, and_then, bind, emit.
    cbn [inbound reachable writes_left io]. rewrite Hin. reflexivity.
  - intros rest Hin.
    rewrite (and_then_step _ _ _ _ _ (read_next_line_ok n _ _ Hin)).
    reflexivity.
  - intros jin rest Hin Hcmd.
    rewrite (and_then_step _ _ _ _ _ (read_next_line_ok n _ _ Hin)).
    cbn [parse]. rewrite and_then_ok. unfold check_command.
    rewrite Hcmd. reflexivity.
  - intros jin cmd rest Hin Hcmd Hs.
    rewrite (and_then_step _ _ _ _ _ (read_next_line_ok n _ _ Hin)).
    cbn [parse]. rewrite and_then_ok. unfold check_command.
    rewrite Hcmd, and_then_ok, Hs. reflexivity.
  - intros jin rest actual_cmd Hin Hcmd Hne.
    rewrite (and_then_step _ _ _ _ _ (read_next_line_ok n _ _ Hin)).
    cbn [parse]. rewrite and_then_ok. unfold check_command.
    rewrite Hcmd, and_then_ok. cbn [get_string]. rewrite and_then_ok.
    apply String.eqb_neq in Hne. rewrite Hne. reflexivity.
Qed.

Lemma connect_raises (host port : string) (n : Net) :
  reachable n = false ->
  connect host port n
  = (inl TransportError,
     {| reachable := reachable n; inbound := inbound n;
        writes_left := writes_left n;
        io := io n ++ [Connect host port] |}).
Proof.
  intros H. unfold connect, and_then, bind, emit.
  cbn [reachable]. rewrite H. reflexivity.
Qed.

Lemma write_raises (jout : json) (n : Net) :
  writes_left n = 0%nat -> write jout n = (inl TransportError, n).
Proof. intros H. unfold write. rewrite H. reflexivity. Qed.

Lemma in_dc_version (n : Net) (jin jversion jmajor : json)
  (rest : list RawLine) (major : Z) :
  inbound n = Parses jin :: rest ->
  at_key jin "cmd" = ok (JString "dc") ->
  at_key jin "version" = ok jversion ->
  at_key jversion "major" = ok jmajor ->
  get_int jmajor = ok major ->
  major <> kSupportedProtocolVersionMajor ->
  in_dc n = (inl UnexpectedProtocolVersion, line_read n rest).
Proof.
  intros Hin Hcmd Hv Hm Hint Hne. unfold in_dc.
  rewrite (and_then_step _ _ _ _ _ (receive_ok n jin rest _ Hin Hcmd)).
  rewrite Hv, and_then_ok, Hm, and_then_ok, Hint, and_then_ok.
  apply Z.eqb_neq in Hne. rewrite Hne. reflexivity.
Qed.

Lemma in_is_ready_rule (n : Net) (jin jgame : json)
  (rest : list RawLine) (rule : string) :
  inbound n = Parses jin :: rest ->
  at_key jin "cmd" = ok (JString "is_ready") ->
  at_key jin "game" = ok jgame ->
  at_key jgame "rule" = ok (JString rule) ->
  rule <> "normal"%string ->
  in_is_ready n = (inl UnexpectedRule, line_read n rest).
Proof.
  intros Hin Hcmd Hg Hr Hne. unfold in_is_ready.
  rewrite (and_then_step _ _ _ _ _ (receive_ok n jin rest _ Hin Hcmd)).
  rewrite Hg, and_then_ok, Hr, and_then_ok. cbn [get_string].
  rewrite and_then_ok. apply String.eqb_neq in Hne. rewrite Hne. reflexivity.
Qed.

Lemma in_dc_payload (n : Net) (jin : json) (rest : list RawLine) :
  inbound n = Parses jin :: rest ->
  at_key jin "cmd" = ok (JString "dc") ->
  at_key jin "version" = raise JsonError ->
  in_dc n = (inl JsonError, line_read n rest).
Proof.
  intros Hin Hcmd Hv. unfold in_dc.
  rewrite (and_then_step _ _ _ _ _ (receive_ok n jin rest _ Hin Hcmd)).
  rewrite Hv. reflexivity.
Qed.

Lemma update_loop_payload (fuel : nat) (team : Team) (g : Globals)
  (n : Net) (jin jstate : json) (rest : list RawLine) :
  inbound n = Parses jin :: rest ->
  at_key jin "cmd" = ok (JString "update") ->
  at_key jin "state" = ok jstate ->
  GameState_of_json jstate = None ->
  update_loop (S fuel) team g n = (inl JsonError, line_read n rest).
Proof.
  intros Hin Hcmd Hstate Hdec. cbn [update_loop].
  rewrite (and_then_step _ _ _ _ _ (receive_ok n jin rest _ Hin Hcmd)).
  rewrite Hstate, and_then_ok. unfold get. rewrite Hdec. reflexivity.
Qed.

Lemma out_dc_ok_raises (n : Net) :
  writes_left n = 0%nat -> out_dc_ok n = (inl TransportError, n).
Proof.
  intros H. unfold out_dc_ok. apply and_then_raise, write_raises, H.
Qed.

Lemma in_is_ready_write_raises (n : Net) (jin jgame jteam jsetting : json)
  (jin_simulator jplayers : json) (factories : list json)
  (rest : list RawLine) (team : Team) (game_setting : GameSetting) :
  inbound n = Parses jin :: rest ->
  at_key jin "cmd" = ok (JString "is_ready") ->
  at_key jin "game" = ok jgame ->
  at_key jgame "rule" = ok (JString "normal") ->
  at_key jin "team" = ok jteam ->
  Team_of_json jteam = Some team ->
  at_key jgame "setting" = ok jsetting ->
  GameSetting_of_json jsetting = Some game_setting ->
  at_key jgame "simulator" = ok jin_simulator ->
  at_key jgame "players" = ok jplayers ->
  at_key jplayers (ToString team) = ok (JArray factories) ->
  (4 <= length factories)%nat ->
  writes_left n = 0%nat ->
  exists l : list IO,
    in_is_ready n
    = (inl TransportError,
       {| reachable := reachable n; inbound := rest;
          writes_left := writes_left n; io := io n ++ l |})
    /\ writes l = [].
Proof.
  intros Hin Hcmd Hg Hr Ht Htd Hs Hsd Hsim Hp Hf Hlen Hw. unfold in_is_ready.
  rewrite (and_then_step _ _ _ _ _ (receive_ok n jin rest _ Hin Hcmd)).
  rewrite Hg, and_then_ok, Hr, and_then_ok. cbn [get_string].
  rewrite and_then_ok.
  change (negb ("normal" =? "normal")%string) with false. cbv iota.
  rewrite Ht, and_then_ok. unfold get at 1. rewrite Htd, and_then_ok.
  rewrite Hs, and_then_ok. unfold get at 1. rewrite Hsd, and_then_ok.
  rewrite Hsim, and_then_ok.
  match goal with
  | |- context [and_then (get_factory ?d ?j) ?k ?m] =>
      destruct (get_factory_run d j m) as (l1 & E1 & W1)
  end.
  rewrite (and_then_step _ _ _ _ _ E1).
  rewrite Hp, and_then_ok, Hf, and_then_ok.
  match goal with
  | |- context [and_then (read_player_factories _ _) ?k ?m] =>
      destruct (read_player_factories_run factories 4 0 m) as (l2 & E2 & W2);
        [simpl; lia|]
  end.
  rewrite (and_then_step _ _ _ _ _ E2).
  unfold cout at 1. rewrite and_then_emit. cbv zeta.
  rewrite drop_0.
  destruct (OnInit team game_setting (SimulatorFactory_of_json jin_simulator)
              (map PlayerFactory_of_json (take 4 factories)) [0; 1; 2; 3]%nat)
    as [g printed] eqn:EI.
  rewrite (and_then_step _ _ _ _ _ (cout_all_run printed _)).
  erewrite and_then_raise;
    [|apply write_raises; cbn [inbound reachable writes_left io]; exact Hw].
  cbn [inbound reachable writes_left io].
  eexists. split.
  - f_equal. f_equal. rewrite <- !app_assoc. reflexivity.
  - rewrite !writes_app, W1, W2, writes_map_Cout. reflexivity.
Qed.

Lemma update_loop_write_raises (fuel : nat) (team : Team) (g : Globals)
  (n : Net) (jin jstate : json) (rest : list RawLine)
  (game_state : GameState) :
  inbound n = Parses jin :: rest ->
  at_key jin "cmd" = ok (JString "update") ->
  at_key jin "state" = ok jstate ->
  GameState_of_json jstate = Some game_state ->
  game_result game_state = None ->
  GetNextTeam game_state = team ->
  writes_left n = 0%nat ->
  update_loop (S fuel) team g n
  = (inl TransportError,
     {| reachable := reachable n; inbound := rest;
        writes_left := writes_left n;
        io := io n ++ [ReadLine;
                       Cout (InUpdate (end_ game_state) (shot game_state))] |}).
Proof.
  intros Hin Hcmd Hstate Hdec Hnone Hmine Hw. cbn [update_loop].
  rewrite (and_then_step _ _ _ _ _ (receive_ok n jin rest _ Hin Hcmd)).
  rewrite Hstate, and_then_ok. unfold get. rewrite Hdec, and_then_ok.
  rewrite bool_decide_eq_false_2
    by (rewrite Hnone; intros [r Hr]; discriminate).
  unfold cout at 1. rewrite and_then_emit.
  rewrite decide_True by exact Hmine.
  destruct (OnMyTurn game_state g) as [move g'].
  erewrite and_then_raise;
    [|apply write_raises; cbn [inbound reachable writes_left io]; exact Hw].
  cbn [inbound reachable writes_left io]. rewrite <- app_assoc. reflexivity.
Qed.

(** After the turns that went through, the loop is at its next turn. *)
Lemma update_loop_after (turns : list GameState) :
  forall (fuel : nat) (team : Team) (g : Globals) (n : Net)
         (lines rest : list RawLine),
    Forall2 carries_update lines turns ->
    Forall (fun game_state => game_result game_state = None) turns ->
    inbound n = lines ++ rest ->
    (length (replies team g turns).1 <= writes_left n)%nat ->
    update_loop (length turns + fuel) team g n
    = update_loop fuel team (replies team g turns).2
        {| reachable := reachable n;
           inbound := rest;
           writes_left := writes_left n - length (replies team g turns).1;
           io := io n ++ update_trace team turns (replies team g turns).1 |}.
Proof.
  induction turns as [|game_state turns IH];
    intros fuel team g n lines rest Hl Hn Hin Hw.
  - apply Forall2_nil_inv_r in Hl as ->.
    cbn [length replies update_trace fst snd Nat.add].
    rewrite Nat.sub_0_r, app_nil_r. simpl in Hin. rewrite <- Hin.
    destruct n. reflexivity.
  - apply Forall2_cons_inv_r in Hl
      as (line & lines' & (jin & jstate & -> & Hc & Hs & Hd) & Hl' & ->).
    apply Forall_cons in Hn as [Hnone Hn].
    cbn [length Nat.add update_loop].
    rewrite (and_then_step _ _ _ _ _
               (receive_ok n jin (lines' ++ rest) _ Hin Hc)).
    rewrite Hs, and_then_ok. unfold get. rewrite Hd, and_then_ok.
    rewrite bool_decide_eq_false_2
      by (rewrite Hnone; intros [r Hr]; discriminate).
    unfold cout at 1. rewrite and_then_emit.
    cbn [replies update_trace] in *.
    destruct (decide (GetNextTeam game_state = team)) as [Hmine|Hother].
    + destruct (OnMyTurn game_state g) as [move g'] eqn:Emove.
      destruct (replies team g' turns) as [moves g''] eqn:Erep.
      cbn [fst snd length] in *.
      destruct (writes_left n) as [|k] eqn:Ek; [lia|].
      rewrite (and_then_write _ _ _ k) by reflexivity.
      unfold cout at 1. rewrite and_then_emit.
      erewrite (IH fuel team g');
        [|exact Hl'|exact Hn|reflexivity
         |rewrite Erep; cbn [writes_left fst]; lia].
      rewrite Erep. cbn [inbound reachable writes_left io fst snd].
      f_equal. f_equal. rewrite <- !app_assoc. reflexivity.
    + unfold OnOpponentTurn, ret.
      erewrite (IH fuel team g); [|exact Hl'|exact Hn|reflexivity|exact Hw].
      cbn [inbound reachable writes_left io fst snd].
      f_equal. f_equal. rewrite <- !app_assoc. reflexivity.
Qed.

Lemma try_block_session (prog host port : string) (n n' : Net)
  (e : Failure) :
  try_block [prog; host; port] n = (inl e, n')
  <-> session host port n = (inl e, n').
Proof.
  unfold try_block. cbn [length Nat.eqb negb].
  change ([prog; host; port] !!! 1%nat) with host.
  change ([prog; host; port] !!! 2%nat) with port.
  destruct (and_then_cases (session host port) (fun _ => ok (@None Z)) n)
    as [(e0 & n1 & E & ->)|([] & n1 & E & ->)]; rewrite E.
  - split; intros [= -> ->]; reflexivity.
  - split; discriminate.
Qed.

(** C9.  [main] exits with status 1 exactly when the number of arguments is
    not three; it has then printed the usage line to standard error and done
    nothing else, so that no connection was attempted.  With three
    arguments the status is 0, and whatever exception leaves the [try]
    block is caught by the one handler of [main], which prints it to
    standard error before the exit with status 0.  The exceptions that
    leave the [try] block are those of the blocks of the session, each
    block running where the block before it has ended, and each of them
    reaches the handler; the exception that the model has of its own is not
    among them.  The blocks throw on each failure in the list: a connection
    that fails and a write that fails (transport error), at "dc_ok", at
    "ready_ok" and at a "move"; at every receipt, which begins every block
    that reads and every turn of the update loop, a connection without a
    line (transport error), a line that does not parse or has no command
    (malformed payload) and a command that is not the expected one; a "dc"
    message without a version and an "update" message without a readable
    state (malformed payload); a major version that is not 1; a rule that
    is not "normal". *)
Theorem main_exit_status (argv : list string) (n : Net) :
  ((main argv n).1 = 1 <-> length argv <> 3%nat)
  /\ (length argv <> 3%nat -> io (main argv n).2 = io n ++ [Cerr Usage])
  /\ (length argv = 3%nat -> (main argv n).1 = 0)
  /\ (forall (e : Failure) (n' : Net),
        try_block argv n = (inl e, n') ->
        length argv = 3%nat
        /\ (main argv n).1 = 0
        /\ io (main argv n).2 = io n' ++ [Cerr (ExceptionLine e)])
  (* the exceptions of the [try] block *)
  /\ (forall (prog host port : string) (e : Failure) (n' : Net),
        argv = [prog; host; port] ->
        (try_block argv n = (inl e, n') <-> session_raises host port n e n')
        /\ (session_raises host port n e n' ->
            (main argv n).1 = 0
            /\ io (main argv n).2 = io n' ++ [Cerr (ExceptionLine e)]))
  /\ (forall n' : Net, try_block argv n <> (inl OutOfFuel, n'))
  (* the connection *)
  /\ (forall (host port : string) (m : Net),
        reachable m = false ->
        connect host port m
        = (inl TransportError,
           {| reachable := reachable m; inbound := inbound m;
              writes_left := writes_left m;
              io := io m ++ [Connect host port] |}))
  (* every block that reads starts with a receipt *)
  /\ starts_with_receive in_dc "dc"
  /\ starts_with_receive in_is_ready "is_ready"
  /\ starts_with_receive in_new_game "new_game"
  /\ (forall (fuel : nat) (team : Team) (g : Globals),
        starts_with_receive (update_loop (S fuel) team g) "update")
  /\ starts_with_receive in_game_over "game_over"
  (* the update loop after the turns that went through *)
  /\ (forall (turns : list GameState) (fuel : nat) (team : Team)
             (g : Globals) (m : Net) (lines rest : list RawLine),
        Forall2 carries_update lines turns ->
        Forall (fun game_state => game_result game_state = None) turns ->
        inbound m = lines ++ rest ->
        (length (replies team g turns).1 <= writes_left m)%nat ->
        update_loop (length turns + fuel) team g m
        = update_loop fuel team (replies team g turns).2
            {| reachable := reachable m;
               inbound := rest;
               writes_left :=
                 writes_left m - length (replies team g turns).1;
               io := io m
                     ++ update_trace team turns (replies team g turns).1 |})
  (* a receipt *)
  /\ (forall (expected_cmd : string) (m : Net),
        (inbound m = [] ->
         receive expected_cmd m = (inl TransportError, line_read m []))
        /\ (forall rest : list RawLine,
              inbound m = Malformed :: rest ->
              receive expected_cmd m = (inl JsonError, line_read m rest))
        /\ (forall (jin : json) (rest : list RawLine),
              inbound m = Parses jin :: rest ->
              at_key jin "cmd" = raise JsonError ->
              receive expected_cmd m = (inl JsonError, line_read m rest))
        /\ (forall (jin cmd : json) (rest : list RawLine),
              inbound m = Parses jin :: rest ->
              at_key jin "cmd" = ok cmd ->
              get_string cmd = raise JsonError ->
              receive expected_cmd m = (inl JsonError, line_read m rest))
        /\ (forall (jin : json) (rest : list RawLine) (actual_cmd : string),
              inbound m = Parses jin :: rest ->
              at_key jin "cmd" = ok (JString actual_cmd) ->
              actual_cmd <> expected_cmd ->
              receive expected_cmd m
              = (inl (UnexpectedCmd expected_cmd actual_cmd),
                 line_read m rest)))
  (* a message without its payload *)
  /\ (forall (m : Net) (jin : json) (rest : list RawLine),
        inbound m = Parses jin :: rest ->
        at_key jin "cmd" = ok (JString "dc") ->
        at_key jin "version" = raise JsonError ->
        in_dc m = (inl JsonError, line_read m rest))
  /\ (forall (fuel : nat) (team : Team) (g : Globals) (m : Net)
             (jin jstate : json) (rest : list RawLine),
        inbound m = Parses jin :: rest ->
        at_key jin "cmd" = ok (JString "update") ->
        at_key jin "state" = ok jstate ->
        GameState_of_json jstate = None ->
        update_loop (S fuel) team g m = (inl JsonError, line_read m rest))
  (* the version and the rule *)
  /\ (forall (m : Net) (jin jversion jmajor : json) (rest : list RawLine)
             (major : Z),
        inbound m = Parses jin :: rest ->
        at_key jin "cmd" = ok (JString "dc") ->
        at_key jin "version" = ok jversion ->
        at_key jversion "major" = ok jmajor ->
        get_int jmajor = ok major ->
        major <> kSupportedProtocolVersionMajor ->
        in_dc m = (inl UnexpectedProtocolVersion, line_read m rest))
  /\ (forall (m : Net) (jin jgame : json) (rest : list RawLine)
             (rule : string),
        inbound m = Parses jin :: rest ->
        at_key jin "cmd" = ok (JString "is_ready") ->
        at_key jin "game" = ok jgame ->
        at_key jgame "rule" = ok (JString rule) ->
        rule <> "normal"%string ->
        in_is_ready m = (inl UnexpectedRule, line_read m rest))
  (* the writes *)
  /\ (forall m : Net,
        writes_left m = 0%nat -> out_dc_ok m = (inl TransportError, m))
  /\ (forall (m : Net) (jin jgame jteam jsetting jin_simulator jplayers : json)
             (factories : list json) (rest : list RawLine) (team : Team)
             (game_setting : GameSetting),
        inbound m = Parses jin :: rest ->
        at_key jin "cmd" = ok (JString "is_ready") ->
        at_key jin "game" = ok jgame ->
        at_key jgame "rule" = ok (JString "normal") ->
        at_key jin "team" = ok jteam ->
        Team_of_json jteam = Some team ->
        at_key jgame "setting" = ok jsetting ->
        GameSetting_of_json jsetting = Some game_setting ->
        at_key jgame "simulator" = ok jin_simulator ->
        at_key jgame "players" = ok jplayers ->
        at_key jplayers (ToString team) = ok (JArray factories) ->
        (4 <= length factories)%nat ->
        writes_left m = 0%nat ->
        exists l : list IO,
          in_is_ready m
          = (inl TransportError,
             {| reachable := reachable m; inbound := rest;
                writes_left := writes_left m; io := io m ++ l |})
          /\ writes l = [])
  /\ (forall (fuel : nat) (team : Team) (g : Globals) (m : Net)
             (jin jstate : json) (rest : list RawLine)
             (game_state : GameState),
        inbound m = Parses jin :: rest ->
        at_key jin "cmd" = ok (JString "update") ->
        at_key jin "state" = ok jstate ->
        GameState_of_json jstate = Some game_state ->
        game_result game_state = None ->
        GetNextTeam game_state = team ->
        writes_left m = 0%nat ->
        update_loop (S fuel) team g m
        = (inl TransportError,
           {| reachable := reachable m; inbound := rest;
              writes_left := writes_left m;
              io := io m
                    ++ [ReadLine;
                        Cout (InUpdate (end_ game_state)
                                       (shot game_state))] |})).
Proof.
  assert (Hmain :
    ((main argv n).1 = 1 <-> length argv <> 3%nat)
    /\ (length argv <> 3%nat -> io (main argv n).2 = io n ++ [Cerr Usage])
    /\ (length argv = 3%nat -> (main argv n).1 = 0)
    /\ (forall (e : Failure) (n' : Net),
          try_block argv n = (inl e, n') ->
          length argv = 3%nat
          /\ (main argv n).1 = 0
          /\ io (main argv n).2 = io n' ++ [Cerr (ExceptionLine e)])).
  { unfold main, try_block, bind.
    destruct (length argv =? 3)%nat eqn:E; cbn [negb].
    - apply Nat.eqb_eq in E.
      destruct (and_then_cases (session (argv !!! 1%nat) (argv !!! 2%nat))
                  (fun _ => ok (@None Z)) n)
        as [(e & n1 & Hc & ->)|([] & n1 & Hc & ->)].
      + unfold cerr, emit, ret. cbn [fst snd io].
        split_and!;
          [split; [discriminate|contradiction]|contradiction|reflexivity|].
        intros e' n' [= <- <-]. split_and!; [exact E|reflexivity|reflexivity].
      + unfold ok, ret. cbn [fst snd io].
        split_and!;
          [split; [discriminate|contradiction]|contradiction|reflexivity|].
        intros e' n' [=].
    - apply Nat.eqb_neq in E.
      unfold and_then, bind, cerr, emit, ok, ret. cbn [fst snd io].
      split_and!;
        [split; [intros _; exact E|reflexivity]|reflexivity|contradiction|].
      intros e n' [=]. }
  destruct Hmain as (M1 & M2 & M3 & M4).
  split; [exact M1|]. split; [exact M2|]. split; [exact M3|].
  split; [exact M4|].
  split.
  { intros prog host port e n' E.
    assert (Hiff : try_block argv n = (inl e, n')
                   <-> session_raises host port n e n').
    { rewrite E, try_block_session. apply session_raises_iff. }
    split; [exact Hiff|].
    intros H. apply Hiff in H. destruct (M4 e n' H) as (_ & H0 & Hio).
    split; assumption. }
  split.
  { intros n' H. unfold try_block in H.
    destruct (negb _).
    - unfold and_then, bind, cerr, emit, ok, ret in H. discriminate H.
    - destruct (and_then_cases (session (argv !!! 1%nat) (argv !!! 2%nat))
                  (fun _ => ok (@None Z)) n)
        as [(e & n1 & Hc & R)|([] & n1 & Hc & R)]; rewrite R in H.
      + injection H as -> ->.
        apply (fuel_free_session (argv !!! 1%nat) (argv !!! 2%nat) n).
        rewrite Hc. reflexivity.
      + discriminate H. }
  split; [exact connect_raises|].
  split; [exact in_dc_receives|].
  split; [exact in_is_ready_receives|].
  split; [exact in_new_game_receives|].
  split; [exact update_loop_receives|].
  split; [exact in_game_over_receives|].
  split; [exact update_loop_after|].
  split; [exact receive_raises|].
  split; [exact in_dc_payload|].
  split; [exact update_loop_payload|].
  split; [exact in_dc_version|].
  split; [exact in_is_ready_rule|].
  split; [exact out_dc_ok_raises|].
  split; [exact in_is_ready_write_raises|].
  exact update_loop_write_raises.
Qed.

End Exit_theorems.

(** * Runs on the small instance *)

Import Rink.

Lemma three_stones_on_sheet (i : StoneIndex) (a : Transform) :
  stone_at three_stones i = Some a -> a = at_tee \/ a = guard.
Proof.
  destruct i as [t n]. unfold stone_at, three_stones. simpl.
  destruct t as [|[|t]]; [| |discriminate];
    destruct n as [|[|[|n]]]; intros H; try discriminate H;
    inversion_clear H; auto.
Qed.

Lemma three_stones_defined : distances_defined three_stones.
Proof.
  intros i a Ha.
  destruct (three_stones_on_sheet _ _ Ha) as [-> | ->];
    vm_compute; discriminate.
Qed.

Lemma SortStones_order_witness :
  length (replicate 16 {| team := 0; stone := 0 |}) = 16%nat
  /\ distances_defined three_stones
  /\ SortStones (replicate 16 {| team := 0; stone := 0 |}) three_stones
       ≡ₚ init_indices
  /\ StronglySorted (precedes three_stones)
       (SortStones (replicate 16 {| team := 0; stone := 0 |}) three_stones).
Proof.
  split; [reflexivity|]. split; [exact three_stones_defined|].
  apply SortStones_order; [reflexivity|exact three_stones_defined].
Defined.

(** Two stones on the tee keep their original order, in front of the stone
    that is farther away. *)
Example SortStones_three_stones :
  take 3 (SortStones (replicate 16 {| team := 0; stone := 0 |}) three_stones)
  = [{| team := 0; stone := 1 |}; {| team := 1; stone := 0 |};
     {| team := 1; stone := 2 |}].
Proof. vm_compute. reflexivity. Qed.

(** A distance that is a NaN is never swapped: the farther stone stays in
    front of the nearer one. *)
Example SortStones_nan_unsorted :
  take 3 (SortStones (replicate 16 {| team := 0; stone := 0 |}) sheet_with_nan)
  = [{| team := 0; stone := 0 |}; {| team := 0; stone := 1 |};
     {| team := 0; stone := 2 |}]
  /\ farther guard at_tee = true.
Proof. split; vm_compute; reflexivity. Qed.

(** C3, as the specification states it, fails on the empty sheet: the
    sixteen absent stones come out in reverse order, so two absent stones do
    not keep their original order. *)
Lemma SortStones_not_stable :
  ~ StronglySorted (precedes_stable empty_sheet)
      (SortStones (replicate 16 {| team := 0; stone := 0 |}) empty_sheet).
Proof.
  intros H.
  assert (E : SortStones (replicate 16 {| team := 0; stone := 0 |})
                empty_sheet
              = rev init_indices) by (vm_compute; reflexivity).
  rewrite E in H. simpl in H.
  apply StronglySorted_cons in H as [H _]. apply Forall_cons in H as [H _].
  cbv in H. lia.
Qed.

(** C1, as the specification states it, fails: here the two candidates
    score the same over their three trials, and [strike] returns the
    second, clockwise candidate, not the first. *)
Lemma strike_tie_returns_clockwise :
  aggregate_scores (state_of three_stones) target at_tee
                   (F32.dec false 35 1) globals = [0; 0]
  /\ (exists v : Vector2.t,
        (strike (state_of three_stones) target at_tee
                (F32.dec false 35 1) globals).1
        = Shot {| velocity := v; rotation := kCW |})
  /\ (forall v : Vector2.t,
        (strike (state_of three_stones) target at_tee
                (F32.dec false 35 1) globals).1
        <> Shot {| velocity := v; rotation := kCCW |}).
Proof.
  split_and!.
  - vm_compute. reflexivity.
  - eexists. vm_compute. reflexivity.
  - intros v. vm_compute. discriminate.
Qed.

(** The same on the whole of [OnMyTurn]. *)
Example OnMyTurn_tie_returns_clockwise :
  exists v : Vector2.t,
    (OnMyTurn (state_of three_stones) globals).1
    = Shot {| velocity := v; rotation := kCW |}.
Proof. eexists. vm_compute. reflexivity. Qed.

(** C2, as the specification states it, fails: here no speed of the search
    is accepted, and the search ends with [speed] at 3.5, not at 3.0, the
    last speed that was tried. *)
Lemma speed_search_falls_back_to_3_5 :
  (first_accepted (state_of three_stones) target at_tee ladder globals).1
  = None
  /\ (speed_search speed_search_fuel (state_of three_stones) target at_tee
                   (F32.dec false 5 1) globals).1 = F32.dec false 35 1
  /\ (speed_search speed_search_fuel (state_of three_stones) target at_tee
                   (F32.dec false 5 1) globals).1 <> F32.dec false 30 1.
Proof.
  split_and!.
  - vm_compute. reflexivity.
  - vm_compute. reflexivity.
  - vm_compute. discriminate.
Qed.

(** The slot that the test of the speed search reads need not be a slot of
    the planner.  Here it is the turn of team 0, the planner, and the slot
    read is stone 0 of team 1: the first speed is accepted on a stone of
    the opponent, while the planner's own slot is empty after the
    rollout. *)
Example speed_search_reads_opponent_slot :
  GetNextTeam (DigitalCurling3 := sweeping) second_shot
  = g_team sweeping_globals
  /\ Team_index (g_team sweeping_globals) <> (shot second_shot mod 2)%nat
  /\ (speed_search (dc := sweeping) speed_search_fuel second_shot
                   {| team := 1; stone := 1 |} at_tee (F32.dec false 5 1)
                   sweeping_globals).1 = F32.dec false 5 1
  /\ stones (rollout_state (dc := sweeping) second_shot at_tee
                           (F32.dec false 5 1) sweeping_globals)
            (Team_index (g_team sweeping_globals))
            (shot second_shot / 2)%nat = None
  /\ stones (rollout_state (dc := sweeping) second_shot at_tee
                           (F32.dec false 5 1) sweeping_globals)
            (shot second_shot mod 2)%nat (shot second_shot / 2)%nat
     = Some guard.
Proof.
  split_and!; [reflexivity|discriminate|vm_compute; reflexivity
              |vm_compute; reflexivity|vm_compute; reflexivity].
Qed.

(** C4, as the specification states it, fails: here [OnMyTurn] makes
    rollouts, and when it returns the simulator is not in the state it was
    in at entry, while the snapshot is. *)
Lemma OnMyTurn_leaves_simulator_changed :
  g_simulator (OnMyTurn (state_of three_stones) globals).2
  <> g_simulator globals
  /\ g_simulator_storage (OnMyTurn (state_of three_stones) globals).2
     = g_simulator globals.
Proof.
  split.
  - vm_compute. discriminate.
  - vm_compute. reflexivity.
Qed.




Lemma OnInit_warns_on_fcv1_witness :
  GetSimulatorId SimulatorFCV1Factory = "fcv1"%string
  /\ (OnInit k0 tt (Some SimulatorFCV1Factory) [None; None; None; None]
             [0; 1; 2; 3]%nat).2
     = [WarningUnsupportedSimulator].
Proof.
  split; [reflexivity|].
  apply (OnInit_warns_on_fcv1 (dc := library) k0 tt SimulatorFCV1Factory).
  reflexivity.
Defined.

Lemma update_loop_concluded_witness :
  is_Some (game_result {| end_ := 0; shot := 0; hammer := k1;
                          stones := fun _ _ => None;
                          game_result := Some {| winner := k0 |} |})
  /\ update_loop 1 k0 globals
       (net [Parses (msg_update (JString "over")); Parses msg_game_over])
     = (inr ({| end_ := 0; shot := 0; hammer := k1;
                stones := fun _ _ => None;
                game_result := Some {| winner := k0 |} |}, globals),
        {| reachable := true;
           inbound := [Parses msg_game_over];
           writes_left := 2;
           io := [ReadLine; Cout (InUpdate 0 0)] |}).
Proof.
  split; [simpl; eexists; reflexivity|].
  apply (update_loop_concluded 0 k0 globals
           (net [Parses (msg_update (JString "over")); Parses msg_game_over])
           (msg_update (JString "over")) (JString "over")).
  - reflexivity.
  - reflexivity.
  - reflexivity.
  - reflexivity.
  - simpl. eexists. reflexivity.
Defined.

Lemma OnMyTurn_no_target_witness :
  no_opponent_stone (g_team globals) (state_of empty_sheet)
  /\ (OnMyTurn (state_of empty_sheet) globals).1 =
     Shot {| velocity :=
               (EstimateShotVelocityFCV1 kTee F32.zero kCCW (Save globals).2).1;
             rotation := kCCW |}.
Proof.
  split; [intros t n Ht Hn Hteam; reflexivity|].
  apply OnMyTurn_no_target. intros t n Ht Hn Hteam. reflexivity.
Defined.

(** The runs of [main]. *)

(** A whole match: the one move is written for the update at which it is
    this side's turn, and nothing is written after the update that carries
    the result. *)
Example main_short_match :
  (main argv3 (net short_match)).1 = 0
  /\ List.filter
       (fun e => match e with WriteLine _ => true | _ => false end)
       (io (main argv3 (net short_match)).2)
     = [WriteLine (JObject [field "cmd" (JString "dc_ok");
                            field "name" (JString kName)]);
        WriteLine (JObject [field "cmd" (JString "ready_ok");
                            field "player_order"
                              (JArray [JNumber 0; JNumber 1; JNumber 2;
                                       JNumber 3])]);
        WriteLine (JObject [field "cmd" (JString "move");
                            field "move" (JString "shot")])].
Proof. split; vm_compute; reflexivity. Qed.

Example main_wrong_arguments :
  main ["client"; "localhost"]%string (net short_match)
  = (1, {| reachable := true; inbound := short_match;
           writes_left := 7; io := [Cerr Usage] |}).
Proof. vm_compute. reflexivity. Qed.

Example main_unreachable :
  main argv3 {| reachable := false; inbound := short_match;
                writes_left := 7; io := [] |}
  = (0, {| reachable := false; inbound := short_match; writes_left := 7;
           io := [Connect "localhost" "10000";
                  Cerr (ExceptionLine TransportError)] |}).
Proof. vm_compute. reflexivity. Qed.

Example main_unexpected_command :
  (main argv3 (net [Parses msg_new_game])).1 = 0
  /\ last (io (main argv3 (net [Parses msg_new_game])).2)
     = Some (Cerr (ExceptionLine (UnexpectedCmd "dc" "new_game"))).
Proof. split; vm_compute; reflexivity. Qed.

Example main_unsupported_version :
  (main argv3 (net [Parses (msg_dc 2)])).1 = 0
  /\ last (io (main argv3 (net [Parses (msg_dc 2)])).2)
     = Some (Cerr (ExceptionLine UnexpectedProtocolVersion)).
Proof. split; vm_compute; reflexivity. Qed.

Example main_unsupported_rule :
  (main argv3 (net [Parses (msg_dc 1); Parses (msg_is_ready "mixed")])).1 = 0
  /\ last (io (main argv3
                   (net [Parses (msg_dc 1); Parses (msg_is_ready "mixed")])).2)
     = Some (Cerr (ExceptionLine UnexpectedRule)).
Proof. split; vm_compute; reflexivity. Qed.

Example main_malformed_line :
  (main argv3 (net [Parses (msg_dc 1); Malformed])).1 = 0
  /\ last (io (main argv3 (net [Parses (msg_dc 1); Malformed])).2)
     = Some (Cerr (ExceptionLine JsonError)).
Proof. split; vm_compute; reflexivity. Qed.

Example main_connection_lost :
  (main argv3 (net [Parses (msg_dc 1)])).1 = 0
  /\ last (io (main argv3 (net [Parses (msg_dc 1)])).2)
     = Some (Cerr (ExceptionLine TransportError)).
Proof. split; vm_compute; reflexivity. Qed.

(** ** Runs of the line reader *)

Section LineReader_runs.

Import LineReader Feed.

Lemma first_line_no_newline : newline ∉ first_line.
Proof. apply find_first_of_None. reflexivity. Qed.

Lemma second_line_no_newline : newline ∉ second_line.
Proof. apply find_first_of_None. reflexivity. Qed.

Lemma two_lines_aligned : aligned two_lines [first_line; second_line].
Proof.
  exists [], [[first_line; second_line]].
  split_and!; try reflexivity. repeat constructor. discriminate.
Qed.

Lemma read_next_line_keeps_witness :
  read_next_line two_lines
  = Some (frame first_line,
          {| input_buffer := frame second_line; arriving := [] |})
  /\ frame first_line ++ frame second_line ++ concat []
     = [] ++ concat [frame first_line ++ frame second_line].
Proof.
  split; [reflexivity|].
  exact (read_next_line_keeps two_lines
           {| input_buffer := frame second_line; arriving := [] |}
           (frame first_line) eq_refl).
Defined.

Lemma read_next_line_whole_witness :
  read_next_line two_lines
  = Some (frame first_line,
          {| input_buffer := frame second_line; arriving := [] |})
  /\ (input_buffer two_lines = [] \/ newline ∈ input_buffer two_lines)
  /\ exists body : text, frame first_line = frame body /\ newline ∉ body.
Proof.
  split; [reflexivity|]. split; [left; reflexivity|].
  exact (read_next_line_whole two_lines
           {| input_buffer := frame second_line; arriving := [] |}
           (frame first_line) eq_refl (or_introl eq_refl)).
Defined.

Lemma read_next_line_aligned_witness :
  aligned two_lines [first_line; second_line]
  /\ (newline ∉ first_line)
  /\ exists r' : Reader,
       read_next_line two_lines = Some (frame first_line, r')
       /\ aligned r' [second_line].
Proof.
  split; [exact two_lines_aligned|]. split; [exact first_line_no_newline|].
  exact (read_next_line_aligned two_lines first_line [second_line]
           two_lines_aligned first_line_no_newline).
Defined.

Lemma second_line_not_empty : second_line <> [].
Proof. discriminate. Qed.

Lemma read_next_line_split_witness :
  (newline ∉ first_line)
  /\ second_line <> []
  /\ (newline ∉ second_line)
  /\ read_next_line split_line
     = Some (frame first_line,
             {| input_buffer := second_line; arriving := [[newline]] |})
  /\ read_next_line {| input_buffer := second_line; arriving := [[newline]] |}
     = Some ([], {| input_buffer := second_line; arriving := [[newline]] |}).
Proof.
  split; [exact first_line_no_newline|].
  split; [exact second_line_not_empty|].
  split; [exact second_line_no_newline|].
  exact (read_next_line_split first_line second_line [[newline]]
           first_line_no_newline second_line_not_empty
           second_line_no_newline).
Defined.

Lemma read_next_line_end_witness :
  input_buffer cut_off = []
  /\ (newline ∉ concat (arriving cut_off))
  /\ read_next_line cut_off = None.
Proof.
  assert (H : newline ∉ concat (arriving cut_off))
    by (apply find_first_of_None; reflexivity).
  split; [reflexivity|]. split; [exact H|].
  exact (read_next_line_end cut_off eq_refl H).
Defined.

End LineReader_runs.

(** ** Runs of the planner and of the protocol *)

Section Runs_on_the_feed.

Import Feed.

Lemma SortStones_all_indices_witness :
  length (replicate 16 {| team := 0; stone := 0 |}) = 16%nat
  /\ length init_indices = 16%nat
  /\ SortStones (replicate 16 {| team := 0; stone := 0 |}) three_stones
     = SortStones init_indices three_stones
  /\ length (SortStones (replicate 16 {| team := 0; stone := 0 |})
                        three_stones) = 16%nat
  /\ NoDup (SortStones (replicate 16 {| team := 0; stone := 0 |})
                       three_stones)
  /\ (forall t i : nat,
        (t < 2)%nat -> (i < 8)%nat ->
        {| team := t; stone := i |}
          ∈ SortStones (replicate 16 {| team := 0; stone := 0 |})
                       three_stones).
Proof.
  split; [reflexivity|]. split; [reflexivity|].
  exact (SortStones_all_indices (dc := library)
           (replicate 16 {| team := 0; stone := 0 |}) init_indices
           three_stones eq_refl eq_refl).
Defined.

Lemma SortStones_absent_last_witness :
  length (replicate 16 {| team := 0; stone := 0 |}) = 16%nat
  /\ exists here gone : list StoneIndex,
       SortStones (replicate 16 {| team := 0; stone := 0 |}) three_stones
       = here ++ gone
       /\ Forall (fun i => is_Some (stone_at three_stones i)) here
       /\ Forall (fun i => stone_at three_stones i = None) gone.
Proof.
  split; [reflexivity|].
  exact (SortStones_absent_last (dc := library)
           (replicate 16 {| team := 0; stone := 0 |}) three_stones eq_refl).
Defined.

Lemma SortStones_house_first_witness :
  length (replicate 16 {| team := 0; stone := 0 |}) = 16%nat
  /\ distances_defined three_stones
  /\ (0 <= 1)%nat
  /\ SortStones (replicate 16 {| team := 0; stone := 0 |}) three_stones
       !! 0%nat = Some {| team := 0; stone := 1 |}
  /\ SortStones (replicate 16 {| team := 0; stone := 0 |}) three_stones
       !! 1%nat = Some {| team := 1; stone := 0 |}
  /\ IsInHouse house_radius stone_radius
       (stone_at three_stones {| team := 1; stone := 0 |}) = true
  /\ IsInHouse house_radius stone_radius
       (stone_at three_stones {| team := 0; stone := 1 |}) = true.
Proof.
  assert (H0 : SortStones (replicate 16 {| team := 0; stone := 0 |})
                 three_stones !! 0%nat = Some {| team := 0; stone := 1 |})
    by (vm_compute; reflexivity).
  assert (H1 : SortStones (replicate 16 {| team := 0; stone := 0 |})
                 three_stones !! 1%nat = Some {| team := 1; stone := 0 |})
    by (vm_compute; reflexivity).
  assert (H2 : IsInHouse house_radius stone_radius
                 (stone_at three_stones {| team := 1; stone := 0 |}) = true)
    by (vm_compute; reflexivity).
  split; [reflexivity|]. split; [exact three_stones_defined|].
  split; [lia|]. split; [exact H0|]. split; [exact H1|]. split; [exact H2|].
  exact (SortStones_house_first (dc := library) house_radius stone_radius
           (replicate 16 {| team := 0; stone := 0 |}) three_stones 0 1
           {| team := 0; stone := 1 |} {| team := 1; stone := 0 |}
           eq_refl three_stones_defined (Nat.le_succ_diag_r 0) H0 H1 H2).
Defined.

Lemma three_stones_opponent :
  exists t i : nat,
    (t < 2)%nat /\ (i < 8)%nat /\ t <> Team_index (g_team globals)
    /\ is_Some (stones (state_of three_stones) t i).
Proof.
  exists 1%nat, 0%nat. split_and!; [lia|lia|discriminate|].
  exists at_tee. reflexivity.
Qed.

Lemma OnMyTurn_targets_nearest_witness :
  distances_defined (stones (state_of three_stones))
  /\ (exists t i : nat,
        (t < 2)%nat /\ (i < 8)%nat /\ t <> Team_index (g_team globals)
        /\ is_Some (stones (state_of three_stones) t i))
  /\ exists (idx : StoneIndex) (nearest : Transform),
       (team idx < 2)%nat /\ (stone idx < 8)%nat
       /\ team idx <> Team_index (g_team globals)
       /\ stone_at (stones (state_of three_stones)) idx = Some nearest
       /\ OnMyTurn (state_of three_stones) globals
          = hit (state_of three_stones) idx nearest (Save globals).2
       /\ (forall (t i : nat) (other : Transform),
             (t < 2)%nat -> (i < 8)%nat -> t <> Team_index (g_team globals) ->
             stones (state_of three_stones) t i = Some other ->
             farther nearest other = false).
Proof.
  split; [exact three_stones_defined|]. split; [exact three_stones_opponent|].
  exact (OnMyTurn_targets_nearest (libm := math) (dc := library)
           (state_of three_stones) globals three_stones_defined
           three_stones_opponent).
Defined.

Lemma three_updates_carry :
  Forall2 carries_update three_updates ([state_at 0; state_at 1] ++ [over]).
Proof.
  repeat (constructor; [do 2 eexists; split_and!; reflexivity|]).
  constructor.
Qed.

Lemma two_turns_open :
  Forall (fun game_state => game_result game_state = None)
         [state_at 0; state_at 1].
Proof. repeat constructor. Qed.

Lemma over_is_over : is_Some (game_result over).
Proof. eexists. reflexivity. Qed.

Lemma writes_suffice :
  (length (replies k0 globals [state_at 0; state_at 1]).1
   <= writes_left match_feed)%nat.
Proof. vm_compute. lia. Qed.

Lemma update_loop_replies_witness :
  Forall2 carries_update three_updates ([state_at 0; state_at 1] ++ [over])
  /\ Forall (fun game_state => game_result game_state = None)
            [state_at 0; state_at 1]
  /\ is_Some (game_result over)
  /\ inbound match_feed = three_updates ++ [Parses msg_game_over]
  /\ (length (replies k0 globals [state_at 0; state_at 1]).1
      <= writes_left match_feed)%nat
  /\ (length [state_at 0; state_at 1] < 3)%nat
  /\ update_loop 3 k0 globals match_feed
     = (inr (over, (replies k0 globals [state_at 0; state_at 1]).2),
        {| reachable := reachable match_feed;
           inbound := [Parses msg_game_over];
           writes_left :=
             writes_left match_feed
             - length (replies k0 globals [state_at 0; state_at 1]).1;
           io := io match_feed
                 ++ update_trace k0 [state_at 0; state_at 1]
                      (replies k0 globals [state_at 0; state_at 1]).1
                 ++ [ReadLine; Cout (InUpdate (end_ over) (shot over))] |}).
Proof.
  split; [exact three_updates_carry|]. split; [exact two_turns_open|].
  split; [exact over_is_over|]. split; [reflexivity|].
  split; [exact writes_suffice|]. split; [simpl; lia|].
  exact (update_loop_replies (libm := math) (dc := library) (wire := codec)
           [state_at 0; state_at 1] 3 k0 globals match_feed three_updates
           [Parses msg_game_over] over three_updates_carry two_turns_open
           over_is_over eq_refl writes_suffice (Nat.lt_succ_diag_r 2)).
Defined.

Lemma receive_unexpected_cmd_witness :
  inbound (net [Parses msg_new_game]) = [Parses msg_new_game]
  /\ at_key msg_new_game "cmd" = ok (JString "new_game")
  /\ "new_game"%string <> "dc"%string
  /\ receive "dc" (net [Parses msg_new_game])
     = (inl (UnexpectedCmd "dc" "new_game"),
        {| reachable := reachable (net [Parses msg_new_game]);
           inbound := [];
           writes_left := writes_left (net [Parses msg_new_game]);
           io := io (net [Parses msg_new_game]) ++ [ReadLine] |}).
Proof.
  assert (H : "new_game"%string <> "dc"%string) by discriminate.
  split; [reflexivity|]. split; [reflexivity|]. split; [exact H|].
  exact (receive_unexpected_cmd (net [Parses msg_new_game]) msg_new_game []
           "dc" "new_game" eq_refl eq_refl H).
Defined.

Lemma in_dc_rejects_version_witness :
  inbound (net [Parses (msg_dc 2)]) = [Parses (msg_dc 2)]
  /\ at_key (msg_dc 2) "cmd" = ok (JString "dc")
  /\ at_key (msg_dc 2) "version" = ok (JObject [field "major" (JNumber 2)])
  /\ at_key (JObject [field "major" (JNumber 2)]) "major" = ok (JNumber 2)
  /\ get_int (JNumber 2) = ok 2
  /\ (2 <> kSupportedProtocolVersionMajor ->
      in_dc (net [Parses (msg_dc 2)])
      = (inl UnexpectedProtocolVersion,
         {| reachable := reachable (net [Parses (msg_dc 2)]);
            inbound := [];
            writes_left := writes_left (net [Parses (msg_dc 2)]);
            io := io (net [Parses (msg_dc 2)]) ++ [ReadLine] |}))
  /\ (2 = kSupportedProtocolVersionMajor ->
      (in_dc (net [Parses (msg_dc 2)])).1 <> inl UnexpectedProtocolVersion).
Proof.
  split; [reflexivity|]. split; [reflexivity|]. split; [reflexivity|].
  split; [reflexivity|]. split; [reflexivity|].
  exact (in_dc_rejects_version (net [Parses (msg_dc 2)]) (msg_dc 2)
           (JObject [field "major" (JNumber 2)]) (JNumber 2) [] 2
           eq_refl eq_refl eq_refl eq_refl eq_refl).
Defined.

(** What [get<int>()] makes of values that are not the integer 1: the
    program takes each of these for the supported version. *)
Example get_int_casts :
  get_int (JNumber 4294967297) = ok 1
  /\ get_int (JFloat (S754_finite false 3 (-1))) = ok 1
  /\ get_int (JBool true) = ok 1
  /\ get_int (JString "1") = raise JsonError.
Proof. repeat split; reflexivity. Qed.

Example in_dc_accepts_wrapped_version :
  (in_dc (net [Parses (msg_dc 4294967297)])).1 = inr tt.
Proof. vm_compute. reflexivity. Qed.

Lemma in_is_ready_rejects_rule_witness :
  inbound (ready_feed "mix_doubles")
  = [Parses (msg_is_ready "mix_doubles"); Parses msg_new_game]
  /\ at_key (msg_is_ready "mix_doubles") "cmd" = ok (JString "is_ready")
  /\ at_key (msg_is_ready "mix_doubles") "game" = ok (game_of "mix_doubles")
  /\ at_key (game_of "mix_doubles") "rule" = ok (JString "mix_doubles")
  /\ "mix_doubles"%string <> "normal"%string
  /\ in_is_ready (ready_feed "mix_doubles")
     = (inl UnexpectedRule,
        {| reachable := reachable (ready_feed "mix_doubles");
           inbound := [Parses msg_new_game];
           writes_left := writes_left (ready_feed "mix_doubles");
           io := io (ready_feed "mix_doubles") ++ [ReadLine] |}).
Proof.
  assert (H : "mix_doubles"%string <> "normal"%string) by discriminate.
  split; [reflexivity|]. split; [reflexivity|]. split; [reflexivity|].
  split; [reflexivity|]. split; [exact H|].
  exact (in_is_ready_rejects_rule (dc := library) (wire := codec)
           (ready_feed "mix_doubles")
           (msg_is_ready "mix_doubles") (game_of "mix_doubles")
           [Parses msg_new_game] "mix_doubles"
           eq_refl eq_refl eq_refl eq_refl H).
Defined.

Lemma in_is_ready_accepts_witness :
  inbound (ready_feed "normal")
  = [Parses (msg_is_ready "normal"); Parses msg_new_game]
  /\ at_key (msg_is_ready "normal") "cmd" = ok (JString "is_ready")
  /\ at_key (msg_is_ready "normal") "game" = ok (game_of "normal")
  /\ at_key (game_of "normal") "rule" = ok (JString "normal")
  /\ at_key (msg_is_ready "normal") "team" = ok (JString "team0")
  /\ Team_of_json (JString "team0") = Some k0
  /\ at_key (game_of "normal") "setting" = ok JNull
  /\ GameSetting_of_json JNull = Some tt
  /\ at_key (game_of "normal") "simulator" = ok (JString "fcv1")
  /\ at_key (game_of "normal") "players" = ok players_of_game
  /\ at_key players_of_game (ToString k0)
     = ok (JArray [JNull; JNull; JNull; JNull])
  /\ (4 <= length [JNull; JNull; JNull; JNull])%nat
  /\ writes_left (ready_feed "normal") = 2%nat
  /\ exists l : list IO,
       in_is_ready (ready_feed "normal")
       = (inr (k0,
               (OnInit k0 tt (SimulatorFactory_of_json (JString "fcv1"))
                       (map PlayerFactory_of_json
                            (take 4 [JNull; JNull; JNull; JNull]))
                       [0; 1; 2; 3]%nat).1),
          {| reachable := reachable (ready_feed "normal");
             inbound := [Parses msg_new_game];
             writes_left := 1;
             io := io (ready_feed "normal") ++ l |})
       /\ writes l = [ready_ok_message].
Proof.
  do 11 (split; [reflexivity|]). split; [simpl; lia|]. split; [reflexivity|].
  exact (in_is_ready_accepts (dc := library) (wire := codec)
           (ready_feed "normal") (msg_is_ready "normal") (game_of "normal")
           (JString "team0") JNull (JString "fcv1") players_of_game
           [JNull; JNull; JNull; JNull] [Parses msg_new_game] k0 tt 1
           eq_refl eq_refl eq_refl eq_refl eq_refl eq_refl eq_refl eq_refl
           eq_refl eq_refl eq_refl
           (le_n 4) eq_refl).
Defined.

Lemma session_verdict_witness :
  (session "localhost" "10000" (net short_match)).1 = inr tt
  /\ exists (l : list IO) (verdict : Line),
       io (session "localhost" "10000" (net short_match)).2
       = io (net short_match) ++ l ++ [Cout InGameOver; Cout verdict]
       /\ (verdict = WonTheGame \/ verdict = LostTheGame).
Proof.
  assert (H : (session "localhost" "10000" (net short_match)).1 = inr tt)
    by (vm_compute; reflexivity).
  split; [exact H|].
  exact (session_verdict (libm := math) (dc := library) (wire := codec)
           "localhost" "10000" (net short_match) H).
Defined.

End Runs_on_the_feed.
